(** * Feature-model graph engine: search, hierarchy, overlay, highlights, viewport

    A shallow embedding of the visualizer's core (src/core/search.js and the
    utility functions of the GraphView component) together with the
    properties its specification states.

    Modelling conventions.
    - JavaScript strings are [string]s; [toLowerCase] folds the ASCII
      letters and [trim] strips the ASCII white space characters.
    - The [Map] given to [pathToRoot] is a finite map ([gmap]).  An object
      literal used as a dictionary ([featureById], [map], [nodeById]) is a
      finite map of the names assigned, read through its prototype chain:
      a name that was not assigned may still yield a member inherited from
      [Object.prototype], and an assignment to ["__proto__"] installs the
      value as the prototype.  A [TypeError] is an outcome of its own.
    - A value that may be [null] or [undefined] is an [option].
    - A number is an exact rational or one of Infinity, -Infinity and NaN;
      rounding, overflow and the sign of zero are not modelled.
    - A loop whose termination depends on the data takes a [fuel] budget;
      the properties show which budget is enough. *)

From Stdlib Require Import String Ascii List Arith Lia QArith Qcanon Qcabs.
From stdpp Require Import base option list gmap strings.

Local Open Scope string_scope.
Local Open Scope list_scope.
Local Open Scope nat_scope.

(** ** JavaScript values shared by the components *)

Module Js.

(** [!!s] for a string: only the empty string is falsy. *)
Definition truthy_str (s : string) : bool :=
  match s with EmptyString => false | String _ _ => true end.

(** [!!v] for a string that may be [null] or [undefined]. *)
Definition truthy (v : option string) : bool :=
  match v with None => false | Some s => truthy_str s end.

(** [a || b] where [a] may be absent and [b] is a string. *)
Definition or_else (a : option string) (b : string) : string :=
  match a with
  | Some s => if truthy_str s then s else b
  | None => b
  end.

End Js.

(** ** JavaScript numbers *)

Module JsNum.

Local Open Scope Qc_scope.

(** A number is a rational or one of the special values.  Arithmetic on
    rationals is exact: rounding, overflow and the sign of zero are
    not modelled. *)
Inductive num :=
| Fin (q : Qc)
| PInf
| NInf
| NaN.

Definition ofQ (q : Q) : num := Fin (Q2Qc q).

Definition neg (a : num) : num :=
  match a with
  | Fin q => Fin (- q)
  | PInf => NInf
  | NInf => PInf
  | NaN => NaN
  end.

Definition add (a b : num) : num :=
  match a, b with
  | NaN, _ | _, NaN => NaN
  | Fin p, Fin q => Fin (p + q)
  | PInf, NInf | NInf, PInf => NaN
  | PInf, _ | _, PInf => PInf
  | NInf, _ | _, NInf => NInf
  end.

Definition sub (a b : num) : num := add a (neg b).

(** An infinity scaled by the sign of a rational. *)
Definition scaled (inf : num) (q : Qc) : num :=
  match q ?= 0 with
  | Gt => inf
  | Lt => neg inf
  | Eq => NaN
  end.

Definition mul (a b : num) : num :=
  match a, b with
  | NaN, _ | _, NaN => NaN
  | Fin p, Fin q => Fin (p * q)
  | Fin p, PInf | PInf, Fin p => scaled PInf p
  | Fin p, NInf | NInf, Fin p => scaled NInf p
  | PInf, PInf | NInf, NInf => PInf
  | PInf, NInf | NInf, PInf => NInf
  end.

(** Division; a zero divisor is the positive zero. *)
Definition div (a b : num) : num :=
  match a, b with
  | NaN, _ | _, NaN => NaN
  | Fin p, Fin q =>
      if Qc_eq_dec q 0 then scaled PInf p else Fin (p / q)
  | Fin _, (PInf | NInf) => Fin 0
  | PInf, Fin q => if Qc_eq_dec q 0 then PInf else scaled PInf q
  | NInf, Fin q => if Qc_eq_dec q 0 then NInf else scaled NInf q
  | (PInf | NInf), (PInf | NInf) => NaN
  end.

Definition Qcmin (p q : Qc) : Qc := if Qclt_le_dec q p then q else p.
Definition Qcmax (p q : Qc) : Qc := if Qclt_le_dec p q then q else p.

(** [Math.min(a, b)] *)
Definition min (a b : num) : num :=
  match a, b with
  | NaN, _ | _, NaN => NaN
  | NInf, _ | _, NInf => NInf
  | PInf, c | c, PInf => c
  | Fin p, Fin q => Fin (Qcmin p q)
  end.

(** [Math.max(a, b)] *)
Definition max (a b : num) : num :=
  match a, b with
  | NaN, _ | _, NaN => NaN
  | PInf, _ | _, PInf => PInf
  | NInf, c | c, NInf => c
  | Fin p, Fin q => Fin (Qcmax p q)
  end.

(** [Math.abs(a)] *)
Definition abs (a : num) : num :=
  match a with
  | Fin q => Fin (Qcabs q)
  | PInf | NInf => PInf
  | NaN => NaN
  end.

(** The reduced fraction of a finite number. *)
Definition toQ (a : num) : option Q :=
  match a with Fin q => Some (this q) | _ => None end.

(** [Number.isFinite(a)] *)
Definition isFinite (a : num) : bool :=
  match a with Fin _ => true | _ => false end.

End JsNum.

(** ** Object literals used as dictionaries *)

Module JsObject.

(** How a statement ends: it completes, or a [TypeError] is thrown. *)
Inductive Completion (A : Type) : Type :=
| Normal (a : A)
| Throw.
Arguments Normal {A} a.
Arguments Throw {A}.

(** The property names of [Object.prototype], which every object literal
    inherits: those of the standard and those of its annex for browsers.
    All of them are functions but ["__proto__"], an accessor that reads
    and replaces the prototype of the object. *)
Definition prototypeMembers : list string :=
  [ "constructor"; "hasOwnProperty"; "isPrototypeOf"; "propertyIsEnumerable";
    "toLocaleString"; "toString"; "valueOf";
    "__defineGetter__"; "__defineSetter__";
    "__lookupGetter__"; "__lookupSetter__"; "__proto__" ].

(** What [dict[k]] yields on a dictionary that the code fills with
    objects: an object the code stored, a truthy value it did not store
    (found up the prototype chain), or [undefined] or another falsy value.

    A dictionary [{}] filled by [dict[k] = object] is a finite map from the
    names assigned to the objects stored last under them.  The entry at
    ["__proto__"] is no own property: it is the object that the assignment
    installed as the prototype of the dictionary, and reading
    [dict["__proto__"]] yields that object. *)
Inductive Got (A : Type) : Type :=
| Stored (a : A)
| Foreign
| Absent.
Arguments Stored {A} a.
Arguments Foreign {A}.
Arguments Absent {A}.

End JsObject.

(** ** The data model *)

Record Feature := mkFeature {
  id : string;
  label : option string;
  type : string;
  parent : option string;
}.

(** ** src/core/search.js: [searchFeatures] *)

Module Search.

Definition is_space (c : ascii) : bool :=
  let n := nat_of_ascii c in
  (((9 <=? n) && (n <=? 13)) || (n =? 32))%nat.

Definition lower_char (c : ascii) : ascii :=
  let n := nat_of_ascii c in
  if ((65 <=? n) && (n <=? 90))%nat then ascii_of_nat (n + 32) else c.

Fixpoint toLowerCase (s : string) : string :=
  match s with
  | EmptyString => EmptyString
  | String c s' => String (lower_char c) (toLowerCase s')
  end.

Fixpoint trimStart (s : string) : string :=
  match s with
  | EmptyString => EmptyString
  | String c s' => if is_space c then trimStart s' else s
  end.

Fixpoint trimEnd (s : string) : string :=
  match s with
  | EmptyString => EmptyString
  | String c s' =>
      match trimEnd s' with
      | EmptyString => if is_space c then EmptyString else String c EmptyString
      | r => String c r
      end
  end.

Definition trim (s : string) : string := trimEnd (trimStart s).

Fixpoint startsWith (s q : string) : bool :=
  match q, s with
  | EmptyString, _ => true
  | String _ _, EmptyString => false
  | String a q', String b s' => if Ascii.eqb a b then startsWith s' q' else false
  end.

(** [s.includes(q)]: some suffix of [s] starts with [q]. *)
Fixpoint includes (s q : string) : bool :=
  startsWith s q ||
  match s with
  | EmptyString => false
  | String _ s' => includes s' q
  end.

(** [(keyword || "").trim().toLowerCase()] *)
Definition normalize (keyword : option string) : string :=
  toLowerCase (trim (Js.or_else keyword "")).

(** [f.label || f.id] *)
Definition text (f : Feature) : string := Js.or_else (label f) (id f).

Definition searchFeatures (features : list Feature) (keyword : option string)
  : list string :=
  let q := normalize keyword in
  if negb (Js.truthy_str q) then []
  else map id (List.filter (fun f => includes (toLowerCase (text f)) q) features).

(** *** Specification-level notions *)

(** [q] occurs in [s] as a contiguous block. *)
Definition Substring (q s : string) : Prop :=
  ∃ pre post, s = pre +:+ q +:+ post.

Fixpoint all_space (s : string) : bool :=
  match s with
  | EmptyString => true
  | String c s' => is_space c && all_space s'
  end.

Definition first_char (s : string) : option ascii :=
  match s with EmptyString => None | String c _ => Some c end.

Fixpoint last_char (s : string) : option ascii :=
  match s with
  | EmptyString => None
  | String c EmptyString => Some c
  | String _ s' => last_char s'
  end.

(** A feature matches when the query occurs in its lowercased label, or in
    its lowercased id when the label is empty or absent. *)
Definition Matches (q : string) (f : Feature) : Prop :=
  Substring q (toLowerCase (text f)).

(** [Selects P l l']: [l'] keeps, in order and with multiplicity, exactly
    the elements of [l] that satisfy [P]. *)
Inductive Selects {A : Type} (P : A → Prop) : list A → list A → Prop :=
| selects_nil : Selects P [] []
| selects_keep x l l' : P x → Selects P l l' → Selects P (x :: l) (x :: l')
| selects_drop x l l' : ¬ P x → Selects P l l' → Selects P (x :: l) l'.









End Search.

(** ** src/core/search.js: [pathToRoot] *)

Module PathToRoot.

(** The loop of [pathToRoot].  [cur] is the id under inspection and [path]
    the ids pushed so far.  Each round of the [while] uses one unit of
    [fuel]; [None] means that the loop is still running when the fuel is
    spent.  The final [if (cur) path.push(cur)] and [path.reverse()] are
    applied when the loop condition fails. *)
Fixpoint walk (fuel : nat) (parentMap : gmap string (option string))
    (cur : option string) (path : list string) : option (list string) :=
  match fuel with
  | O => None
  | S fuel' =>
      match cur with
      | Some c =>
          if Js.truthy_str c then
            match parentMap !! c with
            | Some next => walk fuel' parentMap next (path ++ [c])
            | None => Some (rev (path ++ [c]))
            end
          else Some (rev path)
      | None => Some (rev path)
      end
  end.

Definition pathToRoot (fuel : nat) (targetId : option string)
    (parentMap : gmap string (option string)) : option (list string) :=
  walk fuel parentMap targetId [].

(** *** Specification-level notions *)

(** One round of the loop moves from [c] to the parent recorded for it. *)
Definition follows (parentMap : gmap string (option string)) (c p : string) : Prop :=
  Js.truthy_str c = true ∧ parentMap !! c = Some (Some p).

(** No id on the chain of parent pointers that starts at [t] leads back to
    itself. *)
Definition Acyclic_from (parentMap : gmap string (option string)) (t : string) : Prop :=
  ∀ c, rtc (follows parentMap) t c → ¬ tc (follows parentMap) c c.

(** [Chain m c l]: [l] lists [c], its parent, its grandparent and so on,
    up to the first id that is not a key of [m] or the last key whose
    recorded parent is empty. *)
Inductive Chain (m : gmap string (option string)) : string → list string → Prop :=
| chain_unmapped c :
    Js.truthy_str c = true → m !! c = None → Chain m c [c]
| chain_orphan c v :
    Js.truthy_str c = true → m !! c = Some v → Js.truthy v = false → Chain m c [c]
| chain_parent c p l :
    Js.truthy_str c = true → m !! c = Some (Some p) → Js.truthy_str p = true →
    Chain m p l → Chain m c (c :: l).

(** *** Sample maps *)

Definition family : gmap string (option string) :=
  <["leaf" := Some "mid"]> (<["mid" := Some "top"]> (<["top" := None]> ∅)).

Definition ring : gmap string (option string) :=
  <["a" := Some "b"]> (<["b" := Some "a"]> ∅).

End PathToRoot.

(** ** The d3-hierarchy node tree *)

Module D3.

(** A [d3.hierarchy] node: its datum and its child nodes, in order.  A leaf
    has no children.  A node object is named by the child indices that lead
    to it from the root. *)
Inductive Node (A : Type) : Type :=
| mkNode (data : A) (children : list (Node A)).
Arguments mkNode {A} data children.

Definition data {A} (n : Node A) : A :=
  match n with mkNode d _ => d end.

Definition children {A} (n : Node A) : list (Node A) :=
  match n with mkNode _ cs => cs end.

Definition path := list nat.

(** The node reached from [n] by the child indices [p]. *)
Fixpoint node_at {A} (n : Node A) (p : path) : option (Node A) :=
  match p with
  | [] => Some n
  | i :: p' =>
      match children n !! i with
      | Some c => node_at c p'
      | None => None
      end
  end.

(** [node.height]: the length of the longest downward path. *)
Fixpoint height {A} (n : Node A) : nat :=
  match n with
  | mkNode _ cs => fold_right (fun c h => Nat.max (S (height c)) h) 0 cs
  end.

(** The paths of the nodes at depth [d] below [n], left to right. *)
Fixpoint level {A} (d : nat) (n : Node A) : list path :=
  match d with
  | O => [[]]
  | S d' =>
      concat (imap (fun i c => cons i <$> level d' c) (children n))
  end.

(** [node.descendants()]: the node and everything below it, in the
    breadth-first order of the node iterator; paths are relative to [n]. *)
Definition descendants {A} (n : Node A) : list path :=
  concat ((fun d => level d n) <$> seq 0 (S (height n))).

(** [node.ancestors()] for the node at [p]: the node itself, then its
    parent, and so on up to the root. *)
Definition ancestors (p : path) : list path :=
  (fun k => take k p) <$> rev (seq 0 (S (length p))).

(** The data of all nodes of the tree. *)
Fixpoint nodes_data {A} (n : Node A) : list A :=
  match n with
  | mkNode d cs => d :: concat (nodes_data <$> cs)
  end.

End D3.

(** ** GraphView: [buildHierarchy] *)

Module Hierarchy.

(** An object of [featureById]: the copied feature with its [children]
    array.  The array holds references to objects of [featureById]; an
    object is referred to by its key, which never changes once the first
    pass is over. *)
Record Obj := mkObj {
  feature : Feature;
  children : list string;
}.

(** First pass: [featureById[feature.id] = { ...feature, children: [] }]. *)
Definition register (featureById : gmap string Obj) (f : Feature)
  : gmap string Obj :=
  <[id f := mkObj f []]> featureById.

(** [!!o[k]] for an own property [k] of an object of the first pass,
    [{ ...feature, children: [] }]; [false] for any other name. *)
Definition ownTruthy (o : Obj) (k : string) : bool :=
  if String.eqb k "id" then Js.truthy_str (id (feature o))
  else if String.eqb k "label" then Js.truthy (label (feature o))
  else if String.eqb k "type" then Js.truthy_str (type (feature o))
  else if String.eqb k "parent" then Js.truthy (parent (feature o))
  else String.eqb k "children".

(** Whether a name that is no own key of [featureById] is found, with a
    truthy value, up the prototype chain: in the object installed by an
    assignment to ["__proto__"], if there was one, or in
    [Object.prototype]. *)
Definition inherits (featureById : gmap string Obj) (k : string) : bool :=
  match featureById !! "__proto__" with
  | Some o => ownTruthy o k
  | None => false
  end || bool_decide (k ∈ JsObject.prototypeMembers).

(** [featureById[k]] *)
Definition get (featureById : gmap string Obj) (k : string) : JsObject.Got Obj :=
  match featureById !! k with
  | Some o => JsObject.Stored o
  | None => if inherits featureById k then JsObject.Foreign else JsObject.Absent
  end.

(** Second pass, for one feature:
    [if (feature.parent && featureById[feature.parent])
       featureById[feature.parent].children.push(featureById[feature.id])].
    A truthy value that is not an object of the first pass has no
    [children], and [undefined.push] throws a [TypeError]. *)
Definition attach (featureById : gmap string Obj) (f : Feature)
  : JsObject.Completion (gmap string Obj) :=
  match parent f with
  | Some p =>
      if Js.truthy_str p then
        match get featureById p with
        | JsObject.Stored o =>
            JsObject.Normal
              (<[p := mkObj (feature o) (children o ++ [id f])]> featureById)
        | JsObject.Foreign => JsObject.Throw
        | JsObject.Absent => JsObject.Normal featureById
        end
      else JsObject.Normal featureById
  | None => JsObject.Normal featureById
  end.

(** The [forEach] of the second pass; an exception ends it. *)
Fixpoint secondPass (featureById : gmap string Obj) (features : list Feature)
  : JsObject.Completion (gmap string Obj) :=
  match features with
  | [] => JsObject.Normal featureById
  | f :: rest =>
      match attach featureById f with
      | JsObject.Normal featureById' => secondPass featureById' rest
      | JsObject.Throw => JsObject.Throw
      end
  end.

(** The two passes. *)
Definition index (features : list Feature)
  : JsObject.Completion (gmap string Obj) :=
  secondPass (foldl register ∅ features) features.

(** [d3.hierarchy(obj)]: unfold the object graph from the object at [key]
    into a tree of nodes.  [fuel] bounds the depth of the unfolding;
    [None] means that it is not complete within the bound.  The references
    in a [children] array are names of stored objects, so the lookup of a
    name that is reached always succeeds. *)
Fixpoint hierarchy (fuel : nat) (featureById : gmap string Obj) (key : string)
  : option (D3.Node Feature) :=
  match fuel with
  | O => None
  | S fuel' =>
      match featureById !! key with
      | Some o =>
          match mapM (hierarchy fuel' featureById) (children o) with
          | Some kids => Some (D3.mkNode (feature o) kids)
          | None => None
          end
      | None => None
      end
  end.

(** How a call of [buildHierarchy] ends; [Unfinished] when the unfolding
    is not complete within the bound. *)
Inductive Built :=
| Unfinished
| ReturnsNull
| ReturnsTree (root : D3.Node Feature)
| Throws.

(** [model.features.find((feature) => !feature.parent)] *)
Definition rootFeature (features : list Feature) : option Feature :=
  List.find (fun f => negb (Js.truthy (parent f))) features.

Definition buildHierarchy (fuel : nat) (features : list Feature) : Built :=
  match index features with
  | JsObject.Throw => Throws
  | JsObject.Normal featureById =>
      match rootFeature features with
      | Some r =>
          match hierarchy fuel featureById (id r) with
          | Some t => ReturnsTree t
          | None => Unfinished
          end
      | None => ReturnsNull
      end
  end.

(** *** Specification-level notions *)

Definition ids (features : list Feature) : list string := id <$> features.

(** What the second pass does for one feature when it completes: the
    parent is looked up among the stored objects.  Used to state what the
    passes leave, never in place of [attach]. *)
Definition link (featureById : gmap string Obj) (f : Feature)
  : gmap string Obj :=
  match parent f with
  | Some p =>
      if Js.truthy_str p then
        match featureById !! p with
        | Some o => <[p := mkObj (feature o) (children o ++ [id f])]> featureById
        | None => featureById
        end
      else featureById
  | None => featureById
  end.

(** The objects the two passes leave when nothing is thrown: every
    completed run of [index] yields them. *)
Definition objects (features : list Feature) : gmap string Obj :=
  foldl link (foldl register ∅ features) features.

(** No id is ["__proto__"], and a parent that names a member of
    [Object.prototype] is the id of a feature. *)
Definition Plain (features : list Feature) : Prop :=
  "__proto__" ∉ ids features ∧
  ∀ f p, f ∈ features → parent f = Some p →
         p ∈ JsObject.prototypeMembers → p ∈ ids features.

(** [Plain] as a test. *)
Definition plainb (features : list Feature) : bool :=
  negb (bool_decide ("__proto__" ∈ ids features)) &&
  forallb (λ f, match parent f with
                | Some p => implb (bool_decide (p ∈ JsObject.prototypeMembers))
                                  (bool_decide (p ∈ ids features))
                | None => true
                end) features.

(** Some parent that is not an id names a member of [Object.prototype]. *)
Definition InheritedParent (features : list Feature) : Prop :=
  ∃ f p, f ∈ features ∧ parent f = Some p ∧
         p ∈ JsObject.prototypeMembers ∧ p ∉ ids features.

(** The ids of the nodes of a tree. *)
Definition labels (t : D3.Node Feature) : list string :=
  id <$> D3.nodes_data t.

(** A feature without a parent. *)
Definition Parentless (f : Feature) : Prop := Js.truthy (parent f) = false.

(** A feature whose declared parent is not the id of any feature. *)
Definition Dangling (features : list Feature) (f : Feature) : Prop :=
  ∃ p, parent f = Some p ∧ Js.truthy_str p = true ∧ p ∉ ids features.

(** Root candidates as the specification words them: a feature with no
    parent, or one whose declared parent id is not in the mapping. *)
Definition spec_root_candidate (features : list Feature) (f : Feature) : bool :=
  match parent f with
  | Some p => negb (Js.truthy_str p) || negb (bool_decide (p ∈ ids features))
  | None => true
  end.

Definition spec_first_root_candidate (features : list Feature) : option Feature :=
  List.find (spec_root_candidate features) features.

(** [Child features c k]: some feature with id [c] names [k] as its parent,
    and [k] is an id of the list. *)
Definition Child (features : list Feature) (c k : string) : Prop :=
  ∃ f, f ∈ features ∧ id f = c ∧ parent f = Some k ∧
       Js.truthy_str k = true ∧ k ∈ ids features.

(** The ids of the features that name [k] as their parent, in input order. *)
Definition kids (features : list Feature) (k : string) : list string :=
  id <$> filter (λ f, parent f = Some k ∧ Js.truthy_str k = true) features.

(** [UpChain features c l]: [l] lists [c], its parent, and so on up to an
    id that is nobody's child. *)
Inductive UpChain (features : list Feature) : string → list string → Prop :=
| up_top c : (∀ p, ¬ Child features c p) → UpChain features c [c]
| up_step c p l :
    Child features c p → UpChain features p l → UpChain features c (c :: l).

(** *** Sample models *)

Definition orphan_first : list Feature :=
  [ mkFeature "a" (Some "A") "optional" (Some "ghost");
    mkFeature "b" (Some "B") "mandatory" None ].

Definition only_orphan : list Feature :=
  [ mkFeature "a" (Some "A") "optional" (Some "ghost") ].

Definition sample : list Feature :=
  [ mkFeature "root" (Some "Root") "mandatory" None;
    mkFeature "a" (Some "A") "optional" (Some "root");
    mkFeature "b" (Some "B") "optional" (Some "root");
    mkFeature "c" (Some "C") "optional" (Some "ghost");
    mkFeature "r2" (Some "Second root") "mandatory" None;
    mkFeature "d" (Some "D") "optional" (Some "r2");
    mkFeature "e" (Some "E") "optional" (Some "a") ].

Definition twins : list Feature :=
  [ mkFeature "r" None "mandatory" None;
    mkFeature "r" None "mandatory" (Some "r") ].

Definition inherited_parent : list Feature :=
  [ mkFeature "a" (Some "A") "mandatory" None;
    mkFeature "b" (Some "B") "optional" (Some "constructor") ].

Definition proto_id : list Feature :=
  [ mkFeature "__proto__" (Some "P") "mandatory" None;
    mkFeature "b" (Some "B") "optional" (Some "__proto__");
    mkFeature "c" (Some "C") "optional" (Some "ghost") ].

Definition proto_label : list Feature :=
  [ mkFeature "__proto__" (Some "P") "mandatory" None;
    mkFeature "b" (Some "B") "optional" (Some "label") ].

End Hierarchy.

(** ** GraphView: [applyHighlights] *)

Module Highlights.

(** What the function writes on the drawing: the stroke colour and width of
    each node circle and the stroke colour of each link.  A circle is keyed
    by its node, a link by its target node. *)
Record Drawing := mkDrawing {
  nodeStroke : gmap D3.path (string * nat);
  linkStroke : gmap D3.path string;
}.

(** The body of the [forEach] over [rootNode.descendants()]: for a node
    whose id is highlighted, add the node, its ancestors and its descendants
    to [relatedNodes]. *)
Definition visit (highlighted : gset string) (rootNode : D3.Node Feature)
    (relatedNodes : gset D3.path) (p : D3.path) : gset D3.path :=
  match D3.node_at rootNode p with
  | Some node =>
      if decide (id (D3.data node) ∈ highlighted) then
        let r1 := {[p]} ∪ relatedNodes in
        let r2 := foldl (λ acc a, {[a]} ∪ acc) r1 (D3.ancestors p) in
        foldl (λ acc d, {[p ++ d]} ∪ acc) r2 (D3.descendants node)
      else relatedNodes
  | None => relatedNodes
  end.

Definition relatedNodes (highlightedIds : list string)
    (rootNode : D3.Node Feature) : gset D3.path :=
  foldl (visit (list_to_set highlightedIds) rootNode) ∅ (D3.descendants rootNode).

Definition nodeStyle (highlighted : gset string) (related : gset D3.path)
    (rootNode : D3.Node Feature) (p : D3.path) : string * nat :=
  let hit :=
    match D3.node_at rootNode p with
    | Some node => bool_decide (id (D3.data node) ∈ highlighted)
    | None => false
    end in
  (if hit then "#e53935" else if decide (p ∈ related) then "#f48fb1" else "#fff",
   if hit then 5 else if decide (p ∈ related) then 3 else 2).

(** A link joins the parent of its target to the target. *)
Definition linkStyle (related : gset D3.path) (target : D3.path) : string :=
  if decide (removelast target ∈ related ∧ target ∈ related)
  then "#f48fb1" else "#bbb".

(** [highlightedIds] may be missing; [!highlightedIds?.length] then holds
    as it does for the empty array, and the function returns at once. *)
Definition applyHighlights (drawing : Drawing)
    (highlightedIds : option (list string)) (rootNode : D3.Node Feature)
  : Drawing :=
  match highlightedIds with
  | None | Some [] => drawing
  | Some ids =>
      let highlighted : gset string := list_to_set ids in
      let related := relatedNodes ids rootNode in
      mkDrawing
        (map_imap (λ p _, Some (nodeStyle highlighted related rootNode p))
                  (nodeStroke drawing))
        (map_imap (λ p _, Some (linkStyle related p)) (linkStroke drawing))
  end.

(** *** Specification-level notions *)

(** [p] names a node of the tree. *)
Definition InTree {A} (rootNode : D3.Node A) (p : D3.path) : Prop :=
  is_Some (D3.node_at rootNode p).

(** The node at [p] carries a matched id. *)
Definition Matched (ids : list string) (rootNode : D3.Node Feature)
    (p : D3.path) : Prop :=
  ∃ node, D3.node_at rootNode p = Some node ∧ id (D3.data node) ∈ ids.

(** [a] is [p] or lies on the way from the root to [p]. *)
Definition AncestorOrSelf (a p : D3.path) : Prop := a `prefix_of` p.

(** The closure of the matched nodes as ids. *)
Definition closure_ids (ids : list string) (rootNode : D3.Node Feature)
  : gset string :=
  set_omap (λ p, id ∘ D3.data <$> D3.node_at rootNode p) (relatedNodes ids rootNode).

(** What one round of the traversal adds. *)
Definition Touches (highlighted : gset string) (rootNode : D3.Node Feature)
    (p x : D3.path) : Prop :=
  ∃ node, D3.node_at rootNode p = Some node ∧
          id (D3.data node) ∈ highlighted ∧
          (x `prefix_of` p ∨ (p `prefix_of` x ∧ is_Some (D3.node_at rootNode x))).

(** *** A sample tree *)

Definition leaf (i : string) : D3.Node Feature :=
  D3.mkNode (mkFeature i None "optional" None) [].

Definition tree : D3.Node Feature :=
  D3.mkNode (mkFeature "root" None "mandatory" None)
    [ D3.mkNode (mkFeature "a" None "optional" (Some "root"))
        [ leaf "a1"; D3.mkNode (mkFeature "a2" None "optional" (Some "a")) [leaf "a21"] ];
      D3.mkNode (mkFeature "b" None "optional" (Some "root")) [ leaf "b1" ] ].

End Highlights.

(** ** GraphView: [drawConstraints] *)

Module Overlay.
Import JsNum.

Record Constraint := mkConstraint {
  a : string;
  b : string;
  kind : string;
}.

(** A node of the tree after layout: its feature and its coordinates. *)
Record Placed := mkPlaced {
  feature : Feature;
  x : num;
  y : num;
}.

Record Point := mkPoint { px : num; py : num }.

(** A marker circle: its [cx] and [cy] attributes.  [attr(name, undefined)]
    removes the attribute, which is [None] here. *)
Record Marker := mkMarker { cx : option num; cy : option num }.

(** What is appended to the constraint layer for one constraint: a path
    through the control points given to the line generator, and a circle at
    each end. *)
Record Drawn := mkDrawn {
  points : list Point;
  stroke : string;
  dash : string;
  markers : list Marker;
  fill : string;
}.

(** [rootNode.descendants().forEach((node) => (nodeById[node.data.id] = node))]:
    the node stored last under each name, by its path.  The entry at
    ["__proto__"] is the node that the assignment installed as the
    prototype of the dictionary. *)
Definition stored (rootNode : D3.Node Placed) : gmap string D3.path :=
  foldl (λ m p,
           match D3.node_at rootNode p with
           | Some node => <[id (feature (D3.data node)) := p]> m
           | None => m
           end)
        ∅ (D3.descendants rootNode).

(** [!!v] for a number: zero and NaN are falsy. *)
Definition truthy_num (v : num) : bool :=
  match v with
  | Fin q => if Qc_eq_dec q (Q2Qc 0) then false else true
  | PInf | NInf => true
  | NaN => false
  end.

(** The methods that the nodes of [d3.hierarchy] inherit from their
    prototype. *)
Definition nodeMembers : list string :=
  [ "constructor"; "count"; "each"; "eachAfter"; "eachBefore"; "find";
    "sum"; "sort"; "path"; "ancestors"; "descendants"; "leaves"; "links";
    "copy" ].

(** [P[k]] for the laid-out node [P] at [pp]: its own properties [data],
    [depth], [height], [parent], [children] (set only when there are
    children), [x] and [y], then the methods of its prototype, then the
    members of [Object.prototype]. *)
Definition nodeMember (rootNode : D3.Node Placed) (pp : D3.path) (k : string)
  : JsObject.Got Placed :=
  match D3.node_at rootNode pp with
  | None => JsObject.Absent
  | Some P =>
      if String.eqb k "data" then JsObject.Foreign
      else if String.eqb k "depth" then
        if length pp =? 0 then JsObject.Absent else JsObject.Foreign
      else if String.eqb k "height" then
        if D3.height P =? 0 then JsObject.Absent else JsObject.Foreign
      else if String.eqb k "parent" then
        match pp with
        | [] => JsObject.Absent
        | _ :: _ =>
            match D3.node_at rootNode (removelast pp) with
            | Some up => JsObject.Stored (D3.data up)
            | None => JsObject.Absent
            end
        end
      else if String.eqb k "children" then
        match D3.children P with
        | [] => JsObject.Absent
        | _ :: _ => JsObject.Foreign
        end
      else if String.eqb k "x" then
        if truthy_num (x (D3.data P)) then JsObject.Foreign else JsObject.Absent
      else if String.eqb k "y" then
        if truthy_num (y (D3.data P)) then JsObject.Foreign else JsObject.Absent
      else if bool_decide (k ∈ nodeMembers ++ JsObject.prototypeMembers)
      then JsObject.Foreign else JsObject.Absent
  end.

(** [nodeById[k]] after the [forEach]: a node is known by its datum, which
    holds its coordinates. *)
Definition nodeById (rootNode : D3.Node Placed) (k : string)
  : JsObject.Got Placed :=
  match stored rootNode !! k with
  | Some p =>
      match D3.node_at rootNode p with
      | Some node => JsObject.Stored (D3.data node)
      | None => JsObject.Absent
      end
  | None =>
      match stored rootNode !! "__proto__" with
      | Some pp => nodeMember rootNode pp k
      | None =>
          if bool_decide (k ∈ JsObject.prototypeMembers)
          then JsObject.Foreign else JsObject.Absent
      end
  end.

Definition colour (c : Constraint) : string :=
  if String.eqb (kind c) "requires" then "#2196f3" else "#e53935".

Definition dashes (c : Constraint) : string :=
  if String.eqb (kind c) "requires" then "4 3" else "6 4".

(** [value.x] and [value.y] for a truthy value: a value that is no node has
    neither, and the read yields [undefined], which is [None] here. *)
Definition getX (v : JsObject.Got Placed) : option num :=
  match v with JsObject.Stored n => Some (x n) | _ => None end.

Definition getY (v : JsObject.Got Placed) : option num :=
  match v with JsObject.Stored n => Some (y n) | _ => None end.

(** A value in arithmetic and under the unary plus of the line generator:
    [undefined] becomes NaN. *)
Definition number (v : option num) : num :=
  match v with Some n => n | None => NaN end.

Definition controlMagnitude (sourceNode targetNode : JsObject.Got Placed) : num :=
  max (ofQ 80)
      (div (abs (sub (number (getY sourceNode)) (number (getY targetNode))))
           (ofQ 3)).

(** The body of the [forEach] over the constraints; nothing is appended
    when [!sourceNode || !targetNode]. *)
Definition drawConstraint (nodeById : string → JsObject.Got Placed)
    (c : Constraint) : list Drawn :=
  let sourceNode := nodeById (a c) in
  let targetNode := nodeById (b c) in
  match sourceNode, targetNode with
  | JsObject.Absent, _ | _, JsObject.Absent => []
  | _, _ =>
      [ mkDrawn
          [ mkPoint (number (getX sourceNode)) (number (getY sourceNode));
            mkPoint (div (add (number (getX sourceNode))
                              (number (getX targetNode))) (ofQ 2))
                    (sub (div (add (number (getY sourceNode))
                                   (number (getY targetNode))) (ofQ 2))
                         (controlMagnitude sourceNode targetNode));
            mkPoint (number (getX targetNode)) (number (getY targetNode)) ]
          (colour c) (dashes c)
          [ mkMarker (getX sourceNode) (getY sourceNode);
            mkMarker (getX targetNode) (getY targetNode) ]
          (colour c) ]
  end.

Definition overlay (nodeById : string → JsObject.Got Placed)
    (constraints : list Constraint) : list Drawn :=
  concat (drawConstraint nodeById <$> constraints).

(** [(model.constraints || [])] may be missing. *)
Definition drawConstraints (constraints : option (list Constraint))
    (rootNode : D3.Node Placed) : list Drawn :=
  overlay (nodeById rootNode) (default [] constraints).

(** *** Specification-level notions *)

(** The ids of the nodes of the tree. *)
Definition nodeIds (rootNode : D3.Node Placed) : list string :=
  omap (λ p, (λ node, id (feature (D3.data node))) <$> D3.node_at rootNode p)
       (D3.descendants rootNode).

(** The name is the id of a node of the tree, or is found on
    [Object.prototype]. *)
Definition Found (rootNode : D3.Node Placed) (k : string) : Prop :=
  k ∈ nodeIds rootNode ∨ k ∈ JsObject.prototypeMembers.

(** An end of a drawing for the name [k]: on a node with this id, or, for
    the name of an inherited member that is no id, nowhere: the control
    point is (NaN, NaN) and the marker has no position. *)
Definition EndAt (rootNode : D3.Node Placed) (k : string)
    (point : Point) (marker : Marker) : Prop :=
  (∃ p node, D3.node_at rootNode p = Some node ∧
             id (feature (D3.data node)) = k ∧
             point = mkPoint (x (D3.data node)) (y (D3.data node)) ∧
             marker = mkMarker (Some (x (D3.data node))) (Some (y (D3.data node))))
  ∨ (k ∉ nodeIds rootNode ∧ k ∈ JsObject.prototypeMembers ∧
     point = mkPoint NaN NaN ∧ marker = mkMarker None None).

(** [d] is the drawing of [c]: a curve of three control points between its
    two ends and a marker at each end, in the colour of the constraint. *)
Definition Draws (rootNode : D3.Node Placed) (c : Constraint) (d : Drawn)
  : Prop :=
  ∃ first mid last m1 m2,
    EndAt rootNode (a c) first m1 ∧ EndAt rootNode (b c) last m2 ∧
    points d = [first; mid; last] ∧ markers d = [m1; m2] ∧
    stroke d = colour c ∧ dash d = dashes c ∧ fill d = colour c.

(** The curve as the specification words it: the middle control point is
    the midpoint of the chord moved at a right angle to the chord by
    [max(80, |Δy|/3)]. *)
Definition spec_perpendicular (sx sy tx ty mx my : Qc) : Prop :=
  let ox := (mx - (sx + tx) / Q2Qc 2)%Qc in
  let oy := (my - (sy + ty) / Q2Qc 2)%Qc in
  let mag := Qcmax (Q2Qc 80) (Qcabs (sy - ty) / Q2Qc 3) in
  (ox * (tx - sx) + oy * (ty - sy) = 0)%Qc ∧
  (ox * ox + oy * oy = mag * mag)%Qc.

(** *** Sample layouts *)

Definition placed (i : string) (qx qy : Q) : Placed :=
  mkPlaced (mkFeature i None "optional" None) (ofQ qx) (ofQ qy).

Definition stacked : D3.Node Placed :=
  D3.mkNode (placed "top" 0 0) [ D3.mkNode (placed "low" 0 300) [] ].

Definition positioned : D3.Node Placed :=
  D3.mkNode (placed "root" 0 0)
    [ D3.mkNode (placed "a" (-70) 200) [];
      D3.mkNode (placed "b" 70 200) [] ].

(** A tree with a node whose id is ["__proto__"]. *)
Definition proto_node : D3.Node Placed :=
  D3.mkNode (placed "root" 0 0)
    [ D3.mkNode (placed "__proto__" (-70) 200) [];
      D3.mkNode (placed "b" 70 200) [] ].

End Overlay.

(** ** GraphView: the viewport transform *)

Module Viewport.
Import JsNum.
Local Open Scope Qc_scope.

(** A [d3.zoom] transform: translation [(x, y)] and scale [k]. *)
Record Transform := mkTransform { x : num; y : num; k : num }.

Definition zoomIdentity : Transform := mkTransform (ofQ 0) (ofQ 0) (ofQ 1).

(** [t.translate(tx, ty)] *)
Definition translate (t : Transform) (tx ty : num) : Transform :=
  mkTransform (add (x t) (mul (k t) tx)) (add (y t) (mul (k t) ty)) (k t).

(** [t.scale(s)] *)
Definition scale (t : Transform) (s : num) : Transform :=
  mkTransform (x t) (y t) (mul (k t) s).

(** The result of [getBBox()] on the tree container. *)
Record BBox := mkBBox { bbx : num; bby : num; width : num; height : num }.

(** The result of [getBoundingClientRect()] on the svg element. *)
Record Rect := mkRect { rwidth : num; rheight : num }.

(** [graphStateRef.current] once a graph is drawn. *)
Record GraphState := mkGraphState {
  viewWidth : num;
  viewHeight : num;
  initialTransform : Transform;
}.

Definition fitScale (viewWidth viewHeight : num) (boundingBox : BBox) : num :=
  mul (min (div viewWidth (width boundingBox))
           (div viewHeight (height boundingBox)))
      (ofQ 0.8).

(** The initial fit-to-view transform computed after each layout. *)
Definition fitToView (viewWidth viewHeight : num) (boundingBox : BBox)
  : Transform :=
  let fitScale := fitScale viewWidth viewHeight boundingBox in
  let fitTx :=
    sub (div (sub viewWidth (mul (width boundingBox) fitScale)) (ofQ 2))
        (mul (bbx boundingBox) fitScale) in
  let fitTy :=
    sub (div (sub viewHeight (mul (height boundingBox) fitScale)) (ofQ 2))
        (mul (bby boundingBox) fitScale) in
  scale (translate zoomIdentity fitTx fitTy) fitScale.

(** [handleAlignCenter]: the new value of [zoomRef.current].  Without a
    drawn graph the handler returns at once. *)
Definition handleAlignCenter (state : option GraphState)
    (zoom : option Transform) (bbox : BBox) : option Transform :=
  match state with
  | None => zoom
  | Some g =>
      let currentTransform := default zoomIdentity zoom in
      let currentScale := k currentTransform in
      let translateX :=
        sub (div (sub (viewWidth g) (mul (width bbox) currentScale)) (ofQ 2))
            (mul (bbx bbox) currentScale) in
      let translateY :=
        sub (div (sub (viewHeight g) (mul (height bbox) currentScale)) (ofQ 2))
            (mul (bby bbox) currentScale) in
      Some (scale (translate zoomIdentity translateX translateY) currentScale)
  end.

(** [handleResetZoom]: the new value of [zoomRef.current]. *)
Definition handleResetZoom (state : option GraphState)
    (zoom : option Transform) (viewportRect : Rect) : option Transform :=
  match state with
  | None => zoom
  | Some g =>
      let currentTransform := default zoomIdentity zoom in
      let defaultScale := k (initialTransform g) in
      let centerX := div (rwidth viewportRect) (ofQ 2) in
      let centerY := div (rheight viewportRect) (ofQ 2) in
      let graphCenterX := div (sub centerX (x currentTransform)) (k currentTransform) in
      let graphCenterY := div (sub centerY (y currentTransform)) (k currentTransform) in
      let newTranslateX := sub centerX (mul graphCenterX defaultScale) in
      let newTranslateY := sub centerY (mul graphCenterY defaultScale) in
      Some (scale (translate zoomIdentity newTranslateX newTranslateY) defaultScale)
  end.

(** *** Specification-level notions *)

(** The fit scale with the guard the specification asks for. *)
Definition spec_fitScale (viewWidth viewHeight : num) (boundingBox : BBox) : num :=
  match width boundingBox, height boundingBox with
  | Fin w, Fin h =>
      if Qc_eq_dec w 0 then ofQ 1
      else if Qc_eq_dec h 0 then ofQ 1
      else fitScale viewWidth viewHeight boundingBox
  | _, _ => fitScale viewWidth viewHeight boundingBox
  end.

(** Where the transform puts a point of the content. *)
Definition applyX (t : Transform) (cx : num) : num := add (mul cx (k t)) (x t).
Definition applyY (t : Transform) (cy : num) : num := add (mul cy (k t)) (y t).

(** *** Sample states *)

Definition sampleBox : BBox :=
  mkBBox (Fin (Q2Qc (-25))) (Fin (Q2Qc (-25))) (Fin (Q2Qc 50)) (Fin (Q2Qc 90)).

Definition sampleFit : Transform :=
  fitToView (Fin (Q2Qc 400)) (Fin (Q2Qc 300)) sampleBox.

Definition panned : Transform :=
  mkTransform (Fin (Q2Qc 10)) (Fin (Q2Qc (-35))) (Fin (Q2Qc 2.5)).

Definition sampleState : GraphState :=
  mkGraphState (Fin (Q2Qc 400)) (Fin (Q2Qc 300)) sampleFit.

Definition pannedState : GraphState :=
  mkGraphState (Fin (Q2Qc 400)) (Fin (Q2Qc 300)) panned.

End Viewport.

(** ** The application state shared by the components *)

Module Store.

(** The loaded model: its features and its constraints, which may be
    missing. *)
Record Model := mkModel {
  features : list Feature;
  constraints : option (list Overlay.Constraint);
}.

End Store.

(** ** ControlBar: the live search *)

Module ControlBar.

(** What the effect stores: the hits and the count shown under the input
    ([None] for [null]). *)
Record SearchState := mkSearchState {
  searchHits : list string;
  resultCount : option nat;
}.

(** The effect run on every change of the query or of the model:
    [if (!query?.trim()) { setSearchHits([]); setResultCount(null); return; }
     const hits = searchFeatures(features, query); ...] with
    [features = model?.features || []]. *)
Definition liveSearch (model : option Store.Model) (query : option string)
  : SearchState :=
  let features := from_option Store.features [] model in
  if negb (Js.truthy (Search.trim <$> query)) then mkSearchState [] None
  else
    let hits := Search.searchFeatures features query in
    mkSearchState hits (Some (length hits)).

(** The line under the input. *)
Inductive Feedback :=
| Hidden
| Found (count : nat) (suffix : string)
| NoMatch.

(** [resultCount !== null && (resultCount > 0
      ? `${resultCount} feature${resultCount === 1 ? "" : "s"} found`
      : "No features match your query")] *)
Definition feedback (resultCount : option nat) : Feedback :=
  match resultCount with
  | None => Hidden
  | Some n => if 0 <? n then Found n (if n =? 1 then "" else "s") else NoMatch
  end.

End ControlBar.

(** ** FeatureListPanel: the tree in the sidebar *)

Module FeatureList.

(** A rendered entry: the id it shows, its left margin in pixels and
    whether it is drawn as a search hit. *)
Record Row := mkRow {
  rid : string;
  marginLeft : nat;
  isSearchHit : bool;
}.

(** [features.filter((f) => !f.parent).map((f) => map[f.id])]: the
    parentless features; the objects are referred to by their keys. *)
Definition roots (features : list Feature) : list string :=
  id <$> filter (λ f, Js.truthy (parent f) = false) features.

(** The panel's own [buildHierarchy]: the same two passes as the graph's,
    on a dictionary [map = {}], then all parentless features instead of
    the first one. *)
Definition buildHierarchy (features : list Feature)
  : JsObject.Completion (gmap string Hierarchy.Obj * list string) :=
  match Hierarchy.index features with
  | JsObject.Normal map => JsObject.Normal (map, roots features)
  | JsObject.Throw => JsObject.Throw
  end.

(** [searchHits?.includes(f.id)] *)
Definition includes (searchHits : option (list string)) (i : string) : bool :=
  match searchHits with
  | Some hits => bool_decide (i ∈ hits)
  | None => false
  end.

(** [renderTree(nodes, depth)]: the entries in document order.  Each level
    of the recursion uses one unit of [fuel]; [None] means that the
    rendering is not complete within the bound. *)
Fixpoint renderTree (fuel : nat) (map : gmap string Hierarchy.Obj)
    (searchHits : option (list string)) (nodes : list string) (depth : nat)
  : option (list Row) :=
  match fuel with
  | O => None
  | S fuel' =>
      @concat Row <$>
      mapM (λ key,
              match map !! key with
              | Some f =>
                  let row := mkRow (id (Hierarchy.feature f)) (depth * 14)
                                   (includes searchHits (id (Hierarchy.feature f))) in
                  match Hierarchy.children f with
                  | [] => Some [row]
                  | kids =>
                      cons row <$> renderTree fuel' map searchHits kids (S depth)
                  end
              | None => None
              end)
           nodes
  end.

(** The panel as rendered for a list of features: [buildHierarchy] runs
    first and may throw. *)
Definition panel (fuel : nat) (features : list Feature)
    (searchHits : option (list string))
  : JsObject.Completion (option (list Row)) :=
  match buildHierarchy features with
  | JsObject.Normal (map, roots) =>
      JsObject.Normal (renderTree fuel map searchHits roots 0)
  | JsObject.Throw => JsObject.Throw
  end.

(** [handleClick(feature)]: the query and the hits it stores. *)
Definition handleClick (model : Store.Model) (feature : Feature)
  : string * list string :=
  let q := Js.or_else (label feature) (id feature) in
  (q, Search.searchFeatures (Store.features model) (Some q)).

(** *** Specification-level notions *)

(** The entries of a tree of nodes, the root first and then the subtrees
    from left to right, each one level deeper. *)
Fixpoint rows_of (searchHits : option (list string)) (depth : nat)
    (t : D3.Node Feature) : list Row :=
  match t with
  | D3.mkNode f ts =>
      mkRow (id f) (depth * 14) (includes searchHits (id f))
      :: concat (rows_of searchHits (S depth) <$> ts)
  end.

End FeatureList.

(** ** GraphView: [wrapText] *)

Module WrapText.
Import JsNum.

(** [a < b] on numbers; a comparison with NaN is false. *)
Definition ltb (a b : num) : bool :=
  match a, b with
  | NaN, _ | _, NaN => false
  | Fin p, Fin q => if Qclt_le_dec p q then true else false
  | NInf, (Fin _ | PInf) => true
  | Fin _, PInf => true
  | _, _ => false
  end.

(** The loop of [s.split(/\s+/)]: [cur] is the piece being read and [gap]
    tells that the last character read was white space. *)
Fixpoint splitFrom (s : string) (cur : string) (gap : bool) : list string :=
  match s with
  | EmptyString => [cur]
  | String c s' =>
      if Search.is_space c then
        if gap then splitFrom s' cur true else cur :: splitFrom s' "" true
      else splitFrom s' (cur +:+ String c "") false
  end.

(** [s.split(/\s+/)]: the pieces between the runs of white space; a run at
    an end of the string leaves an empty piece there. *)
Definition split (s : string) : list string := splitFrom s "" false.

(** [line.join(" ")] *)
Fixpoint join (line : list string) : string :=
  match line with
  | [] => ""
  | [w] => w
  | w :: rest => w +:+ " " +:+ join rest
  end.

(** The [while ((word = words.pop()))] loop, over the words in reading
    order.  [lines] are the texts of the tspans that are complete,
    [currentLine] the words of the tspan being filled; the text of a tspan
    is its words joined by a space.  [measure] stands for
    [getComputedTextLength()] on a tspan with the given text. *)
Fixpoint wrapLoop (measure : string → num) (widthLimit : num)
    (words : list string) (lines : list (list string))
    (currentLine : list string) : list (list string) :=
  match words with
  | [] => lines ++ [currentLine]
  | word :: rest =>
      if Js.truthy_str word then
        if ltb widthLimit (measure (join (currentLine ++ [word]))) then
          wrapLoop measure widthLimit rest (lines ++ [currentLine]) [word]
        else
          wrapLoop measure widthLimit rest lines (currentLine ++ [word])
      else lines ++ [currentLine]
  end.

(** The words of each tspan of a label, from the first line to the last;
    [lineCount] is one less than their number. *)
Definition wrapText (measure : string → num) (widthLimit : num)
    (label : option string) : list (list string) :=
  wrapLoop measure widthLimit (split (Js.or_else label "")) [] [].

(** *** Specification-level notions *)

(** A word as [split] yields it between two runs of white space. *)
Fixpoint has_space (w : string) : bool :=
  match w with
  | EmptyString => false
  | String c w' => Search.is_space c || has_space w'
  end.

Definition Word (w : string) : Prop :=
  Js.truthy_str w = true ∧ has_space w = false.

(** The words the loop reads: those before the first empty one. *)
Fixpoint readable (words : list string) : list string :=
  match words with
  | [] => []
  | word :: rest => if Js.truthy_str word then word :: readable rest else []
  end.

(** A line holding a single word is never re-measured; a line of several
    words was measured when its last word was added. *)
Definition Fits (measure : string → num) (widthLimit : num)
    (line : list string) : Prop :=
  2 ≤ length line → ltb widthLimit (measure (join line)) = false.

(** Every line after the first starts with the word that did not fit at
    the end of the line before it. *)
Fixpoint Greedy (measure : string → num) (widthLimit : num)
    (lines : list (list string)) : Prop :=
  match lines with
  | line :: (next :: _) as rest =>
      (∃ word more, next = word :: more ∧
                    ltb widthLimit (measure (join (line ++ [word]))) = true) ∧
      Greedy measure widthLimit rest
  | _ => True
  end.

(** *** A sample measure: seven pixels a character *)

Definition sevenPerChar (s : string) : num :=
  ofQ (inject_Z (7 * Z.of_nat (String.length s))).

End WrapText.

(** ** GraphView: [drawLinks], [drawNodes] and the view size *)

Module Draw.
Import JsNum.

(** [rootNode.links()]: one link for every node but the root, in the order
    of the node iterator; a link is named by its target. *)
Definition links {A} (rootNode : D3.Node A) : list D3.path :=
  filter (λ p, p ≠ []) (D3.descendants rootNode).

(** The strokes that [drawNodes] and [drawLinks] set: a white outline of
    width 2 on every circle and a grey stroke on every link. *)
Definition drawing {A} (rootNode : D3.Node A) : Highlights.Drawing :=
  Highlights.mkDrawing
    (list_to_map ((λ p, (p, ("#fff", 2))) <$> D3.descendants rootNode))
    (list_to_map ((λ p, (p, "#bbb")) <$> links rootNode)).

(** The [dblclick] handler of a circle: the query and the hits it stores. *)
Definition dblclick (model : Store.Model) (node : D3.Node Feature)
  : string * list string :=
  let query := Js.or_else (label (D3.data node)) (id (D3.data node)) in
  (query, Search.searchFeatures (Store.features model) (Some query)).

(** One round of [d3.extent]: [undefined] and [NaN] are passed over until a
    first value is found, then the bounds are widened by comparison. *)
Definition extentStep (acc : option (num * num)) (value : num)
  : option (num * num) :=
  match acc with
  | None => match value with NaN => None | _ => Some (value, value) end
  | Some (lo, hi) =>
      Some (if WrapText.ltb value lo then value else lo,
            if WrapText.ltb hi value then value else hi)
  end.

(** [d3.extent(values)]; [None] stands for [[undefined, undefined]]. *)
Definition extent (values : list num) : option (num * num) :=
  foldl extentStep None values.

(** [extent[1] - extent[0]] *)
Definition span (e : option (num * num)) : num :=
  match e with
  | Some (lo, hi) => sub hi lo
  | None => NaN
  end.

(** The data of [rootNode.descendants()]. *)
Definition nodes {A} (rootNode : D3.Node A) : list A :=
  omap (λ p, D3.data <$> D3.node_at rootNode p) (D3.descendants rootNode).

(** [viewWidth] and [viewHeight] with the margins
    [{ top: 100, right: 200, bottom: 200, left: 200 }]. *)
Definition viewWidth (rootNode : D3.Node Overlay.Placed) : num :=
  add (add (span (extent (Overlay.x <$> nodes rootNode))) (ofQ 200)) (ofQ 200).

Definition viewHeight (rootNode : D3.Node Overlay.Placed) : num :=
  add (add (span (extent (Overlay.y <$> nodes rootNode))) (ofQ 100)) (ofQ 200).

(** *** Specification-level notions *)

(** [p] is a matched node, lies above one or lies below one. *)
Definition Related (ids : list string) (rootNode : D3.Node Feature)
    (p : D3.path) : Prop :=
  ∃ m, Highlights.Matched ids rootNode m ∧
       (Highlights.AncestorOrSelf p m ∨ Highlights.AncestorOrSelf m p).

End Draw.

(** * Properties *)

(** ** JavaScript truthiness *)

Section JsFacts.

Lemma truthy_str_true s : Js.truthy_str s = true ↔ s ≠ "".
Proof. destruct s; simpl; split; congruence. Qed.

Lemma truthy_str_false s : Js.truthy_str s = false ↔ s = "".
Proof. destruct s; simpl; split; congruence. Qed.

Lemma truthy_Some v : Js.truthy v = true ↔ ∃ s, v = Some s ∧ s ≠ "".
Proof.
  destruct v as [s|]; simpl.
  - rewrite truthy_str_true. split; [eauto | intros (? & [= ->] & ?); done].
  - split; [done | intros (? & ? & _); done].
Qed.

Lemma truthy_false v : Js.truthy v = false ↔ v = None ∨ v = Some "".
Proof.
  destruct v as [[|c s]|]; simpl; split; try done; eauto.
  intros [?|?]; done.
Qed.

End JsFacts.

(** ** Search *)

Section SearchFacts.
Import Search.

Lemma append_cons c s t : String c s +:+ t = String c (s +:+ t).
Proof. reflexivity. Qed.

Lemma append_empty_l s : "" +:+ s = s.
Proof. reflexivity. Qed.

Lemma startsWith_spec s q : startsWith s q = true ↔ ∃ post, s = q +:+ post.
Proof.
  revert s. induction q as [|a q IH]; intros s; simpl.
  - split; [eauto | by destruct s].
  - destruct s as [|b s]; simpl.
    + split; [done | intros [post H]; done].
    + destruct (Ascii.eqb_spec a b) as [->|Hne].
      * rewrite IH. split; intros [post H]; exists post;
          rewrite append_cons in *; congruence.
      * split; [done | intros [post H]; rewrite append_cons in H; congruence].
Qed.

Lemma includes_unfold s q :
  includes s q =
  startsWith s q || match s with EmptyString => false | String _ s' => includes s' q end.
Proof. by destruct s. Qed.

Lemma includes_spec s q : includes s q = true ↔ Substring q s.
Proof.
  unfold Substring. induction s as [|c s IH]; rewrite includes_unfold.
  - rewrite orb_false_r, startsWith_spec. split.
    + intros [post H]. by exists "", post.
    + intros (pre & post & H). destruct pre; [eauto | done].
  - rewrite orb_true_iff, IH, startsWith_spec. split.
    + intros [[post H] | (pre & post & H)].
      * by exists "", post.
      * exists (String c pre), post. rewrite append_cons. by rewrite H.
    + intros (pre & post & H). destruct pre as [|c' pre].
      * left. eauto.
      * right. exists pre, post. rewrite append_cons in H. congruence.
Qed.

Lemma trimStart_spec s :
  ∃ ws, s = ws +:+ trimStart s ∧ all_space ws = true ∧
        (∀ c, first_char (trimStart s) = Some c → is_space c = false).
Proof.
  induction s as [|c s (ws & Hs & Hws & Hfirst)]; simpl.
  - exists "". by repeat split.
  - destruct (is_space c) eqn:Hc.
    + exists (String c ws). rewrite append_cons. simpl. rewrite Hc, Hws.
      repeat split; [congruence | done].
    + exists "". simpl. repeat split. intros ? [= <-]. done.
Qed.

Lemma append_empty_r s : s +:+ "" = s.
Proof. induction s; [done|]. rewrite append_cons. congruence. Qed.

Lemma trimEnd_spec s :
  ∃ ws, s = trimEnd s +:+ ws ∧ all_space ws = true ∧
        (∀ c, last_char (trimEnd s) = Some c → is_space c = false) ∧
        first_char (trimEnd s) = (if all_space s then None else first_char s).
Proof.
  induction s as [|c s (ws & Hs & Hws & Hlast & Hfirst)]; simpl.
  - exists "". by repeat split.
  - destruct (trimEnd s) as [|d r] eqn:Hr.
    + rewrite append_empty_l in Hs. subst ws. rewrite Hws in *.
      destruct (is_space c) eqn:Hc; simpl.
      * exists (String c s). simpl. rewrite Hc. by repeat split.
      * exists s. repeat split; try done. intros ? [= <-]. done.
    + exists ws. rewrite append_cons, <- Hs. simpl in *.
      destruct (all_space s); [done|]. rewrite andb_false_r. by repeat split.
Qed.

(** [trim] removes a block of white space at each end and nothing else. *)
Lemma trim_spec s :
  ∃ ws1 ws2, s = ws1 +:+ trim s +:+ ws2 ∧
    all_space ws1 = true ∧ all_space ws2 = true ∧
    (∀ c, first_char (trim s) = Some c → is_space c = false) ∧
    (∀ c, last_char (trim s) = Some c → is_space c = false).
Proof.
  unfold trim.
  destruct (trimStart_spec s) as (ws1 & Hs & H1 & Hfirst).
  destruct (trimEnd_spec (trimStart s)) as (ws2 & Ht & H2 & Hlast & Hf).
  exists ws1, ws2. rewrite <- Ht. repeat split; try done.
  intros c. rewrite Hf. destruct (all_space (trimStart s)); [done | apply Hfirst].
Qed.

Lemma is_space_lower_char c : is_space (lower_char c) = is_space c.
Proof. destruct c as [[] [] [] [] [] [] [] []]; reflexivity. Qed.

Lemma lower_char_idemp c : lower_char (lower_char c) = lower_char c.
Proof. destruct c as [[] [] [] [] [] [] [] []]; reflexivity. Qed.

Lemma toLowerCase_idemp s : toLowerCase (toLowerCase s) = toLowerCase s.
Proof. induction s; simpl; [done|]. by rewrite lower_char_idemp, IHs. Qed.

Lemma toLowerCase_trimStart s :
  toLowerCase (trimStart s) = trimStart (toLowerCase s).
Proof.
  induction s as [|c s IH]; simpl; [done|].
  rewrite is_space_lower_char. by destruct (is_space c).
Qed.

Lemma toLowerCase_trimEnd s :
  toLowerCase (trimEnd s) = trimEnd (toLowerCase s).
Proof.
  induction s as [|c s IH]; simpl; [done|].
  rewrite <- IH, is_space_lower_char.
  destruct (trimEnd s); simpl; [by destruct (is_space c) | done].
Qed.

Lemma toLowerCase_trim s : toLowerCase (trim s) = trim (toLowerCase s).
Proof. unfold trim. by rewrite toLowerCase_trimEnd, toLowerCase_trimStart. Qed.


Lemma Selects_unique {A} (P : A → Prop) l l1 l2 :
  Selects P l l1 → Selects P l l2 → l1 = l2.
Proof.
  intros H1. revert l2. induction H1; intros l2 H2; inversion H2; subst;
    try done; f_equal; eauto.
Qed.

Lemma normalize_lower keyword :
  normalize (toLowerCase <$> keyword) = normalize keyword.
Proof.
  unfold normalize. destruct keyword as [k|]; simpl; [|done].
  destruct k as [|c k]; simpl; [done|].
  change (String (lower_char c) (toLowerCase k)) with (toLowerCase (String c k)).
  by rewrite <- toLowerCase_trim, toLowerCase_idemp.
Qed.











Lemma lower_trim_empty s : toLowerCase (trim s) = "" ↔ trim s = "".
Proof. by destruct (trim s). Qed.



Example search_empty_list : searchFeatures [] (Some "x") = [].
Proof. reflexivity. Qed.

Example search_empty_query :
  searchFeatures [mkFeature "a" (Some "Hello") "mandatory" None] (Some "") = [].
Proof. reflexivity. Qed.

Example search_blank_query :
  searchFeatures [mkFeature "a" (Some "Hello") "mandatory" None] (Some "  ") = [].
Proof. reflexivity. Qed.

Example search_case_insensitive :
  searchFeatures [mkFeature "a" (Some "Hello") "mandatory" None] (Some "HELLO") = ["a"].
Proof. reflexivity. Qed.

Example search_id_fallback :
  searchFeatures [mkFeature "Engine" None "optional" None;
                  mkFeature "b" (Some "") "optional" (Some "Engine");
                  mkFeature "gin" (Some "Tonic") "optional" None] (Some " GIN ")
  = ["Engine"].
Proof. reflexivity. Qed.


End SearchFacts.

(** ** Path to the root *)

Section PathToRootFacts.
Import PathToRoot.
Context (m : gmap string (option string)).

(** The loop returns the reversed chain appended to what was pushed. *)
Lemma walk_Chain c l path fuel :
  Chain m c l → length l < fuel →
  walk fuel m (Some c) path = Some (rev (path ++ l)).
Proof.
  intros Hc. revert path fuel.
  induction Hc as [c Ht Hm | c v Ht Hm Hv | c p l Ht Hm Hp Hl IH];
    intros path fuel Hfuel; simpl in Hfuel.
  - destruct fuel as [|fuel]; [lia|]. simpl. by rewrite Ht, Hm.
  - destruct fuel as [|[|fuel]]; [lia | lia |]. simpl. rewrite Ht, Hm.
    destruct v as [[|a s]|]; simpl in Hv; done.
  - destruct fuel as [|fuel]; [lia|]. simpl. rewrite Ht, Hm.
    rewrite IH by lia. by rewrite <- app_assoc.
Qed.

Lemma Chain_head c l : Chain m c l → ∃ l', l = c :: l'.
Proof. destruct 1; eauto. Qed.

Lemma Chain_follows c l x :
  Chain m c l → x ∈ l → rtc (follows m) c x.
Proof.
  induction 1 as [c Ht Hm | c v Ht Hm Hv | c p l Ht Hm Hp Hl IH].
  - intros ->%list_elem_of_singleton. done.
  - intros ->%list_elem_of_singleton. done.
  - intros [->|Hx]%elem_of_cons; [done|].
    eapply rtc_l; [|by apply IH]. by split.
Qed.

(** Existence of the chain, bounded by the keys not yet seen. *)
Lemma Chain_exists_bounded (t : string) (n : nat) :
  Acyclic_from m t →
  ∀ (seen : gset string) (c : string),
    Js.truthy_str c = true →
    rtc (follows m) t c →
    seen ⊆ dom m →
    (∀ s, s ∈ seen → tc (follows m) s c) →
    size (dom m ∖ seen) ≤ n →
    ∃ l, Chain m c l ∧ length l ≤ S n.
Proof.
  intros Hacyc. induction n as [|n IH]; intros seen c Ht Hreach Hsub Hseen Hsize.
  - destruct (m !! c) as [v|] eqn:Hm.
    + assert (c ∈ seen) as Hin.
      { destruct (decide (c ∈ seen)) as [|Hn]; [done|].
        assert (c ∈ dom m ∖ seen) as Hc by (apply elem_of_difference; split; [by apply elem_of_dom|done]).
        assert (size (dom m ∖ seen) = 0) as Hz by lia.
        apply size_empty_inv in Hz. set_solver. }
      destruct (Hacyc c Hreach (Hseen c Hin)).
    + exists [c]. split; [by constructor | simpl; lia].
  - destruct (m !! c) as [v|] eqn:Hm.
    + assert (c ∉ seen) as Hn.
      { intros Hin. destruct (Hacyc c Hreach (Hseen c Hin)). }
      destruct (Js.truthy v) eqn:Hv.
      * apply truthy_Some in Hv as (p & -> & Hp).
        apply truthy_str_true in Hp.
        assert (follows m c p) as Hstep by done.
        destruct (IH ({[c]} ∪ seen) p) as (l & Hl & Hlen); try done.
        -- by eapply rtc_r.
        -- apply union_subseteq. split; [|done].
           apply singleton_subseteq_l, elem_of_dom. eauto.
        -- intros s [->%elem_of_singleton|Hs]%elem_of_union.
           ++ by apply tc_once.
           ++ eapply tc_r; eauto.
        -- assert (dom m ∖ seen ≡ {[c]} ∪ (dom m ∖ ({[c]} ∪ seen))) as Heq.
           { apply set_equiv. intros x. rewrite elem_of_union, !elem_of_difference, elem_of_union, elem_of_singleton.
             split.
             - intros [? ?]. destruct (decide (x = c)); [by left|right]. split; [done|]. intros [?|?]; done.
             - intros [->|[? Hx]]; [split; [apply elem_of_dom; eauto | done]|]. split; [done|]. intros ?. apply Hx. by right. }
           rewrite Heq, size_union, size_singleton in Hsize; [lia|].
           set_solver.
        -- exists (c :: l). split; [by apply chain_parent with p | simpl; lia].
      * exists [c]. split; [by eapply chain_orphan | simpl; lia].
    + exists [c]. split; [by constructor | simpl; lia].
Qed.

Lemma Chain_exists (t : string) :
  Acyclic_from m t → Js.truthy_str t = true →
  ∃ l, Chain m t l ∧ length l ≤ S (size m).
Proof.
  intros Hacyc Ht.
  apply (Chain_exists_bounded t (size m) Hacyc ∅ t); try done.
  rewrite difference_empty_L, size_dom. done.
Qed.

Lemma Chain_unique c l1 l2 : Chain m c l1 → Chain m c l2 → l1 = l2.
Proof.
  intros H1. revert l2.
  induction H1 as [c Ht Hm | c v Ht Hm Hv | c p l Ht Hm Hp Hl IH];
    intros l2 H2; inversion H2; subst; try congruence.
  - assert (v = Some p) as -> by congruence. simpl in Hv. congruence.
  - assert (v = Some p) as -> by congruence. simpl in *. congruence.
  - assert (p0 = p) as -> by congruence. f_equal. eauto.
Qed.

Lemma follows_functional c p q : follows m c p → follows m c q → p = q.
Proof. intros [_ H1] [_ H2]. congruence. Qed.

Lemma walk_more_fuel fuel fuel' cur path r :
  walk fuel m cur path = Some r → fuel ≤ fuel' → walk fuel' m cur path = Some r.
Proof.
  revert fuel' cur path. induction fuel as [|fuel IH]; intros fuel' cur path; [done|].
  destruct fuel' as [|fuel']; [lia|]. simpl.
  destruct cur as [c|]; [|done]. destruct (Js.truthy_str c); [|done].
  destruct (m !! c); [|done]. intros H ?. apply IH; [done | lia].
Qed.

(** A loop that ends has walked a chain. *)
Lemma walk_Some_Chain fuel c path r :
  Js.truthy_str c = true →
  walk fuel m (Some c) path = Some r → ∃ l, Chain m c l.
Proof.
  revert c path. induction fuel as [|fuel IH]; intros c path Ht; [done|].
  simpl. rewrite Ht. destruct (m !! c) as [v|] eqn:Hm.
  - destruct (Js.truthy v) eqn:Hv.
    + apply truthy_Some in Hv as (p & -> & Hp%truthy_str_true).
      intros (l & Hl)%IH; [|done]. exists (c :: l). by apply chain_parent with p.
    + intros _. exists [c]. by apply chain_orphan with v.
  - intros _. exists [c]. by constructor.
Qed.

Lemma tc_first x z : tc (follows m) x z → ∃ y, follows m x y ∧ rtc (follows m) y z.
Proof.
  destruct 1 as [x z H | x y z H Hyz]; [by exists z|].
  exists y. split; [done | by apply tc_rtc].
Qed.

Lemma stuck_rtc x z : (∀ y, ¬ follows m x y) → rtc (follows m) x z → z = x.
Proof. intros Hx [->|(y & Hy & _)]%rtc_inv; [done | by destruct (Hx y)]. Qed.

Lemma stuck_empty y : ¬ follows m "" y.
Proof. by intros [? _]. Qed.

Lemma Chain_Acyclic c l : Chain m c l → Acyclic_from m c.
Proof.
  induction 1 as [c Ht Hm | c v Ht Hm Hv | c p l Ht Hm Hp Hl IH].
  - assert (∀ y, ¬ follows m c y) as Hstuck by (intros y [_ Hy]; congruence).
    intros x ->%stuck_rtc (y & Hy & _)%tc_first; [|done]. by destruct (Hstuck y).
  - assert (∀ y, follows m c y → y = "") as Honly.
    { intros y [_ Hy]. rewrite Hm in Hy. injection Hy as ->.
      by apply truthy_str_false. }
    intros x Hx (y & Hy & Hback)%tc_first.
    apply rtc_inv in Hx as [->|(z & Hz & Hx)].
    + apply Honly in Hy as ->.
      apply stuck_rtc in Hback as ->; [done | apply stuck_empty].
    + apply Honly in Hz as ->.
      apply stuck_rtc in Hx as ->; [|apply stuck_empty]. by destruct (stuck_empty y).
  - assert (follows m c p) as Hcp by done.
    intros x Hx Hcyc.
    apply rtc_inv in Hx as [<-|(z & Hz & Hx)].
    + destruct (tc_first _ _ Hcyc) as (y & Hy & Hback).
      rewrite (follows_functional _ _ _ Hy Hcp) in Hback.
      by apply (IH c Hback).
    + rewrite (follows_functional _ _ _ Hz Hcp) in Hx. by apply (IH x Hx).
Qed.

(** The loop ends exactly when the chain from the target has no cycle. *)
Lemma walk_cyclic_diverges t fuel :
  Js.truthy_str t = true → ¬ Acyclic_from m t →
  pathToRoot fuel (Some t) m = None.
Proof.
  intros Ht Hcyc. unfold pathToRoot.
  destruct (walk fuel m (Some t) []) as [r|] eqn:Hw; [|done].
  destruct (walk_Some_Chain _ _ _ _ Ht Hw) as [l Hl].
  destruct Hcyc. by eapply Chain_Acyclic.
Qed.

(** Claim C10. When the chain of parent pointers that starts at a
    (non-empty) target id has no cycle, [pathToRoot] terminates: with any
    budget above the size of the map plus one the loop ends, and the
    result is the chain of the target and its ancestors in reverse, that
    is root first, with the target id as its last element. *)
Theorem pathToRoot_acyclic (targetId : string) :
  Js.truthy_str targetId = true →
  Acyclic_from m targetId →
  ∃ chain,
    Chain m targetId chain ∧
    last (rev chain) = Some targetId ∧
    ∀ fuel, S (size m) < fuel →
      pathToRoot fuel (Some targetId) m = Some (rev chain).
Proof.
  intros Ht Hacyc.
  destruct (Chain_exists targetId Hacyc Ht) as (l & Hl & Hlen).
  exists l. split; [done|]. split.
  - destruct (Chain_head _ _ Hl) as [l' ->]. simpl. by rewrite last_snoc.
  - intros fuel Hfuel. unfold pathToRoot.
    rewrite (walk_Chain _ _ [] fuel Hl) by lia. done.
Qed.

End PathToRootFacts.

Section PathToRootExamples.
Import PathToRoot.

Example pathToRoot_family :
pathToRoot 5 (Some "leaf") family = Some ["top"; "mid"; "leaf"].
Proof. vm_compute. reflexivity. Qed.

Example pathToRoot_unknown :
pathToRoot 5 (Some "ghost") family = Some ["ghost"].
Proof. vm_compute. reflexivity. Qed.

Example pathToRoot_falsy fuel m : pathToRoot (S fuel) None m = Some [] ∧ pathToRoot (S fuel) (Some "") m = Some [].
Proof. done. Qed.

Example pathToRoot_ring fuel : pathToRoot fuel (Some "a") ring = None.
Proof.
apply walk_cyclic_diverges; [done|]. intros H. apply (H "a"); [done|].
eapply tc_l; [|apply tc_once]; split; done.
Qed.

Lemma pathToRoot_acyclic_witness :
∃ chain,
  Chain family "leaf" chain ∧
  last (rev chain) = Some "leaf" ∧
  ∀ fuel, S (size family) < fuel →
    pathToRoot fuel (Some "leaf") family = Some (rev chain).
Proof.
apply (pathToRoot_acyclic family "leaf").
- reflexivity.
- destruct (walk_Some_Chain family 5 "leaf" [] ["top"; "mid"; "leaf"]) as [l Hl];
    [reflexivity | vm_compute; reflexivity |].
  exact (Chain_Acyclic family "leaf" l Hl).
Defined.

End PathToRootExamples.

(** ** Building the hierarchy *)

Section HierarchyFacts.
Import Hierarchy.

(** *** The first pass *)

Lemma register_absent (m : gmap string Obj) fs k :
  k ∉ ids fs → foldl register m fs !! k = m !! k.
Proof.
  revert m. induction fs as [|f fs IH]; intros m Hk; [done|].
  unfold ids in Hk. rewrite fmap_cons, not_elem_of_cons in Hk. destruct Hk as [Hne Hk].
  simpl. rewrite IH by done. unfold register. by rewrite lookup_insert_ne.
Qed.

Lemma register_present (m : gmap string Obj) fs f :
  NoDup (ids fs) → f ∈ fs → foldl register m fs !! id f = Some (mkObj f []).
Proof.
  revert m. induction fs as [|f0 fs IH]; intros m Hnd Hf; [by apply elem_of_nil in Hf|].
  unfold ids in Hnd. rewrite fmap_cons, NoDup_cons in Hnd. destruct Hnd as [Hfresh Hnd].
  simpl. apply elem_of_cons in Hf as [->|Hf].
  - rewrite register_absent by done. unfold register. by rewrite lookup_insert_eq.
  - by apply IH.
Qed.

(** *** The second pass *)

Lemma kids_cons f fs k :
  kids (f :: fs) k =
  (if decide (parent f = Some k ∧ Js.truthy_str k = true) then [id f] else []) ++ kids fs k.
Proof. unfold kids. rewrite filter_cons. by case_decide. Qed.

Lemma link_lookup (m : gmap string Obj) f k :
  link m f !! k =
  (λ o, mkObj (feature o)
          (children o ++ if decide (parent f = Some k ∧ Js.truthy_str k = true)
                         then [id f] else [])) <$> m !! k.
Proof.
  assert (∀ o : option Obj, (λ o, mkObj (feature o) (children o ++ [])) <$> o = o) as Hid.
  { intros [[d c]|]; simpl; [by rewrite app_nil_r | done]. }
  unfold link. destruct (parent f) as [p|] eqn:Hp.
  - destruct (Js.truthy_str p) eqn:Ht.
    + destruct (decide (p = k)) as [->|Hne].
      * rewrite decide_True by done.
        destruct (m !! k) as [o|] eqn:Hm; [|by rewrite Hm].
        by rewrite lookup_insert_eq.
      * rewrite decide_False by (intros [[= ?] _]; done). rewrite Hid.
        destruct (m !! p); [by rewrite lookup_insert_ne | done].
    + rewrite decide_False; [by rewrite Hid|]. intros [[= ->] ?]. congruence.
  - rewrite decide_False by (intros [? _]; done). by rewrite Hid.
Qed.

Lemma link_all_lookup (m : gmap string Obj) fs k :
  foldl link m fs !! k =
  (λ o, mkObj (feature o) (children o ++ kids fs k)) <$> m !! k.
Proof.
  revert m. induction fs as [|f fs IH]; intros m; simpl.
  - destruct (m !! k) as [[d c]|]; simpl; [by rewrite app_nil_r | done].
  - rewrite IH, link_lookup, kids_cons.
    destruct (m !! k) as [o|]; simpl; [|done]. by rewrite app_assoc.
Qed.

(** *** The finished index *)

Lemma objects_present fs f :
  NoDup (ids fs) → f ∈ fs → objects fs !! id f = Some (mkObj f (kids fs (id f))).
Proof.
  intros Hnd Hf. unfold objects.
  by rewrite link_all_lookup, register_present.
Qed.

Lemma objects_absent fs k : k ∉ ids fs → objects fs !! k = None.
Proof.
  intros Hk. unfold objects. by rewrite link_all_lookup, register_absent.
Qed.

Lemma ids_elem fs k : k ∈ ids fs ↔ ∃ f, f ∈ fs ∧ id f = k.
Proof. unfold ids. rewrite list_elem_of_fmap. naive_solver. Qed.

Lemma same_id fs f g :
  NoDup (ids fs) → f ∈ fs → g ∈ fs → id f = id g → f = g.
Proof.
  induction fs as [|f0 fs IH]; intros Hnd Hf Hg Heq; [by apply elem_of_nil in Hf|].
  unfold ids in Hnd. rewrite fmap_cons, NoDup_cons in Hnd. destruct Hnd as [Hfresh Hnd].
  apply elem_of_cons in Hf as [->|Hf]; apply elem_of_cons in Hg as [->|Hg]; try done.
  - destruct Hfresh. apply ids_elem. eauto.
  - destruct Hfresh. apply ids_elem. eauto.
  - by apply IH.
Qed.

(** *** Children *)

Lemma kids_Child fs c k : k ∈ ids fs → c ∈ kids fs k → Child fs c k.
Proof.
  intros Hk. unfold kids. rewrite list_elem_of_fmap.
  intros (f & -> & Hf). apply list_elem_of_filter in Hf as [[Hp Ht] Hf].
  by exists f.
Qed.

Lemma kids_ids fs c k : c ∈ kids fs k → c ∈ ids fs.
Proof.
  unfold kids. rewrite list_elem_of_fmap.
  intros (f & -> & Hf). apply list_elem_of_filter in Hf as [_ Hf].
  apply ids_elem. eauto.
Qed.

Lemma Child_functional fs c k k' :
  NoDup (ids fs) → Child fs c k → Child fs c k' → k = k'.
Proof.
  intros Hnd (f & Hf & Hid & Hp & _) (g & Hg & Hid' & Hp' & _).
  assert (f = g) as -> by (eapply same_id; eauto; congruence). congruence.
Qed.

Lemma Parentless_top fs r :
  NoDup (ids fs) → r ∈ fs → Parentless r → ∀ p, ¬ Child fs (id r) p.
Proof.
  intros Hnd Hr Hpl p (f & Hf & Hid & Hp & Ht & _).
  assert (f = r) as -> by (eapply same_id; eauto).
  unfold Parentless in Hpl. rewrite Hp in Hpl. simpl in Hpl. congruence.
Qed.

(** *** Chains of parents *)

Lemma UpChain_head fs c l : UpChain fs c l → ∃ l', l = c :: l'.
Proof. destruct 1; eauto. Qed.

Lemma UpChain_unique fs c l1 l2 :
  NoDup (ids fs) → UpChain fs c l1 → UpChain fs c l2 → l1 = l2.
Proof.
  intros Hnd H1. revert l2.
  induction H1 as [c Htop | c p l Hc Hl IH]; intros l2 H2; inversion H2; subst.
  - done.
  - by destruct (Htop p).
  - by destruct (H p).
  - rewrite (Child_functional _ _ _ _ Hnd H Hc) in *. f_equal. by apply IH.
Qed.

Lemma UpChain_suffix fs c l x :
  UpChain fs c l → x ∈ l → ∃ l', UpChain fs x l' ∧ length l' ≤ length l.
Proof.
  induction 1 as [c Htop | c p l Hc Hl IH].
  - intros ->%list_elem_of_singleton. exists [c]. split; [by constructor | done].
  - intros [->|Hx]%elem_of_cons.
    + exists (c :: l). split; [by apply up_step with p | done].
    + destruct (IH Hx) as (l' & Hl' & Hlen). exists l'. split; [done | simpl; lia].
Qed.

Lemma UpChain_NoDup fs c l : NoDup (ids fs) → UpChain fs c l → NoDup l.
Proof.
  intros Hnd. induction 1 as [c Htop | c p l Hc Hl IH].
  - apply NoDup_singleton.
  - apply NoDup_cons. split; [|done]. intros Hin.
    destruct (UpChain_suffix _ _ _ _ Hl Hin) as (l' & Hl' & Hlen).
    assert (l' = c :: l) as ->.
    { eapply UpChain_unique; [done | done | by apply up_step with p]. }
    simpl in Hlen. lia.
Qed.

Lemma UpChain_ids fs c l x : UpChain fs c l → c ∈ ids fs → x ∈ l → x ∈ ids fs.
Proof.
  induction 1 as [c Htop | c p l Hc Hl IH]; intros Hcin.
  - by intros ->%list_elem_of_singleton.
  - intros [->|Hx]%elem_of_cons; [done|]. apply IH; [|done].
    by destruct Hc as (_ & _ & _ & _ & _ & ?).
Qed.

Lemma UpChain_length fs c l :
  NoDup (ids fs) → c ∈ ids fs → UpChain fs c l → length l ≤ length fs.
Proof.
  intros Hnd Hc Hl.
  replace (length fs) with (length (ids fs)) by (unfold ids; apply length_fmap).
  apply submseteq_length, NoDup_submseteq; [by eapply UpChain_NoDup|].
  intros x Hx. by eapply UpChain_ids.
Qed.

(** *** Unfolding the objects into a tree *)

Lemma hierarchy_total fs fuel k l :
  NoDup (ids fs) → UpChain fs k l → k ∈ ids fs →
  length fs < length l + fuel →
  is_Some (hierarchy fuel (objects fs) k).
Proof.
  intros Hnd. revert k l. induction fuel as [|fuel IH]; intros k l Hl Hk Hlen.
  - pose proof (UpChain_length _ _ _ Hnd Hk Hl). lia.
  - simpl. apply ids_elem in Hk as (f & Hf & <-).
    rewrite (objects_present _ _ Hnd Hf). simpl.
    assert (id f ∈ ids fs) as Hin by (apply ids_elem; eauto).
    destruct (mapM_is_Some_2 (hierarchy fuel (objects fs)) (kids fs (id f))) as [ts Hts].
    + apply Forall_forall. intros c Hc. simpl.
      apply (IH c (c :: l)).
      * apply up_step with (id f); [by apply kids_Child | done].
      * by eapply kids_ids.
      * simpl. lia.
    + rewrite Hts. eauto.
Qed.

Lemma hierarchy_more_fuel (m : gmap string Obj) fuel fuel' k t :
  hierarchy fuel m k = Some t → fuel ≤ fuel' → hierarchy fuel' m k = Some t.
Proof.
  revert fuel' k t. induction fuel as [|fuel IH]; intros fuel' k t; [done|].
  destruct fuel' as [|fuel']; [lia|]. simpl.
  destruct (m !! k) as [o|]; [|done].
  destruct (mapM (hierarchy fuel m) (children o)) as [ts|] eqn:Hts; [|done].
  intros [= <-] Hle.
  assert (mapM (hierarchy fuel' m) (children o) = Some ts) as ->; [|done].
  apply mapM_Some. apply mapM_Some in Hts.
  eapply Forall2_impl; [exact Hts|]. intros c t' Hc. apply IH; [done | lia].
Qed.

Lemma hierarchy_root fs fuel f t :
  NoDup (ids fs) → f ∈ fs →
  hierarchy fuel (objects fs) (id f) = Some t → D3.data t = f.
Proof.
  intros Hnd Hf. destruct fuel as [|fuel]; [done|]. simpl.
  rewrite (objects_present _ _ Hnd Hf). simpl.
  destruct (mapM _ _); [|done]. by intros [= <-].
Qed.

Lemma register_lookup_inv (m : gmap string Obj) fs k o :
  foldl register m fs !! k = Some o →
  m !! k = Some o ∨ ∃ f, f ∈ fs ∧ id f = k ∧ o = mkObj f [].
Proof.
  revert m. induction fs as [|f fs IH]; intros m; simpl; [by left|].
  intros [Hm|(g & Hg & Hid & Ho)]%IH.
  - unfold register in Hm. apply lookup_insert_Some in Hm as [[<- <-]|[_ Hm]].
    + right. exists f. split; [apply elem_of_cons; by left | done].
    + by left.
  - right. exists g. split; [apply elem_of_cons; by right | done].
Qed.

Lemma objects_lookup_inv fs k o :
  objects fs !! k = Some o → ∃ f, f ∈ fs ∧ id f = k ∧ o = mkObj f (kids fs k).
Proof.
  unfold objects. rewrite link_all_lookup.
  destruct (foldl register ∅ fs !! k) as [o'|] eqn:Hr; [|done].
  apply register_lookup_inv in Hr as [Hr|(f & Hf & Hid & ->)]; [done|].
  simpl. intros [= <-]. by exists f.
Qed.

Lemma elem_of_concat {A} (x : A) (ls : list (list A)) :
  x ∈ concat ls ↔ ∃ l, l ∈ ls ∧ x ∈ l.
Proof.
  rewrite list_elem_of_In, in_concat. split; intros (l & Hl & Hx); exists l.
  - by rewrite !list_elem_of_In.
  - by rewrite <- !list_elem_of_In.
Qed.

Lemma labels_node (d : Feature) ts x :
  x ∈ labels (D3.mkNode d ts) ↔ x = id d ∨ ∃ t, t ∈ ts ∧ x ∈ labels t.
Proof.
  unfold labels. simpl. rewrite elem_of_cons, list_elem_of_fmap.
  split.
  - intros [->|(g & -> & Hg)]; [by left|]. right.
    apply elem_of_concat in Hg as (l & Hl & Hg).
    apply list_elem_of_fmap in Hl as (t & -> & Ht).
    exists t. split; [done|]. apply list_elem_of_fmap. eauto.
  - intros [->|(t & Ht & Hx)]; [by left|]. right.
    apply list_elem_of_fmap in Hx as (g & -> & Hg). exists g. split; [done|].
    apply elem_of_concat. exists (D3.nodes_data t). split; [|done].
    apply list_elem_of_fmap. eauto.
Qed.

(** Every node below the root of the unfolded tree is somebody's child. *)
Lemma hierarchy_labels fs fuel k t x :
  hierarchy fuel (objects fs) k = Some t → x ∈ labels t →
  x ∈ ids fs ∧ (x = k ∨ ∃ p, Child fs x p).
Proof.
  revert k t. induction fuel as [|fuel IH]; intros k t; [done|]. simpl.
  destruct (objects fs !! k) as [o|] eqn:Hk; [|done].
  apply objects_lookup_inv in Hk as (f & Hf & Hid & Ho). subst o. simpl.
  destruct (mapM _ _) as [ts|] eqn:Hts; [|done]. intros [= <-].
  assert (k ∈ ids fs) as Hin by (apply ids_elem; eauto).
  intros [->|(t & Ht & Hx)]%labels_node; [split; [by rewrite Hid | by left]|].
  apply mapM_Some in Hts.
  destruct (proj1 (list_elem_of_lookup _ _) Ht) as [i Hi].
  destruct (Forall2_lookup_r _ _ _ _ _ Hts Hi) as (c & Hc & Hct).
  destruct (IH _ _ Hct Hx) as [Hxin [->|Hchild]]; (split; [done|]); right; [|done].
  exists k. apply kids_Child; [done|]. apply list_elem_of_lookup. eauto.
Qed.

(** *** The selected root *)

Lemma rootFeature_first pre r post :
  Forall (λ f, ¬ Parentless f) pre → Parentless r →
  rootFeature (pre ++ r :: post) = Some r.
Proof.
  unfold rootFeature, Parentless. intros Hpre Hr.
  induction Hpre as [|f pre Hf _ IH]; simpl.
  - by rewrite Hr.
  - destruct (Js.truthy (parent f)); [done | by destruct Hf].
Qed.

Lemma rootFeature_Some fs r :
  rootFeature fs = Some r → r ∈ fs ∧ Parentless r.
Proof.
  unfold rootFeature, Parentless. intros [Hin Hr]%find_some.
  split; [by apply list_elem_of_In | by destruct (Js.truthy (parent r))].
Qed.

Lemma rootFeature_None fs :
  rootFeature fs = None ↔ ∀ f, f ∈ fs → ¬ Parentless f.
Proof.
  unfold rootFeature, Parentless. split.
  - intros Hnone f Hf%list_elem_of_In Hp.
    pose proof (find_none _ _ Hnone f Hf) as H. simpl in H. rewrite Hp in H. done.
  - intros Hall. induction fs as [|f fs IH]; [done|]. simpl.
    destruct (Js.truthy (parent f)) eqn:Hp; simpl.
    + apply IH. intros g Hg. apply Hall, elem_of_cons. by right.
    + destruct (Hall f); [apply elem_of_cons; by left | done].
Qed.

(** The build returns [null] exactly when no feature is parentless,
    whatever the ids are. *)
(** *** The second pass with the prototype chain *)

Lemma register_is_Some (m : gmap string Obj) fs k :
  k ∈ ids fs → is_Some (foldl register m fs !! k).
Proof.
  revert m. induction fs as [|f fs IH]; intros m Hk; [by apply elem_of_nil in Hk|].
  simpl. destruct (decide (k ∈ ids fs)) as [Hin|Hout]; [by apply IH|].
  unfold ids in Hk. rewrite fmap_cons in Hk. apply elem_of_cons in Hk as [->|Hk]; [|done].
  rewrite register_absent by done. unfold register. rewrite lookup_insert_eq. eauto.
Qed.

Lemma register_None fs k : foldl register ∅ fs !! k = None ↔ k ∉ ids fs.
Proof.
  split.
  - intros Hnone Hin. destruct (register_is_Some ∅ fs k Hin) as [o Ho]. congruence.
  - intros Hout. by rewrite register_absent.
Qed.

Lemma link_None (m : gmap string Obj) f k : link m f !! k = None ↔ m !! k = None.
Proof. rewrite link_lookup. by destruct (m !! k). Qed.

Lemma inherits_link (m : gmap string Obj) f k : inherits (link m f) k = inherits m k.
Proof.
  unfold inherits. rewrite link_lookup.
  by destruct (m !! "__proto__") as [[d c]|].
Qed.

Lemma attach_Normal (m m' : gmap string Obj) f :
  attach m f = JsObject.Normal m' → m' = link m f.
Proof.
  unfold attach, link, get. destruct (parent f) as [p|]; [|congruence].
  destruct (Js.truthy_str p); [|congruence].
  destruct (m !! p); [congruence|]. destruct (inherits m p); [done|congruence].
Qed.

Lemma attach_Throw (m : gmap string Obj) f :
  attach m f = JsObject.Throw ↔
  ∃ p, parent f = Some p ∧ Js.truthy_str p = true ∧
       m !! p = None ∧ inherits m p = true.
Proof.
  unfold attach, get. split.
  - destruct (parent f) as [p|]; [|done].
    destruct (Js.truthy_str p) eqn:Ht; [|done].
    destruct (m !! p) eqn:Hm; [done|]. destruct (inherits m p) eqn:Hi; [|done].
    intros _. by exists p.
  - intros (p & -> & -> & -> & ->). done.
Qed.

Lemma secondPass_Normal (m m' : gmap string Obj) fs :
  secondPass m fs = JsObject.Normal m' → m' = foldl link m fs.
Proof.
  revert m. induction fs as [|f fs IH]; intros m; simpl; [congruence|].
  destruct (attach m f) as [m1|] eqn:Ha; [|done].
  apply attach_Normal in Ha as ->. apply IH.
Qed.

Lemma secondPass_Throw (m : gmap string Obj) fs :
  secondPass m fs = JsObject.Throw ↔
  ∃ f p, f ∈ fs ∧ parent f = Some p ∧ Js.truthy_str p = true ∧
         m !! p = None ∧ inherits m p = true.
Proof.
  revert m. induction fs as [|f fs IH]; intros m; simpl.
  - split; [done|]. by intros (f & p & ?%elem_of_nil & _).
  - destruct (attach m f) as [m1|] eqn:Ha.
    + pose proof Ha as Hm1. apply attach_Normal in Hm1 as ->. rewrite IH. split.
      * intros (g & p & Hg & Hp & Ht & Hm & Hi).
        exists g, p. rewrite link_None in Hm. rewrite inherits_link in Hi.
        split; [by right|done].
      * intros (g & p & Hg & Hp & Ht & Hm & Hi).
        apply elem_of_cons in Hg as [->|Hg].
        -- assert (attach m f = JsObject.Throw) as Hthrow
             by (apply attach_Throw; by exists p).
           congruence.
        -- exists g, p. by rewrite link_None, inherits_link.
    + split; [|done]. intros _. apply attach_Throw in Ha as (p & Hp).
      exists f, p. split; [left|done].
Qed.

Lemma index_Normal fs (m : gmap string Obj) :
  index fs = JsObject.Normal m → m = objects fs.
Proof. apply secondPass_Normal. Qed.

Lemma index_Throw fs :
  index fs = JsObject.Throw ↔
  ∃ f p, f ∈ fs ∧ parent f = Some p ∧ Js.truthy_str p = true ∧
         p ∉ ids fs ∧ inherits (foldl register ∅ fs) p = true.
Proof.
  unfold index. rewrite secondPass_Throw.
  split; intros (f & p & Hf & Hp & Ht & Hm & Hi); exists f, p.
  - by rewrite <- register_None.
  - by rewrite register_None.
Qed.

Lemma prototypeMembers_truthy p :
  p ∈ JsObject.prototypeMembers → Js.truthy_str p = true.
Proof.
  assert (Forall (λ k, Js.truthy_str k = true) JsObject.prototypeMembers) as H
    by (repeat constructor).
  rewrite Forall_forall in H. apply H.
Qed.

Lemma inherits_plain fs p :
  "__proto__" ∉ ids fs →
  inherits (foldl register ∅ fs) p = bool_decide (p ∈ JsObject.prototypeMembers).
Proof.
  intros Hno. unfold inherits.
  by rewrite (proj2 (register_None fs "__proto__") Hno).
Qed.

(** Without an id ["__proto__"] the second pass throws exactly when a
    parent that is not an id names a member of [Object.prototype]. *)
Lemma index_Throw_iff fs :
  "__proto__" ∉ ids fs →
  index fs = JsObject.Throw ↔
  ∃ f p, f ∈ fs ∧ parent f = Some p ∧
         p ∈ JsObject.prototypeMembers ∧ p ∉ ids fs.
Proof.
  intros Hno. rewrite index_Throw. split.
  - intros (f & p & Hf & Hp & _ & Hout & Hi). exists f, p.
    rewrite inherits_plain in Hi by done. apply bool_decide_eq_true in Hi. done.
  - intros (f & p & Hf & Hp & Hmem & Hout). exists f, p.
    rewrite inherits_plain by done.
    split; [done|]. split; [done|]. split; [by apply prototypeMembers_truthy|].
    split; [done|]. by apply bool_decide_eq_true.
Qed.

Lemma index_Plain fs : Plain fs → index fs = JsObject.Normal (objects fs).
Proof.
  intros [Hno Hsafe]. destruct (index fs) as [m|] eqn:Hi.
  - by rewrite (index_Normal _ _ Hi).
  - apply index_Throw_iff in Hi as (f & p & Hf & Hp & Hmem & Hout); [|done].
    destruct Hout. by apply (Hsafe f p).
Qed.

Lemma buildHierarchy_objects fuel fs :
  index fs = JsObject.Normal (objects fs) →
  buildHierarchy fuel fs =
  match rootFeature fs with
  | Some r =>
      match hierarchy fuel (objects fs) (id r) with
      | Some t => ReturnsTree t
      | None => Unfinished
      end
  | None => ReturnsNull
  end.
Proof. intros Hi. unfold buildHierarchy. by rewrite Hi. Qed.

Lemma buildHierarchy_Throws fuel fs :
  buildHierarchy fuel fs = Throws ↔ index fs = JsObject.Throw.
Proof.
  unfold buildHierarchy. destruct (index fs) as [m|]; [|done].
  destruct (rootFeature fs) as [r|]; [|done].
  by destruct (hierarchy fuel m (id r)).
Qed.

Lemma buildHierarchy_null fs fuel :
  buildHierarchy fuel fs = ReturnsNull ↔
  index fs ≠ JsObject.Throw ∧ ∀ f, f ∈ fs → ¬ Parentless f.
Proof.
  rewrite <- rootFeature_None. unfold buildHierarchy.
  destruct (index fs) as [m|]; [|split; [done|by intros [? _]]].
  destruct (rootFeature fs) as [r|]; [|done].
  destruct (hierarchy _ _ _); split; try done; by intros [_ ?].
Qed.

(** With distinct ids the unfolding from a parentless feature is complete
    within a depth of the number of features. *)
Lemma hierarchy_from_root fs r :
  NoDup (ids fs) → r ∈ fs → Parentless r →
  ∃ t, ∀ fuel, length fs ≤ fuel → hierarchy fuel (objects fs) (id r) = Some t.
Proof.
  intros Hnd Hr Hpl.
  assert (id r ∈ ids fs) as Hin by (apply ids_elem; eauto).
  destruct (hierarchy_total fs (length fs) (id r) [id r] Hnd) as [t Ht].
  - constructor. by apply Parentless_top.
  - done.
  - simpl. lia.
  - exists t. intros fuel Hfuel. by eapply hierarchy_more_fuel.
Qed.

Lemma plainb_Plain fs : plainb fs = true → Plain fs.
Proof.
  unfold plainb, Plain. rewrite andb_true_iff, negb_true_iff, forallb_forall.
  intros [Hno Hall]. split; [by apply bool_decide_eq_false in Hno|].
  intros f p Hf Hp Hmem. apply list_elem_of_In in Hf. specialize (Hall f Hf).
  rewrite Hp in Hall. rewrite (bool_decide_eq_true_2 _ Hmem) in Hall.
  simpl in Hall. by apply bool_decide_eq_true in Hall.
Qed.

Lemma Plain_InheritedParent fs : Plain fs → ¬ InheritedParent fs.
Proof. intros [_ Hsafe] (f & p & Hf & Hp & Hmem & Hout). by apply Hout, (Hsafe f p). Qed.

Lemma index_regular fs :
  "__proto__" ∉ ids fs → ¬ InheritedParent fs →
  index fs = JsObject.Normal (objects fs).
Proof.
  intros Hno Hreg. destruct (index fs) as [m|] eqn:Hi.
  - by rewrite (index_Normal _ _ Hi).
  - destruct Hreg. by apply index_Throw_iff.
Qed.

(** Claim C7, where the code departs from it.  For a feature list without
    the id ["__proto__"]: [buildHierarchy] throws exactly when the parent
    of some feature is not an id of the list and names a member of
    [Object.prototype] (the guard [featureById[feature.parent]] finds the
    inherited member and [.children.push] fails on it); it returns [null]
    exactly when it does not throw and the list is empty or has no
    parentless feature; and with pairwise distinct ids and no such parent
    it returns, for every budget of at least the number of features, one
    and the same result, [null] or a tree made of features of the list, so
    that other dangling parents and further roots only make the tree
    smaller. *)
Theorem buildHierarchy_total (features : list Feature) :
  "__proto__" ∉ ids features →
  (∀ fuel, buildHierarchy fuel features = Throws ↔ InheritedParent features) ∧
  (∀ fuel, buildHierarchy fuel features = ReturnsNull ↔
           ¬ InheritedParent features ∧
           (features = [] ∨ ∀ f, f ∈ features → ¬ Parentless f)) ∧
  (NoDup (ids features) → ¬ InheritedParent features →
   ∃ r, (∀ fuel, length features ≤ fuel → buildHierarchy fuel features = r) ∧
        r ≠ Unfinished ∧ r ≠ Throws ∧
        (∀ t, r = ReturnsTree t → ∀ x, x ∈ labels t → x ∈ ids features)).
Proof.
  intros Hno. split; [|split].
  - intros fuel. by rewrite buildHierarchy_Throws, index_Throw_iff.
  - intros fuel. rewrite buildHierarchy_null, <- (index_Throw_iff _ Hno).
    split; intros [Hi Hnull]; (split; [done|]).
    + by right.
    + destruct Hnull as [->|?]; [by intros f ?%elem_of_nil | done].
  - intros Hnd Hreg. pose proof (index_regular _ Hno Hreg) as Hi.
    destruct (rootFeature features) as [r|] eqn:Hroot.
    + destruct (rootFeature_Some _ _ Hroot) as [Hr Hpl].
      destruct (hierarchy_from_root _ _ Hnd Hr Hpl) as [t Ht].
      exists (ReturnsTree t). split; [|split; [done|split; [done|]]].
      * intros fuel Hfuel. rewrite (buildHierarchy_objects _ _ Hi). by rewrite Hroot, Ht.
      * intros t' [= <-] x Hx.
        by destruct (hierarchy_labels _ _ _ _ _ (Ht _ (le_n _)) Hx).
    + exists ReturnsNull. split; [|split; [done|split; done]].
      intros fuel _. rewrite (buildHierarchy_objects _ _ Hi). by rewrite Hroot.
Qed.

(** Claim C1, as amended. For a feature list with pairwise distinct ids,
    none of them ["__proto__"], in which no dangling parent names a member
    of [Object.prototype], [buildHierarchy] takes as root the first feature
    in input order that has no parent.  A feature whose declared parent is
    not an id of the list is not eligible: like every parentless feature
    other than the selected one it is absent from the resulting tree. *)
Theorem buildHierarchy_root (features pre post : list Feature) (r : Feature) :
  NoDup (ids features) →
  Plain features →
  features = pre ++ r :: post →
  Forall (λ f, ¬ Parentless f) pre →
  Parentless r →
  ∃ t, (∀ fuel, length features ≤ fuel →
          buildHierarchy fuel features = ReturnsTree t) ∧
       D3.data t = r ∧
       ∀ g, g ∈ features → g ≠ r →
            Parentless g ∨ Dangling features g → id g ∉ labels t.
Proof.
  intros Hnd Hplain -> Hpre Hpl.
  assert (r ∈ pre ++ r :: post) as Hr.
  { apply elem_of_app. right. apply elem_of_cons. by left. }
  destruct (hierarchy_from_root _ _ Hnd Hr Hpl) as [t Ht].
  pose proof (Ht _ (le_n _)) as Ht0.
  exists t. split; [|split].
  - intros fuel Hfuel. rewrite (buildHierarchy_objects _ _ (index_Plain _ Hplain)).
    by rewrite rootFeature_first, Ht.
  - by eapply hierarchy_root.
  - intros g Hg Hne Hcand Hin.
    destruct (hierarchy_labels _ _ _ _ _ Ht0 Hin) as [_ [Heq|(p & f & Hf & Hid & Hp & Htr & Hpin)]].
    + apply Hne. by eapply same_id.
    + assert (f = g) as -> by (by eapply same_id).
      destruct Hcand as [Hg0|(q & Hq & _ & Hqn)].
      * unfold Parentless in Hg0. rewrite Hp in Hg0. simpl in Hg0. congruence.
      * congruence.
Qed.

(** With a repeated id the object graph can contain a loop, and then the
    unfolding never ends. *)
Lemma buildHierarchy_twins fuel : buildHierarchy fuel twins = Unfinished.
Proof.
  assert (index twins = JsObject.Normal (objects twins)) as Hi by (by vm_compute).
  rewrite (buildHierarchy_objects _ _ Hi).
  change (rootFeature twins) with (Some (mkFeature "r" None "mandatory" None)).
  cbn [id].
  assert (objects twins !! "r" = Some (mkObj (mkFeature "r" None "mandatory" (Some "r")) ["r"])) as Hr.
  { by vm_compute. }
  assert (hierarchy fuel (objects twins) "r" = None) as ->; [|done].
  induction fuel as [|fuel IH]; [done|]. simpl hierarchy. rewrite Hr. simpl.
  by rewrite IH.
Qed.

Example buildHierarchy_sample :
  ∃ t, buildHierarchy 7 sample = ReturnsTree t ∧
       labels t = ["root"; "a"; "e"; "b"].
Proof. eexists. split; vm_compute; reflexivity. Qed.

(** Claim C1 as stated fails: a feature with a dangling parent that comes
    first is not selected as the root. *)
Lemma buildHierarchy_root_counterexample :
  ¬ (∀ features f,
       spec_first_root_candidate features = Some f →
       ∃ fuel t, buildHierarchy fuel features = ReturnsTree t ∧ D3.data t = f).
Proof.
  intros H.
  destruct (H orphan_first (mkFeature "a" (Some "A") "optional" (Some "ghost")))
    as (fuel & t & Ht & Hd); [by vm_compute|].
  destruct fuel as [|fuel]; [done|].
  vm_compute in Ht. injection Ht as <-. done.
Qed.

Example buildHierarchy_orphan_first :
  buildHierarchy 2 orphan_first =
  ReturnsTree (D3.mkNode (mkFeature "b" (Some "B") "mandatory" None) []).
Proof. by vm_compute. Qed.

Example buildHierarchy_only_orphan fuel :
  spec_first_root_candidate only_orphan <> None ∧
  buildHierarchy fuel only_orphan = ReturnsNull.
Proof.
  split; [by vm_compute|]. apply buildHierarchy_null.
  split; [by vm_compute | by intros f ->%list_elem_of_singleton].
Qed.

(** A dangling parent that names an inherited member makes the second pass
    throw. *)
Example buildHierarchy_inherited_parent fuel :
  buildHierarchy fuel inherited_parent = Throws.
Proof. apply buildHierarchy_Throws. by vm_compute. Qed.

(** A feature with the id ["__proto__"] becomes the prototype of the
    dictionary: it is found under its id like any other, and its own
    properties are inherited by the dictionary. *)
Example buildHierarchy_proto_id :
  buildHierarchy 3 proto_id =
  ReturnsTree
    (D3.mkNode (mkFeature "__proto__" (Some "P") "mandatory" None)
       [D3.mkNode (mkFeature "b" (Some "B") "optional" (Some "__proto__")) []]).
Proof. by vm_compute. Qed.

Example buildHierarchy_proto_label fuel :
  buildHierarchy fuel proto_label = Throws.
Proof. apply buildHierarchy_Throws. by vm_compute. Qed.

(** The list [a; b] with ["constructor"] as the parent of [b] has distinct
    ids and throws; the sample model has distinct ids, a dangling parent
    and two roots, and gives a tree. *)
Lemma buildHierarchy_total_witness :
  buildHierarchy 2 inherited_parent = Throws ∧
  ∃ r, (∀ fuel, length sample ≤ fuel → buildHierarchy fuel sample = r) ∧
       r ≠ Unfinished ∧ r ≠ Throws.
Proof.
  split.
  - apply (buildHierarchy_total inherited_parent).
    + apply (bool_decide_unpack (_ ∉ _)). vm_compute. exact I.
    + exists (mkFeature "b" (Some "B") "optional" (Some "constructor")), "constructor".
      split; [apply list_elem_of_In; simpl; auto|]. split; [reflexivity|].
      split; apply (bool_decide_unpack _); vm_compute; exact I.
  - destruct (buildHierarchy_total sample) as (_ & _ & H).
    + apply (bool_decide_unpack (_ ∉ _)). vm_compute. exact I.
    + destruct H as (r & Hr & Hu & Ht & _).
      * apply (bool_decide_unpack (NoDup (ids sample))). vm_compute. exact I.
      * apply Plain_InheritedParent, plainb_Plain. vm_compute. reflexivity.
      * exists r. split; [exact Hr|]. split; [exact Hu|exact Ht].
Defined.

(** On the sample model the root is the first parentless feature; the
    dangling feature and the second parentless one are left out. *)
Lemma buildHierarchy_root_witness :
  ∃ t, buildHierarchy 7 sample = ReturnsTree t ∧
       D3.data t = mkFeature "root" (Some "Root") "mandatory" None ∧
       ("c" ∉ labels t) ∧ ("r2" ∉ labels t).
Proof.
  destruct (buildHierarchy_root sample [] (tail sample)
              (mkFeature "root" (Some "Root") "mandatory" None))
    as (t & Ht & Hroot & Hout).
  - apply (bool_decide_unpack (NoDup (ids sample))). vm_compute. exact I.
  - apply plainb_Plain. vm_compute. reflexivity.
  - reflexivity.
  - constructor.
  - reflexivity.
  - exists t. split; [apply Ht; simpl; lia|]. split; [exact Hroot|]. split.
    + apply (Hout (mkFeature "c" (Some "C") "optional" (Some "ghost"))).
      * apply list_elem_of_In. simpl. auto 10.
      * discriminate.
      * right. exists "ghost". split; [reflexivity|]. split; [reflexivity|].
        apply (bool_decide_unpack _). vm_compute. exact I.
    + apply (Hout (mkFeature "r2" (Some "Second root") "mandatory" None)).
      * apply list_elem_of_In. simpl. auto 10.
      * discriminate.
      * left. reflexivity.
Defined.

End HierarchyFacts.

(** ** The node tree *)

Section D3Facts.
Context {A : Type}.
Implicit Types (n : D3.Node A) (p : D3.path).

Lemma node_at_app n p q :
  D3.node_at n (p ++ q) = D3.node_at n p ≫= λ m, D3.node_at m q.
Proof.
  revert n. induction p as [|i p IH]; intros n; simpl; [done|].
  destruct (D3.children n !! i); [apply IH | done].
Qed.

Lemma node_at_prefix n p q :
  p `prefix_of` q → is_Some (D3.node_at n q) → is_Some (D3.node_at n p).
Proof.
  intros [k ->]. rewrite node_at_app.
  destruct (D3.node_at n p); [eauto | by intros [? ?]].
Qed.

Lemma level_elem d n p :
  p ∈ D3.level d n ↔ length p = d ∧ is_Some (D3.node_at n p).
Proof.
  revert n p. induction d as [|d IH]; intros n p; simpl.
  - rewrite list_elem_of_singleton. split.
    + intros ->. split; [done | by eexists].
    + intros [Hlen _]. by destruct p.
  - rewrite list_elem_of_In, in_concat. split.
    + intros (l & Hl%list_elem_of_In & Hp%list_elem_of_In).
      apply elem_of_lookup_imap in Hl as (i & c & -> & Hc).
      apply list_elem_of_fmap in Hp as (p' & -> & Hp'%IH).
      destruct Hp' as [<- Hsome]. simpl. by rewrite Hc.
    + intros [Hlen Hsome]. destruct p as [|i p']; [done|]. simpl in *.
      destruct (D3.children n !! i) as [c|] eqn:Hc; [|by destruct Hsome].
      exists (cons i <$> D3.level d c). rewrite <- !list_elem_of_In. split.
      * apply elem_of_lookup_imap. eauto.
      * apply list_elem_of_fmap. exists p'. split; [done|]. apply IH. split; [lia | done].
Qed.

Lemma height_child n c : c ∈ D3.children n → S (D3.height c) ≤ D3.height n.
Proof.
  destruct n as [d cs]. simpl. induction cs as [|c' cs IH]; simpl.
  - by intros ?%elem_of_nil.
  - intros [->|Hc]%elem_of_cons; [lia|]. specialize (IH Hc). lia.
Qed.

Lemma node_at_height n p : is_Some (D3.node_at n p) → length p ≤ D3.height n.
Proof.
  revert n. induction p as [|i p IH]; intros n; simpl; [lia|].
  destruct (D3.children n !! i) as [c|] eqn:Hc; [|by intros [? ?]].
  intros Hp%IH. apply list_elem_of_lookup_2, height_child in Hc. lia.
Qed.

(** [descendants] lists exactly the nodes of the tree. *)
Lemma descendants_elem n p :
  p ∈ D3.descendants n ↔ is_Some (D3.node_at n p).
Proof.
  unfold D3.descendants. rewrite list_elem_of_In, in_concat. split.
  - intros (l & Hl%list_elem_of_In & Hp%list_elem_of_In).
    apply list_elem_of_fmap in Hl as (d & -> & _).
    by apply level_elem in Hp as [_ ?].
  - intros Hp. exists (D3.level (length p) n). rewrite <- !list_elem_of_In. split.
    + apply list_elem_of_fmap. exists (length p). split; [done|].
      apply elem_of_seq. apply node_at_height in Hp. lia.
    + by apply level_elem.
Qed.

(** [ancestors] lists exactly the prefixes of the path. *)
Lemma ancestors_elem p a : a ∈ D3.ancestors p ↔ a `prefix_of` p.
Proof.
  unfold D3.ancestors. rewrite list_elem_of_fmap. split.
  - intros (k & -> & _). apply prefix_take.
  - intros [q ->]. exists (length a). split.
    + by rewrite take_app_length.
    + rewrite list_elem_of_In, <- in_rev, <- list_elem_of_In, elem_of_seq, length_app. lia.
Qed.

End D3Facts.

Section HighlightFacts.
Import Highlights.
Implicit Types (rootNode : D3.Node Feature) (p q : D3.path).

Lemma foldl_add_elem {B} (f : B → D3.path) (s : gset D3.path) (l : list B) x :
  x ∈ foldl (λ acc a, {[f a]} ∪ acc) s l ↔ x ∈ s ∨ ∃ a, a ∈ l ∧ x = f a.
Proof.
  revert s. induction l as [|b l IH]; intros s; simpl.
  - split; [by left | intros [?|(a & Ha%elem_of_nil & _)]; done].
  - rewrite IH, elem_of_union, elem_of_singleton. split.
    + intros [[->|?]|(a & Ha & ->)]; [right | by left | right].
      * exists b. split; [apply elem_of_cons; by left | done].
      * exists a. split; [apply elem_of_cons; by right | done].
    + intros [?|(a & [->|Ha]%elem_of_cons & ->)]; [left; by right | left; by left |].
      right. eauto.
Qed.

Lemma visit_elem highlighted rootNode related p x :
  x ∈ visit highlighted rootNode related p ↔
  x ∈ related ∨ Touches highlighted rootNode p x.
Proof.
  unfold visit, Touches.
  destruct (D3.node_at rootNode p) as [node|] eqn:Hp.
  - case_decide as Hid.
    + rewrite !foldl_add_elem, elem_of_union, elem_of_singleton. split.
      * intros [[[->|?]|(a & Ha%ancestors_elem & ->)]|(d & Hd%descendants_elem & ->)].
        -- right. exists node. by repeat split; [..|left].
        -- by left.
        -- right. exists node. repeat split; [done..|by left].
        -- right. exists node. repeat split; [done..|]. right.
           split; [by apply prefix_app_r|]. by rewrite node_at_app, Hp.
      * intros [?|(node' & [= <-] & _ & [Hx|[[d ->] Hx]])]; [left; left; by right|..].
        -- left. right. exists x. split; [by apply ancestors_elem | done].
        -- right. exists d. split; [|done]. apply descendants_elem.
           by rewrite node_at_app, Hp in Hx.
    + split; [by left | intros [?|(node' & [= <-] & ? & _)]; done].
  - split; [by left | intros [?|(node' & ? & _)]; done].
Qed.

Lemma visit_all_elem highlighted rootNode related (l : list D3.path) x :
  x ∈ foldl (visit highlighted rootNode) related l ↔
  x ∈ related ∨ ∃ p, p ∈ l ∧ Touches highlighted rootNode p x.
Proof.
  revert related. induction l as [|p l IH]; intros related; simpl.
  - split; [by left | intros [?|(p & Hp%elem_of_nil & _)]; done].
  - rewrite IH, visit_elem. split.
    + intros [[?|?]|(q & Hq & ?)]; [by left | right | right].
      * exists p. split; [apply elem_of_cons; by left | done].
      * exists q. split; [apply elem_of_cons; by right | done].
    + intros [?|(q & [->|Hq]%elem_of_cons & ?)]; [left; by left | left; by right |].
      right. eauto.
Qed.

(** [relatedNodes] is the set of the matched nodes together with their
    ancestors and their descendants, and nothing else. *)
Lemma relatedNodes_elem ids rootNode x :
  x ∈ relatedNodes ids rootNode ↔
  ∃ p, Matched ids rootNode p ∧
       (AncestorOrSelf x p ∨ (AncestorOrSelf p x ∧ InTree rootNode x)).
Proof.
  unfold relatedNodes, Matched, AncestorOrSelf, InTree.
  rewrite visit_all_elem. split.
  - intros [?%not_elem_of_empty|(p & _ & node & Hp & Hid%elem_of_list_to_set & Hx)]; [done|].
    exists p. split; [by exists node | done].
  - intros (p & (node & Hp & Hid) & Hx). right. exists p. split.
    + apply descendants_elem. by rewrite Hp.
    + exists node. split; [done|]. split; [by apply elem_of_list_to_set | done].
Qed.

Lemma closure_ids_elem ids rootNode q node :
  q ∈ relatedNodes ids rootNode → D3.node_at rootNode q = Some node →
  id (D3.data node) ∈ closure_ids ids rootNode.
Proof.
  intros Hq Hn. unfold closure_ids. apply elem_of_set_omap.
  exists q. split; [done|]. by rewrite Hn.
Qed.

(** Claim C4. For every tree and every list of matched ids, the set of
    related nodes computed by [applyHighlights] contains, for each node of
    the tree whose id is matched, the node itself, all its ancestors up to
    the root and all its descendants; so do the ids of the closure.  When no
    id is matched the closure is empty and the drawing is returned as it
    was. *)
Theorem highlight_closure (rootNode : D3.Node Feature) (matchedIds : list string) :
  (∀ p, Matched matchedIds rootNode p →
     p ∈ relatedNodes matchedIds rootNode ∧
     (∀ a, AncestorOrSelf a p → a ∈ relatedNodes matchedIds rootNode) ∧
     (∀ d, AncestorOrSelf p d → InTree rootNode d →
           d ∈ relatedNodes matchedIds rootNode) ∧
     (∀ q node, AncestorOrSelf q p ∨ AncestorOrSelf p q →
           D3.node_at rootNode q = Some node →
           id (D3.data node) ∈ closure_ids matchedIds rootNode)) ∧
  relatedNodes [] rootNode = ∅ ∧
  closure_ids [] rootNode = ∅ ∧
  (∀ drawing, applyHighlights drawing (Some []) rootNode = drawing ∧
              applyHighlights drawing None rootNode = drawing).
Proof.
  assert (relatedNodes [] rootNode = ∅) as Hempty.
  { apply set_eq. intros x. rewrite relatedNodes_elem. split; [|by intros ?%not_elem_of_empty].
    intros (p & (node & _ & Hid%elem_of_nil) & _). done. }
  split; [|split; [done|split; [|done]]].
  - intros p Hp.
    assert (∀ a, AncestorOrSelf a p → a ∈ relatedNodes matchedIds rootNode) as Hanc.
    { intros a Ha. apply relatedNodes_elem. exists p. split; [done | by left]. }
    assert (∀ d, AncestorOrSelf p d → InTree rootNode d →
                 d ∈ relatedNodes matchedIds rootNode) as Hdesc.
    { intros d Hd Hin. apply relatedNodes_elem. exists p. split; [done | by right]. }
    split; [by apply Hanc|]. split; [done|]. split; [done|].
    intros q node [Hq|Hq] Hn; apply closure_ids_elem with q; try done.
    + by apply Hanc.
    + apply Hdesc; [done|]. unfold InTree. by rewrite Hn.
  - unfold closure_ids. rewrite Hempty. apply set_eq. intros x.
    rewrite elem_of_set_omap. split; [|by intros ?%not_elem_of_empty].
    intros (p & Hp%not_elem_of_empty & _). done.
Qed.

Example highlight_sample :
  elements (relatedNodes ["a2"] tree) = [[0; 1; 0]; [0]; [0; 1]; []] ∧
  elements (closure_ids ["a2"] tree) = ["a21"; "a2"; "a"; "root"].
Proof. split; vm_compute; reflexivity. Qed.

Lemma highlight_closure_witness :
  [0; 1] ∈ relatedNodes ["a2"] tree ∧
  [] ∈ relatedNodes ["a2"] tree ∧
  [0; 1; 0] ∈ relatedNodes ["a2"] tree.
Proof.
  destruct (highlight_closure tree ["a2"]) as [H _].
  destruct (H [0; 1]) as (Hself & Hanc & Hdesc & _).
  - eexists. split; [reflexivity|]. apply list_elem_of_singleton. reflexivity.
  - split; [exact Hself|]. split.
    + apply Hanc. by exists [0; 1].
    + apply Hdesc; [by exists [0] | by eexists].
Defined.

End HighlightFacts.

(** ** Numbers, viewport and overlay *)

Section JsNumFacts.
Import JsNum.
Local Open Scope Qc_scope.


Lemma two_nonzero : Q2Qc 2 ≠ 0.
Proof. intros H. apply (f_equal this) in H. vm_compute in H. discriminate. Qed.

Lemma three_nonzero : Q2Qc 3 ≠ 0.
Proof. intros H. apply (f_equal this) in H. vm_compute in H. discriminate. Qed.

Lemma div_Fin (p q : Qc) : q ≠ 0 → div (Fin p) (Fin q) = Fin (p / q).
Proof. intros Hq. simpl. by destruct (Qc_eq_dec q 0). Qed.

Lemma scaled_pos inf (p : Qc) : 0 < p → scaled inf p = inf.
Proof. intros Hp. unfold scaled. apply Qcgt_alt in Hp. by rewrite Hp. Qed.

Lemma div_zero_pos (p : Qc) : 0 < p → div (Fin p) (Fin 0) = PInf.
Proof.
  intros Hp. simpl. destruct (Qc_eq_dec 0 0) as [_|H]; [|done].
  by apply scaled_pos.
Qed.

Lemma one_pos : 0 < 1.
Proof. reflexivity. Qed.

Lemma mul_one_l (v : num) : mul (ofQ 1) v = v.
Proof.
  destruct v as [q| | |]; simpl; try done.
  - f_equal. change (Q2Qc 1) with 1. ring.
Qed.

Lemma add_zero_l (v : num) : add (ofQ 0) v = v.
Proof.
  destruct v as [q| | |]; simpl; try done.
  f_equal. change (Q2Qc 0) with 0. ring.
Qed.

Lemma Fin_inj (p q : Qc) : Fin p = Fin q → p = q.
Proof. intros H. by injection H. Qed.

Lemma Qcdiv_pos (p q : Qc) : 0 < p → 0 < q → 0 < p / q.
Proof.
  unfold Qclt, Qcdiv, Qcmult, Qcinv. simpl. intros Hp Hq.
  rewrite !Qred_correct. apply Qmult_lt_0_compat; [done|].
  by apply Qinv_lt_0_compat.
Qed.

Lemma Qcmult_pos (p q : Qc) : 0 < p → 0 < q → 0 < p * q.
Proof.
  unfold Qclt, Qcmult. simpl. intros Hp Hq.
  rewrite !Qred_correct. by apply Qmult_lt_0_compat.
Qed.

Lemma Qcmin_pos (p q : Qc) : 0 < p → 0 < q → 0 < Qcmin p q.
Proof. intros Hp Hq. unfold Qcmin. by destruct (Qclt_le_dec q p). Qed.

Lemma Qcmax_lower (p q : Qc) : p <= Qcmax p q.
Proof.
  unfold Qcmax. destruct (Qclt_le_dec p q) as [H|H]; [by apply Qclt_le_weak | apply Qcle_refl].
Qed.

Lemma Qcmax_upper (p q : Qc) : q <= Qcmax p q.
Proof.
  unfold Qcmax. destruct (Qclt_le_dec p q) as [H|H]; [apply Qcle_refl | done].
Qed.

Lemma Qcmax_cases (p q : Qc) : Qcmax p q = p ∨ Qcmax p q = q.
Proof. unfold Qcmax. destruct (Qclt_le_dec p q); eauto. Qed.

End JsNumFacts.

Section ViewportFacts.
Import JsNum Viewport.
Local Open Scope Qc_scope.

Lemma translate_identity tx ty :
  translate zoomIdentity tx ty = mkTransform tx ty (ofQ 1).
Proof.
  unfold translate, zoomIdentity. simpl x. simpl y. simpl k.
  by rewrite !mul_one_l, !add_zero_l.
Qed.

Lemma build_transform tx ty s :
  scale (translate zoomIdentity tx ty) s = mkTransform tx ty s.
Proof. rewrite translate_identity. unfold scale. cbn [x y k]. by rewrite mul_one_l. Qed.

Lemma fitToView_scale vw vh bbox :
  k (fitToView vw vh bbox) = fitScale vw vh bbox.
Proof. unfold fitToView. by rewrite build_transform. Qed.

Lemma eight_tenths_pos : 0 < Q2Qc 0.8.
Proof. reflexivity. Qed.

(** The fit scale when the box has an extent in both directions. *)
Lemma fitScale_regular (vw vh bw bh : Qc) ox oy :
  bw ≠ 0 → bh ≠ 0 →
  fitScale (Fin vw) (Fin vh) (mkBBox ox oy (Fin bw) (Fin bh)) =
  Fin (Qcmin (vw / bw) (vh / bh) * Q2Qc 0.8).
Proof.
  intros Hw Hh. unfold fitScale. simpl width. simpl height.
  by rewrite !div_Fin.
Qed.

Lemma fitScale_positive (vw vh bw bh : Qc) ox oy :
  0 < vw → 0 < vh → 0 < bw → 0 < bh →
  ∃ s, fitScale (Fin vw) (Fin vh) (mkBBox ox oy (Fin bw) (Fin bh)) = Fin s ∧ 0 < s.
Proof.
  intros Hvw Hvh Hbw Hbh. eexists. split.
  - apply fitScale_regular; apply not_eq_sym; by apply Qclt_not_eq.
  - apply Qcmult_pos; [|apply eight_tenths_pos].
    apply Qcmin_pos; by apply Qcdiv_pos.
Qed.

(** Claim C2, as amended. For a bounding box with zero width or zero
    height the fit-scale computation has no guard and no fallback to 1: the
    division by the zero extent gives Infinity, so the scale of the fit
    transform is Infinity when both extents are zero and otherwise 0.8 times
    the ratio of the view to the box along the other direction. *)
Theorem fitScale_degenerate (vw vh bw bh : Qc) (ox oy : num) :
  0 < vw → 0 < vh → bw = 0 ∨ bh = 0 →
  let boundingBox := mkBBox ox oy (Fin bw) (Fin bh) in
  k (fitToView (Fin vw) (Fin vh) boundingBox) =
    fitScale (Fin vw) (Fin vh) boundingBox ∧
  fitScale (Fin vw) (Fin vh) boundingBox =
    (if Qc_eq_dec bw 0 then
       if Qc_eq_dec bh 0 then PInf else Fin (vh / bh * Q2Qc 0.8)
     else Fin (vw / bw * Q2Qc 0.8)).
Proof.
  intros Hvw Hvh Hzero boundingBox. split; [apply fitToView_scale|].
  unfold fitScale, boundingBox. simpl width. simpl height.
  destruct (Qc_eq_dec bw 0) as [->|Hw].
  - rewrite (div_zero_pos vw Hvw).
    destruct (Qc_eq_dec bh 0) as [->|Hh].
    + rewrite (div_zero_pos vh Hvh). simpl. by rewrite (scaled_pos _ _ eight_tenths_pos).
    + by rewrite div_Fin.
  - destruct Hzero as [?| ->]; [done|].
    rewrite (div_zero_pos vh Hvh). by rewrite div_Fin.
Qed.

(** Claim C2 as stated fails: no guard, no fallback to 1. *)
Lemma fitScale_guard_counterexample :
  ¬ (∀ vw vh boundingBox,
       width boundingBox = ofQ 0 ∨ height boundingBox = ofQ 0 →
       fitScale vw vh boundingBox = ofQ 1 ∧
       isFinite (k (fitToView vw vh boundingBox)) = true).
Proof.
  intros H.
  destruct (H (ofQ 400) (ofQ 300) (mkBBox (ofQ 0) (ofQ 0) (ofQ 0) (ofQ 0)))
    as [Hone _]; [by left|].
  vm_compute in Hone. discriminate.
Qed.

Example fitScale_single_point :
  fitScale (ofQ 400) (ofQ 300) (mkBBox (ofQ 0) (ofQ 0) (ofQ 0) (ofQ 0)) = PInf ∧
  spec_fitScale (ofQ 400) (ofQ 300) (mkBBox (ofQ 0) (ofQ 0) (ofQ 0) (ofQ 0)) = ofQ 1 ∧
  fitToView (ofQ 400) (ofQ 300) (mkBBox (ofQ 0) (ofQ 0) (ofQ 0) (ofQ 0)) =
    mkTransform NaN NaN PInf.
Proof. repeat split; by vm_compute. Qed.

Lemma fitScale_degenerate_witness :
  let boundingBox := mkBBox (ofQ 0) (ofQ 0) (Fin 0) (Fin (Q2Qc 50)) in
  k (fitToView (Fin (Q2Qc 400)) (Fin (Q2Qc 300)) boundingBox) =
    fitScale (Fin (Q2Qc 400)) (Fin (Q2Qc 300)) boundingBox ∧
  fitScale (Fin (Q2Qc 400)) (Fin (Q2Qc 300)) boundingBox =
    (if Qc_eq_dec 0 0 then
       if Qc_eq_dec (Q2Qc 50) 0 then PInf else Fin (Q2Qc 300 / Q2Qc 50 * Q2Qc 0.8)
     else Fin (Q2Qc 400 / 0 * Q2Qc 0.8)).
Proof.
  apply (fitScale_degenerate (Q2Qc 400) (Q2Qc 300) 0 (Q2Qc 50) (ofQ 0) (ofQ 0)).
  - reflexivity.
  - reflexivity.
  - left. reflexivity.
Defined.

Lemma handleAlignCenter_eq g zoom bbox :
  handleAlignCenter (Some g) zoom bbox =
  let s := k (default zoomIdentity zoom) in
  Some (mkTransform
          (sub (div (sub (viewWidth g) (mul (width bbox) s)) (ofQ 2)) (mul (bbx bbox) s))
          (sub (div (sub (viewHeight g) (mul (height bbox) s)) (ofQ 2)) (mul (bby bbox) s))
          s).
Proof. unfold handleAlignCenter. by rewrite build_transform. Qed.

(** Claim C8. For every viewport state, [handleAlignCenter] produces a
    transform whose scale is the current scale; only the translation is
    recomputed, and (for finite values) it puts the centre of the bounding
    box on the centre of the view at that scale.  Before a graph is drawn
    the handler leaves the transform alone. *)
Theorem handleAlignCenter_spec (g : GraphState) (zoom : option Transform)
    (bbox : BBox) :
  let current := default zoomIdentity zoom in
  handleAlignCenter None zoom bbox = zoom ∧
  ∃ new,
    handleAlignCenter (Some g) zoom bbox = Some new ∧
    k new = k current ∧
    ∀ vw vh ox oy bw bh s : Qc,
      viewWidth g = Fin vw → viewHeight g = Fin vh →
      bbox = mkBBox (Fin ox) (Fin oy) (Fin bw) (Fin bh) →
      k current = Fin s →
      applyX new (Fin (ox + bw / Q2Qc 2)) = Fin (vw / Q2Qc 2) ∧
      applyY new (Fin (oy + bh / Q2Qc 2)) = Fin (vh / Q2Qc 2).
Proof.
  intros current. split; [done|].
  rewrite handleAlignCenter_eq. eexists. split; [done|].
  split; [done|].
  intros vw vh ox oy bw bh s Hvw Hvh -> Hs.
  unfold applyX, applyY. cbn [x y k bbx bby width height]. fold current.
  rewrite Hvw, Hvh, Hs. unfold ofQ. cbn [mul sub add neg].
  rewrite !div_Fin by apply two_nonzero. cbn [mul sub add neg].
  split; f_equal; field; apply two_nonzero.
Qed.

Lemma handleResetZoom_eq g zoom rect :
  handleResetZoom (Some g) zoom rect =
  let cur := default zoomIdentity zoom in
  let s := k (initialTransform g) in
  let cx := div (rwidth rect) (ofQ 2) in
  let cy := div (rheight rect) (ofQ 2) in
  Some (mkTransform
          (sub cx (mul (div (sub cx (x cur)) (k cur)) s))
          (sub cy (mul (div (sub cy (y cur)) (k cur)) s))
          s).
Proof. unfold handleResetZoom. by rewrite build_transform. Qed.

(** Claim C9. [handleResetZoom] restores the scale of the initial
    fit-to-view transform and keeps the content point under the centre of
    the viewport where it is.  When the current transform is the fit-to-view
    transform (finite, with a non-zero scale) the result is that same
    transform: a reset right after a fit changes nothing.  Arithmetic is
    exact in the model; rounding is not covered. *)
Theorem handleResetZoom_spec (g : GraphState) (rw rh tx ty s s0 : Qc) :
  s ≠ 0 →
  k (initialTransform g) = Fin s0 →
  let current := mkTransform (Fin tx) (Fin ty) (Fin s) in
  let rect := mkRect (Fin rw) (Fin rh) in
  ∃ new,
    handleResetZoom (Some g) (Some current) rect = Some new ∧
    k new = k (initialTransform g) ∧
    (∀ px py : Qc,
       applyX current (Fin px) = Fin (rw / Q2Qc 2) →
       applyY current (Fin py) = Fin (rh / Q2Qc 2) →
       applyX new (Fin px) = Fin (rw / Q2Qc 2) ∧
       applyY new (Fin py) = Fin (rh / Q2Qc 2)) ∧
    (initialTransform g = current → new = current).
Proof.
  intros Hs Hinit current rect. rewrite handleResetZoom_eq. eexists. split; [done|].
  change (default zoomIdentity (Some current)) with current.
  unfold current, rect. cbn [x y k rwidth rheight]. rewrite Hinit. unfold ofQ.
  rewrite !div_Fin by apply two_nonzero. cbn [sub add neg].
  rewrite !div_Fin by done. cbn [mul sub add neg].
  split; [done|]. split.
  - intros px py. unfold applyX, applyY. cbn [x y k mul add].
    intros Hx%Fin_inj Hy%Fin_inj. split; f_equal.
    + rewrite <- Hx. field. done.
    + rewrite <- Hy. field. done.
  - intros Heq. rewrite Heq in Hinit. apply Fin_inj in Hinit as <-.
    f_equal; f_equal; field; done.
Qed.

(** After a fit to a box with an extent in both directions, a reset leaves
    the fit transform in place. *)
Corollary handleResetZoom_after_fit (vw vh ox oy bw bh rw rh : Qc) :
  0 < vw → 0 < vh → 0 < bw → 0 < bh →
  let fit := fitToView (Fin vw) (Fin vh) (mkBBox (Fin ox) (Fin oy) (Fin bw) (Fin bh)) in
  handleResetZoom (Some (mkGraphState (Fin vw) (Fin vh) fit)) (Some fit)
                  (mkRect (Fin rw) (Fin rh)) = Some fit.
Proof.
  intros Hvw Hvh Hbw Hbh fit.
  destruct (fitScale_positive vw vh bw bh (Fin ox) (Fin oy) Hvw Hvh Hbw Hbh) as (s & Hs & Hpos).
  assert (∃ tx ty, fit = mkTransform (Fin tx) (Fin ty) (Fin s)) as (tx & ty & Hfit).
  { unfold fit, fitToView. rewrite build_transform, Hs. unfold ofQ.
    cbn [bbx bby width height mul sub add neg]. rewrite !div_Fin by apply two_nonzero.
    cbn [sub add neg]. eauto. }
  assert (s ≠ 0) as Hne by (apply not_eq_sym; by apply Qclt_not_eq).
  rewrite Hfit, handleResetZoom_eq.
  change (default zoomIdentity (Some ?t)) with t.
  cbn [initialTransform x y k rwidth rheight]. unfold ofQ.
  rewrite !div_Fin by apply two_nonzero. cbn [sub add neg].
  rewrite !div_Fin by done. cbn [mul sub add neg].
  f_equal. f_equal; f_equal; field; done.
Qed.

Example reset_after_fit_sample :
  handleResetZoom (Some sampleState) (Some sampleFit)
                  (mkRect (Fin (Q2Qc 1000)) (Fin (Q2Qc 777))) = Some sampleFit.
Proof. by apply handleResetZoom_after_fit. Qed.

Lemma handleAlignCenter_spec_witness :
  ∃ new,
    handleAlignCenter (Some sampleState) (Some panned) sampleBox = Some new ∧
    k new = Fin (Q2Qc 2.5) ∧
    applyX new (Fin (Q2Qc (-25) + Q2Qc 50 / Q2Qc 2)) = Fin (Q2Qc 400 / Q2Qc 2) ∧
    applyY new (Fin (Q2Qc (-25) + Q2Qc 90 / Q2Qc 2)) = Fin (Q2Qc 300 / Q2Qc 2).
Proof.
  destruct (handleAlignCenter_spec sampleState (Some panned) sampleBox)
    as (_ & new & Hnew & Hk & Hcentre).
  exists new. split; [exact Hnew|]. split; [exact Hk|].
  exact (Hcentre (Q2Qc 400) (Q2Qc 300) (Q2Qc (-25)) (Q2Qc (-25)) (Q2Qc 50) (Q2Qc 90)
           (Q2Qc 2.5) eq_refl eq_refl eq_refl eq_refl).
Defined.

(** A reset from the transform that is also the initial one, on a
    viewport of 1000 by 777. *)
Lemma handleResetZoom_spec_witness :
  handleResetZoom (Some pannedState) (Some panned)
                  (mkRect (Fin (Q2Qc 1000)) (Fin (Q2Qc 777))) = Some panned.
Proof.
  destruct (handleResetZoom_spec pannedState (Q2Qc 1000) (Q2Qc 777)
              (Q2Qc 10) (Q2Qc (-35)) (Q2Qc 2.5) (Q2Qc 2.5))
    as (new & Hnew & _ & _ & Hsame).
  - intros H. apply (f_equal this) in H. vm_compute in H. discriminate H.
  - reflexivity.
  - transitivity (Some new); [exact Hnew|]. f_equal. apply Hsame. reflexivity.
Defined.

End ViewportFacts.

Section OverlayFacts.
Import JsNum JsObject Overlay.
Local Open Scope Qc_scope.

(** *** The dictionary of nodes *)

Lemma stored_fold (rootNode : D3.Node Placed) (l : list D3.path)
    (m : gmap string D3.path) i :
  let step := λ (m : gmap string D3.path) p,
    match D3.node_at rootNode p with
    | Some node => <[id (feature (D3.data node)) := p]> m
    | None => m
    end in
  (∀ q, foldl step m l !! i = Some q →
     m !! i = Some q ∨
     ∃ node, q ∈ l ∧ D3.node_at rootNode q = Some node ∧
             id (feature (D3.data node)) = i) ∧
  (is_Some (m !! i) ∨
   (∃ p node, p ∈ l ∧ D3.node_at rootNode p = Some node ∧
              id (feature (D3.data node)) = i) →
   is_Some (foldl step m l !! i)).
Proof.
  intros step. revert m. induction l as [|p l IH]; intros m; simpl.
  - split; [by left|]. intros [?|(p & node & Hp%elem_of_nil & _)]; done.
  - destruct (IH (step m p)) as [IH1 IH2]. split.
    + intros q [Hm|(node & Hq & Hn & Hi)]%IH1.
      * unfold step in Hm. destruct (D3.node_at rootNode p) as [node|] eqn:Hp; [|by left].
        apply lookup_insert_Some in Hm as [[<- <-]|[_ Hm]]; [|by left].
        right. exists node. by split; [apply elem_of_cons; left|].
      * right. exists node. by split; [apply elem_of_cons; right|].
    + intros [Hm|(q & node & [->|Hq]%elem_of_cons & Hn & Hi)]; apply IH2.
      * left. unfold step. destruct (D3.node_at rootNode p); [|done].
        rewrite lookup_insert. case_decide; [by eexists | done].
      * left. unfold step. rewrite Hn, Hi. rewrite lookup_insert_eq. by eexists.
      * right. exists q, node. done.
Qed.

Lemma nodeIds_elem (rootNode : D3.Node Placed) k :
  k ∈ nodeIds rootNode ↔
  ∃ p node, D3.node_at rootNode p = Some node ∧ id (feature (D3.data node)) = k.
Proof.
  unfold nodeIds. rewrite list_elem_of_omap. split.
  - intros (p & Hp & Hk). destruct (D3.node_at rootNode p) as [node|] eqn:E; [|done].
    injection Hk as <-. by exists p, node.
  - intros (p & node & Hp & <-). exists p. split.
    + apply descendants_elem. by exists node.
    + by rewrite Hp.
Qed.

(** The dictionary holds exactly the ids of the nodes of the tree, each
    with a node that carries it. *)
Lemma stored_Some (rootNode : D3.Node Placed) i p :
  stored rootNode !! i = Some p →
  ∃ node, D3.node_at rootNode p = Some node ∧ id (feature (D3.data node)) = i.
Proof.
  unfold stored. intros H.
  destruct (stored_fold rootNode (D3.descendants rootNode) ∅ i) as [H1 _].
  destruct (H1 p H) as [?|(node & _ & ? & ?)]; [done|]. by exists node.
Qed.

Lemma stored_None (rootNode : D3.Node Placed) i :
  stored rootNode !! i = None ↔ i ∉ nodeIds rootNode.
Proof.
  rewrite nodeIds_elem. split.
  - intros Hnone (p & node & Hn & Hi).
    destruct (stored_fold rootNode (D3.descendants rootNode) ∅ i) as [_ H2].
    destruct H2 as [q Hq].
    + right. exists p, node. split; [|done]. apply descendants_elem. by rewrite Hn.
    + unfold stored in Hnone. congruence.
  - intros Hall. destruct (stored rootNode !! i) as [p|] eqn:Hp; [|done].
    apply stored_Some in Hp as (node & Hn & Hi). destruct Hall. by exists p, node.
Qed.

(** In a tree without the id ["__proto__"] a name yields a node that
    carries it, or, when no node carries it, an inherited member or
    nothing. *)
Lemma nodeById_node (rootNode : D3.Node Placed) k :
  k ∈ nodeIds rootNode →
  ∃ p node, D3.node_at rootNode p = Some node ∧
            id (feature (D3.data node)) = k ∧
            nodeById rootNode k = Stored (D3.data node).
Proof.
  intros Hk. unfold nodeById.
  destruct (stored rootNode !! k) as [p|] eqn:Hp.
  - destruct (stored_Some _ _ _ Hp) as (node & Hn & Hi).
    exists p, node. by rewrite Hn.
  - by apply stored_None in Hp.
Qed.

Lemma nodeById_other (rootNode : D3.Node Placed) k :
  "__proto__" ∉ nodeIds rootNode → k ∉ nodeIds rootNode →
  nodeById rootNode k =
  if bool_decide (k ∈ prototypeMembers) then Foreign else Absent.
Proof.
  intros Hno Hk. unfold nodeById.
  by rewrite (proj2 (stored_None _ _) Hk), (proj2 (stored_None _ _) Hno).
Qed.

Lemma nodeById_Absent (rootNode : D3.Node Placed) k :
  "__proto__" ∉ nodeIds rootNode →
  nodeById rootNode k = Absent ↔ ¬ Found rootNode k.
Proof.
  intros Hno. unfold Found. destruct (decide (k ∈ nodeIds rootNode)) as [Hk|Hk].
  - destruct (nodeById_node _ _ Hk) as (p & node & _ & _ & ->). split; [done|tauto].
  - rewrite nodeById_other by done. case_bool_decide; split; try done; tauto.
Qed.

Lemma nodeById_EndAt (rootNode : D3.Node Placed) k :
  "__proto__" ∉ nodeIds rootNode → Found rootNode k →
  EndAt rootNode k
    (mkPoint (number (getX (nodeById rootNode k))) (number (getY (nodeById rootNode k))))
    (mkMarker (getX (nodeById rootNode k)) (getY (nodeById rootNode k))).
Proof.
  intros Hno Hk. destruct (decide (k ∈ nodeIds rootNode)) as [Hin|Hout].
  - destruct (nodeById_node _ _ Hin) as (p & node & Hn & Hi & ->).
    left. by exists p, node.
  - destruct Hk as [?|Hmem]; [done|]. right.
    rewrite nodeById_other by done. rewrite bool_decide_eq_true_2 by done. done.
Qed.

(** *** One constraint *)

Lemma drawConstraint_skip nodes c :
  nodes (a c) = Absent ∨ nodes (b c) = Absent → drawConstraint nodes c = [].
Proof.
  unfold drawConstraint. intros [-> | ->]; [done|]. by destruct (nodes (a c)).
Qed.

Lemma drawConstraint_draw nodes c :
  nodes (a c) ≠ Absent → nodes (b c) ≠ Absent →
  drawConstraint nodes c =
  [ mkDrawn
      [ mkPoint (number (getX (nodes (a c)))) (number (getY (nodes (a c))));
        mkPoint (div (add (number (getX (nodes (a c))))
                          (number (getX (nodes (b c))))) (ofQ 2))
                (sub (div (add (number (getY (nodes (a c))))
                               (number (getY (nodes (b c))))) (ofQ 2))
                     (controlMagnitude (nodes (a c)) (nodes (b c))));
        mkPoint (number (getX (nodes (b c)))) (number (getY (nodes (b c)))) ]
      (colour c) (dashes c)
      [ mkMarker (getX (nodes (a c))) (getY (nodes (a c)));
        mkMarker (getX (nodes (b c))) (getY (nodes (b c))) ]
      (colour c) ]%list.
Proof.
  unfold drawConstraint. intros Ha Hb.
  by destruct (nodes (a c)), (nodes (b c)).
Qed.

(** Claim C6, where the code departs from it.  On a laid-out tree without
    the id ["__proto__"], [drawConstraints] draws, in input order, one curve
    with its two markers for each constraint whose two ends are found, and
    nothing for the others.  An end is found when it is the id of a node,
    and also when it is the name of a member of [Object.prototype]: the guard
    [!sourceNode || !targetNode] lets the inherited member pass, and the
    curve drawn for it has the control point (NaN, NaN) at that end and a
    marker without position.  A constraint with an end that is neither is
    skipped, and so is everything when the model has no constraints. *)
Theorem overlay_skips_dangling (rootNode : D3.Node Placed)
    (constraints : option (list Constraint)) :
  "__proto__" ∉ nodeIds rootNode →
  (∃ kept,
     Search.Selects (λ c, Found rootNode (a c) ∧ Found rootNode (b c))
                    (default []%list constraints) kept ∧
     Forall2 (Draws rootNode) kept (drawConstraints constraints rootNode)) ∧
  (∀ c, ¬ Found rootNode (a c) ∨ ¬ Found rootNode (b c) →
        drawConstraint (nodeById rootNode) c = []%list) ∧
  drawConstraints None rootNode = []%list.
Proof.
  intros Hno. split; [|split].
  - unfold drawConstraints, overlay.
    induction (default []%list constraints) as [|c cs (kept & Hsel & Hdraw)].
    + exists []%list. split; constructor.
    + rewrite fmap_cons, concat_cons.
      assert (nodeById rootNode (a c) = Absent ∨ nodeById rootNode (a c) ≠ Absent)
        as [Ha|Ha] by (destruct (nodeById rootNode (a c)); auto).
      { rewrite drawConstraint_skip by (by left). exists kept.
        split; [|done]. constructor; [|done].
        intros [Hfa _]. by apply (nodeById_Absent _ _ Hno) in Ha. }
      assert (nodeById rootNode (b c) = Absent ∨ nodeById rootNode (b c) ≠ Absent)
        as [Hb|Hb] by (destruct (nodeById rootNode (b c)); auto).
      { rewrite drawConstraint_skip by (by right). exists kept.
        split; [|done]. constructor; [|done].
        intros [_ Hfb]. by apply (nodeById_Absent _ _ Hno) in Hb. }
      assert (Found rootNode (a c)) as Hfa.
      { destruct (decide (a c ∈ nodeIds rootNode)) as [?|Hout]; [by left|].
        rewrite nodeById_other in Ha by done. case_bool_decide; [by right|done]. }
      assert (Found rootNode (b c)) as Hfb.
      { destruct (decide (b c ∈ nodeIds rootNode)) as [?|Hout]; [by left|].
        rewrite nodeById_other in Hb by done. case_bool_decide; [by right|done]. }
      rewrite drawConstraint_draw by done.
      exists (c :: kept)%list. split; [by constructor|].
      constructor; [|done].
      eexists _, _, _, _, _. split; [by apply nodeById_EndAt|].
      split; [by apply nodeById_EndAt|]. done.
  - intros c Hc. apply drawConstraint_skip.
    destruct Hc as [Hc|Hc]; [left|right]; by apply nodeById_Absent.
  - done.
Qed.

(** The control points handed to the line generator, for finite
    positions. *)
Lemma drawConstraint_points (nodes : string → Got Placed) (c : Constraint)
    (s t : Placed) (sx sy tx ty : Qc) :
  nodes (a c) = Stored s → nodes (b c) = Stored t →
  x s = Fin sx → y s = Fin sy → x t = Fin tx → y t = Fin ty →
  ∃ d,
    drawConstraint nodes c = [d]%list ∧
    points d = [ mkPoint (Fin sx) (Fin sy);
                 mkPoint (Fin ((sx + tx) / Q2Qc 2))
                         (Fin ((sy + ty) / Q2Qc 2 -
                               Qcmax (Q2Qc 80) (Qcabs (sy - ty) / Q2Qc 3)));
                 mkPoint (Fin tx) (Fin ty) ].
Proof.
  intros Hs Ht Hsx Hsy Htx Hty. unfold drawConstraint. rewrite Hs, Ht.
  eexists. split; [reflexivity|].
  cbn [points getX getY number]. unfold controlMagnitude.
  cbn [getX getY number].
  rewrite Hsx, Hsy, Htx, Hty. unfold ofQ.
  cbn [sub add neg abs]. rewrite !div_Fin by (apply two_nonzero || apply three_nonzero).
  cbn [max sub add neg]. done.
Qed.

(** Claim C5, as amended. For a constraint whose two ends resolve to
    positioned nodes, the curve has exactly three control points: the
    position of the source, the midpoint of the chord moved vertically
    (towards smaller y) by [max(80, |Δy|/3)], and the position of the
    target.  The offset is vertical, not at a right angle to the chord. *)
Theorem drawConstraint_curve (nodes : string → Got Placed) (c : Constraint)
    (s t : Placed) (sx sy tx ty : Qc) :
  nodes (a c) = Stored s → nodes (b c) = Stored t →
  x s = Fin sx → y s = Fin sy → x t = Fin tx → y t = Fin ty →
  ∃ d mag,
    drawConstraint nodes c = [d]%list ∧
    mag = Qcmax (Q2Qc 80) (Qcabs (sy - ty) / Q2Qc 3) ∧
    Q2Qc 80 <= mag ∧
    points d = [ mkPoint (Fin sx) (Fin sy);
                 mkPoint (Fin ((sx + tx) / Q2Qc 2)) (Fin ((sy + ty) / Q2Qc 2 - mag));
                 mkPoint (Fin tx) (Fin ty) ].
Proof.
  intros Hs Ht Hsx Hsy Htx Hty.
  destruct (drawConstraint_points nodes c s t sx sy tx ty) as (d & Hd & Hp); try done.
  exists d. eexists. split; [done|]. split; [reflexivity|].
  split; [apply Qcmax_lower | done].
Qed.

(** The offset of the middle control point is vertical; it is at a right
    angle to the chord only when the chord is horizontal. *)
Lemma vertical_offset_perpendicular (sx sy tx ty : Qc) :
  let mag := Qcmax (Q2Qc 80) (Qcabs (sy - ty) / Q2Qc 3) in
  spec_perpendicular sx sy tx ty ((sx + tx) / Q2Qc 2) ((sy + ty) / Q2Qc 2 - mag)
  ↔ sy = ty.
Proof.
  intros mag. unfold spec_perpendicular. fold mag.
  assert (0 < mag) as Hpos.
  { apply Qclt_le_trans with (Q2Qc 80); [reflexivity | apply Qcmax_lower]. }
  assert (mag ≠ 0) as Hne by (apply not_eq_sym; by apply Qclt_not_eq).
  replace ((sx + tx) / Q2Qc 2 - (sx + tx) / Q2Qc 2) with 0 by ring.
  replace ((sy + ty) / Q2Qc 2 - mag - (sy + ty) / Q2Qc 2) with (- mag) by ring.
  split.
  - intros [Hdot _].
    assert (mag * (ty - sy) = 0) as Hz.
    { transitivity (- (0 * (tx - sx) + - mag * (ty - sy))); [ring|].
      rewrite Hdot. ring. }
    apply Qcmult_integral in Hz as [?|Hz]; [done|].
    symmetry. rewrite <- (Qcplus_0_r sy), <- Hz. ring.
  - intros ->. split; ring.
Qed.

(** Claim C5 as stated fails: between two nodes one above the other the
    middle control point lies on the chord. *)
Lemma drawConstraint_perpendicular_counterexample :
  ¬ (∀ (nodes : string → Got Placed) c s t sx sy tx ty,
       nodes (a c) = Stored s → nodes (b c) = Stored t →
       x s = Fin sx → y s = Fin sy → x t = Fin tx → y t = Fin ty →
       ∃ d mx my,
         drawConstraint nodes c = [d]%list ∧
         points d = [ mkPoint (Fin sx) (Fin sy); mkPoint (Fin mx) (Fin my);
                      mkPoint (Fin tx) (Fin ty) ] ∧
         spec_perpendicular sx sy tx ty mx my).
Proof.
  intros H.
  destruct (H (nodeById stacked) (mkConstraint "top" "low" "requires")
              (placed "top" 0 0) (placed "low" 0 300)
              (Q2Qc 0) (Q2Qc 0) (Q2Qc 0) (Q2Qc 300))
    as (d & mx & my & Hd & Hp & Hperp); try reflexivity.
  destruct (drawConstraint_points (nodeById stacked) (mkConstraint "top" "low" "requires")
              (placed "top" 0 0) (placed "low" 0 300)
              (Q2Qc 0) (Q2Qc 0) (Q2Qc 0) (Q2Qc 300))
    as (d' & Hd' & Hp'); try reflexivity.
  assert (d' = d) as -> by congruence.
  assert (mx = (Q2Qc 0 + Q2Qc 0) / Q2Qc 2) as -> by congruence.
  assert (my = (Q2Qc 0 + Q2Qc 300) / Q2Qc 2 -
               Qcmax (Q2Qc 80) (Qcabs (Q2Qc 0 - Q2Qc 300) / Q2Qc 3)) as -> by congruence.
  apply vertical_offset_perpendicular in Hperp.
  apply (f_equal this) in Hperp. vm_compute in Hperp. discriminate Hperp.
Qed.

Example overlay_stacked :
  (λ d, (λ p, (toQ (px p), toQ (py p))) <$> points d) <$>
    overlay (nodeById stacked) [mkConstraint "top" "low" "requires";
                     mkConstraint "top" "nope" "excludes"]
  = [[(Some 0%Q, Some 0%Q); (Some 0%Q, Some 50%Q); (Some 0%Q, Some 300%Q)]]%list.
Proof. vm_compute. reflexivity. Qed.

Example drawConstraints_positioned :
  (λ d, (λ p, (toQ (px p), toQ (py p))) <$> points d) <$>
    drawConstraints (Some [mkConstraint "a" "b" "excludes";
                           mkConstraint "a" "ghost" "requires"]) positioned
  = [[(Some (-70)%Q, Some 200%Q); (Some 0%Q, Some 120%Q); (Some 70%Q, Some 200%Q)]]%list.
Proof. vm_compute. reflexivity. Qed.

Lemma drawConstraint_curve_witness :
  ∃ d mag,
    drawConstraint (nodeById stacked) (mkConstraint "top" "low" "requires") = [d]%list ∧
    mag = Qcmax (Q2Qc 80) (Qcabs (Q2Qc 0 - Q2Qc 300) / Q2Qc 3) ∧
    Q2Qc 80 <= mag ∧
    points d = [ mkPoint (Fin (Q2Qc 0)) (Fin (Q2Qc 0));
                 mkPoint (Fin ((Q2Qc 0 + Q2Qc 0) / Q2Qc 2))
                         (Fin ((Q2Qc 0 + Q2Qc 300) / Q2Qc 2 - mag));
                 mkPoint (Fin (Q2Qc 0)) (Fin (Q2Qc 300)) ].
Proof.
  apply (drawConstraint_curve (nodeById stacked) (mkConstraint "top" "low" "requires")
           (placed "top" 0 0) (placed "low" 0 300)); reflexivity.
Defined.

(** With an end named after an inherited member the guard does not skip:
    a curve through (NaN, NaN) with a marker without position is drawn. *)
Example drawConstraints_inherited :
  drawConstraints (Some [mkConstraint "constructor" "a" "requires"]%list) positioned
  = [ mkDrawn [ mkPoint NaN NaN; mkPoint NaN NaN;
                mkPoint (ofQ (-70)) (ofQ 200) ]%list
              "#2196f3" "4 3"
              [ mkMarker None None;
                mkMarker (Some (ofQ (-70))) (Some (ofQ 200)) ]%list
              "#2196f3" ]%list.
Proof. by vm_compute. Qed.

(** A node with the id ["__proto__"] becomes the prototype of the
    dictionary: its [parent] is then found under the name ["parent"], and
    a curve to that node is drawn. *)
Example drawConstraints_proto_node :
  (λ d, (λ p, (toQ (px p), toQ (py p))) <$> points d) <$>
    drawConstraints (Some [mkConstraint "parent" "b" "requires";
                           mkConstraint "ghost" "b" "requires"]%list) proto_node
  = [[(Some 0%Q, Some 0%Q); (Some 35%Q, Some 20%Q); (Some 70%Q, Some 200%Q)]]%list.
Proof. vm_compute. reflexivity. Qed.

Lemma overlay_skips_dangling_witness :
  ∃ kept,
    Search.Selects (λ c, Found positioned (a c) ∧ Found positioned (b c))
      [mkConstraint "constructor" "a" "requires";
       mkConstraint "a" "ghost" "excludes";
       mkConstraint "a" "b" "excludes"]%list kept ∧
    Forall2 (Draws positioned) kept
      (drawConstraints (Some [mkConstraint "constructor" "a" "requires";
                              mkConstraint "a" "ghost" "excludes";
                              mkConstraint "a" "b" "excludes"]%list) positioned).
Proof.
  apply (overlay_skips_dangling positioned
           (Some [mkConstraint "constructor" "a" "requires";
                  mkConstraint "a" "ghost" "excludes";
                  mkConstraint "a" "b" "excludes"]%list)).
  apply (bool_decide_unpack (_ ∉ _)). vm_compute. exact I.
Defined.

End OverlayFacts.

(** ** Search: padding, own text, narrowing *)

Section SearchMore.
Import Search.

Lemma toLowerCase_app s t :
  toLowerCase (s +:+ t) = toLowerCase s +:+ toLowerCase t.
Proof.
  induction s as [|c s IH]; [done|].
  rewrite !append_cons. simpl. by rewrite IH, append_cons.
Qed.

Lemma toLowerCase_empty s : toLowerCase s = "" ↔ s = "".
Proof. by destruct s. Qed.

Lemma trimStart_all_space ws s :
  all_space ws = true → trimStart (ws +:+ s) = trimStart s.
Proof.
  induction ws as [|c ws IH]; [done|]. simpl.
  intros [Hc Hws]%andb_true_iff. rewrite Hc. auto.
Qed.

Lemma trimEnd_all_space_only ws : all_space ws = true → trimEnd ws = "".
Proof.
  induction ws as [|c ws IH]; [done|]. simpl.
  intros [Hc Hws]%andb_true_iff. by rewrite IH, Hc.
Qed.

Lemma trimEnd_all_space s ws :
  all_space ws = true → trimEnd (s +:+ ws) = trimEnd s.
Proof.
  intros Hws. induction s as [|c s IH].
  - rewrite append_empty_l. by apply trimEnd_all_space_only.
  - rewrite append_cons. simpl. by rewrite IH.
Qed.

Lemma trimStart_app s t :
  all_space s = false → trimStart (s +:+ t) = trimStart s +:+ t.
Proof.
  induction s as [|c s IH]; [done|]. simpl.
  destruct (is_space c); simpl; [auto | done].
Qed.

Lemma trimStart_all_space_only ws : all_space ws = true → trimStart ws = "".
Proof.
  intros Hws. rewrite <- (append_empty_r ws). by rewrite trimStart_all_space.
Qed.

(** White space around a string does not survive [trim]. *)
Lemma trim_padded ws1 s ws2 :
  all_space ws1 = true → all_space ws2 = true →
  trim (ws1 +:+ s +:+ ws2) = trim s.
Proof.
  intros H1 H2. unfold trim. rewrite trimStart_all_space by done.
  destruct (all_space s) eqn:Hs.
  - assert (all_space (s +:+ ws2) = true) as Hall.
    { clear -Hs H2. induction s as [|c s IH]; [done|].
      rewrite append_cons. simpl in *. apply andb_true_iff in Hs as [-> Hs]. auto. }
    by rewrite !trimStart_all_space_only.
  - rewrite trimStart_app by done. by apply trimEnd_all_space.
Qed.

Lemma Substring_refl s : Substring s s.
Proof. exists "", "". by rewrite append_empty_l, append_empty_r. Qed.

Lemma append_assoc (a b c : string) : (a +:+ b) +:+ c = a +:+ (b +:+ c).
Proof. induction a as [|x a IH]; [done|]. rewrite !append_cons. by rewrite IH. Qed.

Lemma Substring_trans a b c : Substring a b → Substring b c → Substring a c.
Proof.
  intros (p1 & q1 & ->) (p2 & q2 & ->).
  exists (p2 +:+ p1), (q1 +:+ q2). by rewrite !append_assoc.
Qed.

Lemma elem_of_search (features : list Feature) keyword i :
  i ∈ searchFeatures features keyword ↔
  normalize keyword ≠ "" ∧
  ∃ f, f ∈ features ∧ id f = i ∧ Matches (normalize keyword) f.
Proof.
  unfold searchFeatures. destruct (normalize keyword) as [|c q] eqn:Hq; simpl.
  - split; [by intros ?%elem_of_nil | by intros [? _]].
  - rewrite list_elem_of_In, in_map_iff. split.
    + intros (f & <- & [Hf Hm]%filter_In). split; [done|]. exists f.
      split; [by apply list_elem_of_In|]. split; [done|]. by apply includes_spec.
    + intros [_ (f & Hf & <- & Hm)]. exists f. split; [done|].
      apply filter_In. split; [by apply list_elem_of_In | by apply includes_spec].
Qed.

(** Property X1.  White space typed around the query changes nothing: the result is
    that of the bare query. *)
Theorem searchFeatures_padding (features : list Feature) (ws1 k ws2 : string) :
  all_space ws1 = true → all_space ws2 = true →
  searchFeatures features (Some (ws1 +:+ k +:+ ws2)) =
  searchFeatures features (Some k).
Proof.
  intros H1 H2. unfold searchFeatures.
  assert (normalize (Some (ws1 +:+ k +:+ ws2)) = normalize (Some k)) as ->; [|done].
  unfold normalize. f_equal.
  assert (∀ s, trim (Js.or_else (Some s) "") = trim s) as Hor.
  { intros [|c s]; done. }
  by rewrite !Hor, trim_padded.
Qed.

(** Property X2.  Searching for the text shown for a feature (its label, or its id when
    the label is empty or absent) finds that feature, as long as the text
    is more than white space.  The double click on a node and the click in
    the feature list call the search this way. *)
Theorem searchFeatures_own_text (features : list Feature) (f : Feature) :
  f ∈ features → trim (text f) ≠ "" →
  id f ∈ searchFeatures features (Some (text f)).
Proof.
  intros Hf Hne. apply elem_of_search.
  assert (normalize (Some (text f)) = toLowerCase (trim (text f))) as ->.
  { unfold normalize. by destruct (text f). }
  split; [by rewrite toLowerCase_empty|].
  exists f. split; [done|]. split; [done|]. unfold Matches.
  destruct (trim_spec (text f)) as (ws1 & ws2 & Ht & _).
  exists (toLowerCase ws1), (toLowerCase ws2).
  rewrite <- !toLowerCase_app. by rewrite <- Ht.
Qed.

(** Property X3.  A query that contains another (non-blank) query finds no more than
    it: its hits are a sublist of the hits of the shorter query. *)
Theorem searchFeatures_narrowing (features : list Feature) (k1 k2 : option string) :
  normalize k1 ≠ "" →
  Substring (normalize k1) (normalize k2) →
  sublist (searchFeatures features k2) (searchFeatures features k1).
Proof.
  intros Hne Hsub. unfold searchFeatures.
  destruct (normalize k1) as [|c1 q1] eqn:H1; [done|].
  destruct (normalize k2) as [|c2 q2] eqn:H2; simpl; [apply sublist_nil_l|].
  induction features as [|f fs IH]; simpl; [constructor|].
  destruct (includes (toLowerCase (text f)) (String c2 q2)) eqn:Hf2.
  - assert (includes (toLowerCase (text f)) (String c1 q1) = true) as ->.
    { apply includes_spec. eapply Substring_trans; [exact Hsub|]. by apply includes_spec. }
    simpl. by constructor.
  - destruct (includes (toLowerCase (text f)) (String c1 q1)); simpl; [by constructor | done].
Qed.

Lemma searchFeatures_padding_witness :
  searchFeatures Hierarchy.sample (Some ("  " +:+ "second" +:+ " ")) =
  searchFeatures Hierarchy.sample (Some "second").
Proof. apply (searchFeatures_padding Hierarchy.sample "  " "second" " "); reflexivity. Defined.

Lemma searchFeatures_own_text_witness :
  "r2" ∈ searchFeatures Hierarchy.sample (Some "Second root").
Proof.
  apply (searchFeatures_own_text Hierarchy.sample
           (mkFeature "r2" (Some "Second root") "mandatory" None)).
  - apply list_elem_of_In. simpl. auto 10.
  - discriminate.
Defined.

Lemma searchFeatures_narrowing_witness :
  sublist (searchFeatures Hierarchy.sample (Some "Roo"))
          (searchFeatures Hierarchy.sample (Some "o")).
Proof.
  apply (searchFeatures_narrowing Hierarchy.sample (Some "o") (Some "Roo")).
  - discriminate.
  - exists "r", "o". reflexivity.
Defined.

End SearchMore.

(** ** Path to the root: when it ends, what it returns *)

Section PathToRootMore.
Import PathToRoot.
Context (m : gmap string (option string)).

(** The ids pushed before a call stay at the end of the result. *)
Lemma walk_prefix fuel cur pre path :
  walk fuel m cur (pre ++ path) = (λ r, r ++ rev pre) <$> walk fuel m cur path.
Proof.
  revert cur path. induction fuel as [|fuel IH]; intros cur path; [done|]. simpl.
  destruct cur as [c|]; [|by rewrite rev_app_distr].
  destruct (Js.truthy_str c); [|by rewrite rev_app_distr].
  destruct (m !! c) as [next|].
  - rewrite <- app_assoc. apply IH.
  - simpl. by rewrite <- app_assoc, !rev_app_distr.
Qed.

Lemma walk_result fuel c path r :
  Js.truthy_str c = true →
  walk fuel m (Some c) path = Some r → ∃ l, Chain m c l ∧ r = rev (path ++ l).
Proof.
  revert c path r. induction fuel as [|fuel IH]; intros c path r Ht; [done|].
  simpl. rewrite Ht. destruct (m !! c) as [v|] eqn:Hm.
  - destruct (Js.truthy v) eqn:Hv.
    + apply truthy_Some in Hv as (p & -> & Hp%truthy_str_true).
      intros (l & Hl & ->)%IH; [|done]. exists (c :: l).
      split; [by apply chain_parent with p | by rewrite <- app_assoc].
    + intros Hw. exists [c]. split; [by apply chain_orphan with v|].
      destruct fuel as [|fuel]; [done|]. simpl in Hw.
      destruct v as [[|a s]|]; simpl in Hv; try done; by injection Hw as <-.
  - intros [= <-]. exists [c]. split; [by constructor | done].
Qed.

Lemma Chain_split c l x :
  Chain m c l → x ∈ l → ∃ pre l', l = pre ++ l' ∧ Chain m x l'.
Proof.
  induction 1 as [c Ht Hm | c v Ht Hm Hv | c p l Ht Hm Hp Hl IH].
  - intros ->%list_elem_of_singleton. exists [], [c]. split; [done | by constructor].
  - intros ->%list_elem_of_singleton. exists [], [c]. split; [done | by apply chain_orphan with v].
  - intros [->|Hx]%elem_of_cons.
    + exists [], (c :: l). split; [done | by apply chain_parent with p].
    + destruct (IH Hx) as (pre & l' & -> & Hl'). by exists (c :: pre), l'.
Qed.

Lemma Chain_NoDup c l : Chain m c l → NoDup l.
Proof.
  induction 1 as [c Ht Hm | c v Ht Hm Hv | c p l Ht Hm Hp Hl IH];
    [apply NoDup_singleton.. |].
  apply NoDup_cons. split; [|done]. intros Hin.
  destruct (Chain_split _ _ _ Hl Hin) as (pre & l' & -> & Hl').
  assert (l' = c :: pre ++ l') as Heq.
  { eapply Chain_unique; [done | by apply chain_parent with p]. }
  apply (f_equal length) in Heq. simpl in Heq. rewrite length_app in Heq. lia.
Qed.

Lemma Chain_length c l : Chain m c l → length l ≤ S (size m).
Proof.
  intros Hl. assert (Js.truthy_str c = true) as Ht by (by destruct Hl).
  destruct (Chain_exists m c (Chain_Acyclic m c l Hl) Ht) as (l' & Hl' & Hlen).
  by rewrite (Chain_unique m c l l' Hl Hl').
Qed.

(** Neighbours in a chain are child and parent. *)
Lemma Chain_links c l pre a b post :
  Chain m c l → l = pre ++ a :: b :: post → m !! a = Some (Some b).
Proof.
  intros Hl. revert pre. induction Hl as [c Ht Hm | c v Ht Hm Hv | c p l Ht Hm Hp Hl IH];
    intros pre Heq.
  - destruct pre as [|? [|? ?]]; done.
  - destruct pre as [|? [|? ?]]; done.
  - destruct pre as [|x pre]; simpl in Heq.
    + injection Heq as <- Hl'. destruct (Chain_head _ _ _ Hl) as [l' ->].
      by injection Hl' as <- _.
    + injection Heq as _ Hl'. by apply (IH pre).
Qed.

(** Property X4.  The loop ends exactly on the chains without a cycle. *)
Theorem pathToRoot_terminates_iff (targetId : string) :
  Js.truthy_str targetId = true →
  (∃ fuel path, pathToRoot fuel (Some targetId) m = Some path) ↔
  Acyclic_from m targetId.
Proof.
  intros Ht. split.
  - intros (fuel & path & Hw).
    destruct (walk_result _ _ _ _ Ht Hw) as (l & Hl & _). by eapply Chain_Acyclic.
  - intros Hacyc. destruct (Chain_exists m targetId Hacyc Ht) as (l & Hl & Hlen).
    exists (S (length l)), (rev l). unfold pathToRoot.
    by rewrite (walk_Chain m _ _ [] _ Hl) by lia.
Qed.

(** Property X5.  A returned path repeats no id, has at most one element more than the
    map has keys, and lists each id right after its recorded parent. *)
Theorem pathToRoot_shape (fuel : nat) (targetId : string) (path : list string) :
  Js.truthy_str targetId = true →
  pathToRoot fuel (Some targetId) m = Some path →
  NoDup path ∧
  length path ≤ S (size m) ∧
  last path = Some targetId ∧
  ∀ pre parent child post,
    path = pre ++ parent :: child :: post →
    m !! child = Some (Some parent).
Proof.
  intros Ht Hw. destruct (walk_result _ _ _ _ Ht Hw) as (l & Hl & ->).
  simpl. repeat split.
  - apply NoDup_ListNoDup, NoDup_rev, NoDup_ListNoDup. by eapply Chain_NoDup.
  - rewrite length_rev. by eapply Chain_length.
  - destruct (Chain_head _ _ _ Hl) as [l' ->]. simpl. by rewrite last_snoc.
  - intros pre parent child post Heq.
    apply (Chain_links _ _ (rev post) child parent (rev pre) Hl).
    rewrite <- (rev_involutive l), Heq, rev_app_distr. simpl.
    by rewrite <- !app_assoc.
Qed.

(** Property X6.  The path of a child is the path of its parent followed by the child. *)
Theorem pathToRoot_child (fuel : nat) (child parent : string) (path : list string) :
  Js.truthy_str child = true →
  m !! child = Some (Some parent) →
  pathToRoot fuel (Some parent) m = Some path →
  pathToRoot (S fuel) (Some child) m = Some (path ++ [child]).
Proof.
  intros Ht Hm Hw. unfold pathToRoot in *. simpl. rewrite Ht, Hm.
  pose proof (walk_prefix fuel (Some parent) [child] []) as H.
  simpl in H. by rewrite H, Hw.
Qed.

End PathToRootMore.

Section PathToRootMoreExamples.
Import PathToRoot.

Lemma pathToRoot_terminates_iff_witness :
  (∃ fuel path, pathToRoot fuel (Some "leaf") family = Some path) ↔
  Acyclic_from family "leaf".
Proof. apply (pathToRoot_terminates_iff family "leaf"). reflexivity. Defined.

Lemma pathToRoot_shape_witness :
  NoDup ["top"; "mid"; "leaf"] ∧
  length ["top"; "mid"; "leaf"] ≤ S (size family) ∧
  last ["top"; "mid"; "leaf"] = Some "leaf" ∧
  ∀ pre parent child post,
    ["top"; "mid"; "leaf"] = pre ++ parent :: child :: post →
    family !! child = Some (Some parent).
Proof.
  apply (pathToRoot_shape family 5 "leaf"); [reflexivity | vm_compute; reflexivity].
Defined.

Lemma pathToRoot_child_witness :
  pathToRoot 5 (Some "leaf") family = Some (["top"; "mid"] ++ ["leaf"]).
Proof.
  apply (pathToRoot_child family 4 "leaf" "mid");
    [reflexivity | vm_compute; reflexivity | vm_compute; reflexivity].
Defined.

End PathToRootMoreExamples.

(** ** The hierarchy: which features are in the tree *)

Section HierarchyMore.
Import Hierarchy.
Implicit Types (fs : list Feature) (t : D3.Node Feature).

Lemma Child_kids fs x p : Child fs x p → x ∈ kids fs p.
Proof.
  intros (f & Hf & <- & Hp & Ht & _). unfold kids.
  apply list_elem_of_fmap. exists f. split; [done|].
  by apply list_elem_of_filter.
Qed.

Lemma hierarchy_unfold fs fuel k t :
  hierarchy fuel (objects fs) k = Some t →
  ∃ f ts, t = D3.mkNode f ts ∧ f ∈ fs ∧ id f = k ∧
          Forall2 (λ c t', hierarchy (pred fuel) (objects fs) c = Some t') (kids fs k) ts.
Proof.
  destruct fuel as [|fuel]; [done|]. simpl.
  destruct (objects fs !! k) as [o|] eqn:Hk; [|done].
  apply objects_lookup_inv in Hk as (f & Hf & Hid & ->). simpl.
  destruct (mapM _ _) as [ts|] eqn:Hts; [|done]. intros [= <-].
  exists f, ts. repeat split; try done. by apply mapM_Some.
Qed.

Lemma hierarchy_root_label fs fuel k t :
  hierarchy fuel (objects fs) k = Some t → k ∈ labels t.
Proof.
  intros (f & ts & -> & _ & <- & _)%hierarchy_unfold. apply labels_node. by left.
Qed.

(** Whatever is in the tree reaches the key at its root by parent steps. *)
Lemma hierarchy_labels_rtc fs fuel k t x :
  hierarchy fuel (objects fs) k = Some t → x ∈ labels t → rtc (Child fs) x k.
Proof.
  revert k t. induction fuel as [|fuel IH]; intros k t Ht; [done|].
  pose proof (hierarchy_labels _ _ _ _ k Ht (hierarchy_root_label _ _ _ _ Ht)) as [Hk _].
  destruct (hierarchy_unfold _ _ _ _ Ht) as (f & ts & -> & Hf & Hid & Hts). simpl in Hts.
  intros [->|(t' & Ht' & Hx)]%labels_node; [by rewrite Hid|].
  destruct (proj1 (list_elem_of_lookup _ _) Ht') as [i Hi].
  destruct (Forall2_lookup_r _ _ _ _ _ Hts Hi) as (c & Hc & Hct).
  eapply rtc_r; [by eapply IH|].
  apply kids_Child; [done|]. by eapply list_elem_of_lookup_2.
Qed.

(** The tree is closed under children. *)
Lemma hierarchy_labels_child fs fuel k t p x :
  hierarchy fuel (objects fs) k = Some t →
  p ∈ labels t → Child fs x p → x ∈ labels t.
Proof.
  revert k t. induction fuel as [|fuel IH]; intros k t Ht; [done|].
  destruct (hierarchy_unfold _ _ _ _ Ht) as (f & ts & -> & Hf & Hid & Hts). simpl in Hts.
  intros [->|(t' & Ht' & Hp)]%labels_node Hx; apply labels_node; right.
  - rewrite Hid in Hx. apply Child_kids in Hx.
    destruct (proj1 (list_elem_of_lookup _ _) Hx) as [i Hi].
    destruct (Forall2_lookup_l _ _ _ _ _ Hts Hi) as (t' & Ht' & Hxt).
    exists t'. split; [by eapply list_elem_of_lookup_2 | by eapply hierarchy_root_label].
  - exists t'. split; [done|].
    destruct (proj1 (list_elem_of_lookup _ _) Ht') as [i Hi].
    destruct (Forall2_lookup_r _ _ _ _ _ Hts Hi) as (c & Hc & Hct).
    by eapply IH.
Qed.

Lemma hierarchy_labels_iff fs fuel k t x :
  hierarchy fuel (objects fs) k = Some t →
  x ∈ labels t ↔ rtc (Child fs) x k.
Proof.
  intros Ht. split; [by eapply hierarchy_labels_rtc|].
  revert x. apply (rtc_ind_l (λ x, x ∈ labels t)).
  - by eapply hierarchy_root_label.
  - intros x y Hxy Hyk IH. by eapply hierarchy_labels_child.
Qed.

(** *** No feature twice *)

Lemma UpChain_split fs c l x :
  UpChain fs c l → x ∈ l → ∃ pre l', l = pre ++ l' ∧ UpChain fs x l'.
Proof.
  induction 1 as [c Htop | c p l Hc Hl IH].
  - intros ->%list_elem_of_singleton. exists [], [c]. split; [done | by constructor].
  - intros [->|Hx]%elem_of_cons.
    + exists [], (c :: l). split; [done | by apply up_step with p].
    + destruct (IH Hx) as (pre & l' & -> & Hl'). by exists (c :: pre), l'.
Qed.

Lemma UpChain_extend fs x k l :
  rtc (Child fs) x k → UpChain fs k l → ∃ pre, UpChain fs x (pre ++ l).
Proof.
  intros Hxk Hl. revert x Hxk.
  apply (rtc_ind_l (λ x, ∃ pre, UpChain fs x (pre ++ l))).
  - by exists [].
  - intros x y Hxy Hyk [pre Hpre]. exists (x :: pre). by apply up_step with y.
Qed.

Lemma UpChain_reach fs x l y :
  NoDup (ids fs) → UpChain fs x l → rtc (Child fs) x y → y ∈ l.
Proof.
  intros Hnd Hl Hxy. revert l Hl. revert x Hxy.
  apply (rtc_ind_l (λ x, ∀ l, UpChain fs x l → y ∈ l)).
  - intros l Hl. destruct (UpChain_head _ _ _ Hl) as [l' ->]. apply elem_of_cons. by left.
  - intros x z Hxz Hzy IH l Hl.
    inversion Hl as [? Htop | ? p l' Hp Hl']; subst.
    + by destruct (Htop z).
    + rewrite (Child_functional _ _ _ _ Hnd Hxz Hp) in *.
      apply elem_of_cons. right. by apply IH.
Qed.

Lemma kids_NoDup fs k : NoDup (ids fs) → NoDup (kids fs k).
Proof.
  induction fs as [|f fs IH]; [constructor|].
  unfold ids. rewrite fmap_cons, NoDup_cons. intros [Hf Hnd]. rewrite kids_cons.
  destruct (decide _) as [_|_]; simpl; [|by apply IH].
  apply NoDup_cons. split; [|by apply IH].
  intros Hin. apply Hf. by eapply kids_ids.
Qed.

Lemma NoDup_concat {A} (ls : list (list A)) :
  (∀ l, l ∈ ls → NoDup l) →
  (∀ i j l1 l2 x, ls !! i = Some l1 → ls !! j = Some l2 → x ∈ l1 → x ∈ l2 → i = j) →
  NoDup (concat ls).
Proof.
  induction ls as [|l ls IH]; intros Heach Hdisj; simpl; [constructor|].
  apply NoDup_app. split; [apply Heach, elem_of_cons; by left|]. split.
  - intros x Hx Hin. apply elem_of_concat in Hin as (l' & Hl' & Hx').
    apply list_elem_of_lookup in Hl' as [j Hj].
    by pose proof (Hdisj 0 (S j) l l' x eq_refl Hj Hx Hx').
  - apply IH.
    + intros l' Hl'. apply Heach, elem_of_cons. by right.
    + intros i j l1 l2 x Hi Hj H1 H2.
      by injection (Hdisj (S i) (S j) l1 l2 x Hi Hj H1 H2).
Qed.

Lemma fmap_concat {A B} (f : A → B) (ls : list (list A)) :
  f <$> concat ls = concat ((λ l : list A, f <$> l) <$> ls).
Proof. induction ls as [|l ls IH]; [done|]. simpl. by rewrite fmap_app, IH. Qed.

Lemma labels_mkNode (d : Feature) ts :
  labels (D3.mkNode d ts) = id d :: concat (labels <$> ts).
Proof.
  unfold labels. simpl. f_equal. rewrite fmap_concat. f_equal.
  by rewrite <- list_fmap_compose.
Qed.

Lemma hierarchy_NoDup fs fuel k l t :
  NoDup (ids fs) → UpChain fs k l →
  hierarchy fuel (objects fs) k = Some t → NoDup (labels t).
Proof.
  intros Hnd. revert k l t. induction fuel as [|fuel IH]; intros k l t Hl Ht; [done|].
  pose proof (hierarchy_labels _ _ _ _ k Ht (hierarchy_root_label _ _ _ _ Ht)) as [Hk _].
  destruct (hierarchy_unfold _ _ _ _ Ht) as (f & ts & -> & Hf & Hid & Hts). simpl in Hts.
  assert (∀ i t', ts !! i = Some t' →
            ∃ c, kids fs k !! i = Some c ∧ UpChain fs c (c :: l) ∧
                 hierarchy fuel (objects fs) c = Some t') as Hkid.
  { intros i t' Ht'.
    destruct (Forall2_lookup_r _ _ _ _ _ Hts Ht') as (c & Hc & Hct).
    exists c. split; [done|]. split; [|done].
    apply up_step with k; [|done]. apply kids_Child; [done|].
    by eapply list_elem_of_lookup_2. }
  assert (∀ i t' x, ts !! i = Some t' → x ∈ labels t' →
            ∃ c pre, kids fs k !! i = Some c ∧ UpChain fs x (pre ++ c :: l)) as Hup.
  { intros i t' x Ht' Hx. destruct (Hkid i t' Ht') as (c & Hc & Hcl & Hct).
    exists c. destruct (UpChain_extend fs x c (c :: l)) as [pre Hpre]; [|done|by eauto].
    by eapply hierarchy_labels_rtc. }
  rewrite labels_mkNode. apply NoDup_cons. split.
  - intros Hin. apply elem_of_concat in Hin as (ds & Hds & Hin).
    apply list_elem_of_fmap in Hds as (t' & -> & Ht').
    apply list_elem_of_lookup in Ht' as [i Hi].
    destruct (Hup i t' (id f) Hi Hin) as (c & pre & Hc & Hchain).
    rewrite Hid in Hchain.
    assert (UpChain fs k (pre ++ c :: l) → False) as Hno; [|by apply Hno].
    intros Hchain'. rewrite (UpChain_unique _ _ _ _ Hnd Hchain' Hl) in Hchain'.
    pose proof (f_equal length (UpChain_unique _ _ _ _ Hnd Hchain Hl)) as Hlen.
    rewrite length_app in Hlen. simpl in Hlen. lia.
  - apply NoDup_concat.
    + intros ds (t' & -> & Ht')%list_elem_of_fmap.
      apply list_elem_of_lookup in Ht' as [i Hi].
      destruct (Hkid i t' Hi) as (c & _ & Hcl & Hct). by eapply IH.
    + intros i j l1 l2 x Hi Hj H1 H2.
      rewrite list_lookup_fmap in Hi, Hj.
      destruct (ts !! i) as [t1|] eqn:Hti; [|done].
      destruct (ts !! j) as [t2|] eqn:Htj; [|done].
      injection Hi as <-. injection Hj as <-.
      destruct (Hup i t1 x Hti H1) as (c1 & pre1 & Hc1 & Hch1).
      destruct (Hup j t2 x Htj H2) as (c2 & pre2 & Hc2 & Hch2).
      pose proof (UpChain_unique _ _ _ _ Hnd Hch1 Hch2) as Heq.
      assert (pre1 ++ [c1] = pre2 ++ [c2]) as Heq'.
      { apply (app_inv_tail l). by rewrite <- !app_assoc. }
      apply app_inj_tail in Heq' as [_ ->].
      eapply NoDup_lookup; [by apply kids_NoDup | done..].
Qed.

Lemma hierarchy_subtree fs fuel k t p node :
  hierarchy fuel (objects fs) k = Some t → D3.node_at t p = Some node →
  ∃ fuel' k', hierarchy fuel' (objects fs) k' = Some node.
Proof.
  revert fuel k t. induction p as [|i p IH]; intros fuel k t Ht; simpl.
  - intros [= <-]. eauto.
  - destruct (hierarchy_unfold _ _ _ _ Ht) as (f & ts & -> & _ & _ & Hts). simpl.
    destruct (ts !! i) as [t'|] eqn:Hi; [|done].
    destruct (Forall2_lookup_r _ _ _ _ _ Hts Hi) as (c & _ & Hct).
    by apply (IH _ _ _ Hct).
Qed.

Lemma hierarchy_children fs fuel k t :
  hierarchy fuel (objects fs) k = Some t →
  id (D3.data t) = k ∧ (id ∘ D3.data) <$> D3.children t = kids fs k.
Proof.
  intros (f & ts & -> & _ & Hid & Hts)%hierarchy_unfold. split; [done|]. simpl.
  induction Hts as [|c t' cs ts Hc _ IH]; [done|].
  rewrite fmap_cons, IH. f_equal. simpl.
  by destruct (hierarchy_unfold _ _ _ _ Hc) as (f' & ts' & -> & _ & ? & _).
Qed.

(** Property X7.  For distinct ids, none of them ["__proto__"], and no
    dangling parent that names a member of [Object.prototype], the tree
    built from the first parentless feature holds exactly the
    features whose chain of parents leads to it, each of them once, so it
    has no more nodes than the list has features; the children of a node
    are the features that name it as their parent, in input order. *)
Theorem buildHierarchy_members (features : list Feature) (r : Feature) :
  NoDup (ids features) →
  Plain features →
  rootFeature features = Some r →
  ∃ t, (∀ fuel, length features ≤ fuel →
          buildHierarchy fuel features = ReturnsTree t) ∧
       (∀ x, x ∈ labels t ↔ rtc (Child features) x (id r)) ∧
       NoDup (labels t) ∧
       length (labels t) ≤ length features ∧
       ∀ p node, D3.node_at t p = Some node →
         (id ∘ D3.data) <$> D3.children node = kids features (id (D3.data node)).
Proof.
  intros Hnd Hplain Hroot. destruct (rootFeature_Some _ _ Hroot) as [Hr Hpl].
  destruct (hierarchy_from_root _ _ Hnd Hr Hpl) as [t Ht].
  pose proof (Ht _ (le_n _)) as Ht0.
  assert (NoDup (labels t)) as Hnodup.
  { eapply (hierarchy_NoDup _ _ (id r) [id r]); [done | | done].
    constructor. by apply Parentless_top. }
  exists t. split; [|split; [|split; [|split]]].
  - intros fuel Hfuel. rewrite (buildHierarchy_objects _ _ (index_Plain _ Hplain)).
    by rewrite Hroot, Ht.
  - intros x. by eapply hierarchy_labels_iff.
  - done.
  - replace (length features) with (length (ids features))
      by (unfold ids; apply length_fmap).
    apply submseteq_length, NoDup_submseteq; [done|].
    intros x Hx. by destruct (hierarchy_labels _ _ _ _ _ Ht0 Hx).
  - intros p node Hnode.
    destruct (hierarchy_subtree _ _ _ _ _ _ Ht0 Hnode) as (fuel' & k' & Hsub).
    destruct (hierarchy_children _ _ _ _ Hsub) as [-> Hkids]. done.
Qed.

Lemma buildHierarchy_members_witness :
  ∃ t, (∀ fuel, length sample ≤ fuel →
          buildHierarchy fuel sample = ReturnsTree t) ∧
       (∀ x, x ∈ labels t ↔ rtc (Child sample) x "root") ∧
       NoDup (labels t) ∧
       length (labels t) ≤ length sample ∧
       ∀ p node, D3.node_at t p = Some node →
         (id ∘ D3.data) <$> D3.children node = kids sample (id (D3.data node)).
Proof.
  apply (buildHierarchy_members sample (mkFeature "root" (Some "Root") "mandatory" None)).
  - apply (bool_decide_unpack (NoDup (ids sample))). vm_compute. exact I.
  - apply plainb_Plain. vm_compute. reflexivity.
  - reflexivity.
Defined.

End HierarchyMore.

(** ** The live search of the control bar *)

Section ControlBarFacts.
Import Search ControlBar.

Lemma normalize_blank query :
  normalize query = "" ↔ Js.truthy (trim <$> query) = false.
Proof.
  unfold normalize. rewrite toLowerCase_empty, truthy_false.
  destruct query as [q|].
  - replace (Js.or_else (Some q) "") with q by (by destruct q). simpl.
    split; [intros ->; by right | by intros [?|[= ->]]].
  - simpl. split; [by left | done].
Qed.

Lemma searchFeatures_length (features : list Feature) keyword :
  length (searchFeatures features keyword) ≤ length features.
Proof.
  unfold searchFeatures. destruct (negb _); simpl; [lia|].
  rewrite length_map. apply filter_length_le.
Qed.

(** Property X8.  The hits stored by the control bar are in every case the result of
    [searchFeatures] on the query: the blank-query guard of the effect
    agrees with the one inside the search.  The count is hidden exactly for
    a blank query and is otherwise the number of hits, at most the number
    of features; "no match" is shown exactly when a non-blank query matches
    no feature. *)
Theorem liveSearch_spec (model : option Store.Model) (query : option string) :
  let features := from_option Store.features [] model in
  let state := liveSearch model query in
  searchHits state = searchFeatures features query ∧
  (resultCount state = None ↔ normalize query = "") ∧
  (if resultCount state is Some n
   then n = length (searchHits state) ∧ n ≤ length features else True) ∧
  (feedback (resultCount state) = NoMatch ↔
     normalize query ≠ "" ∧ Forall (λ f, ¬ Matches (normalize query) f) features).
Proof.
  intros features state. unfold state, liveSearch. fold features.
  destruct (Js.truthy (trim <$> query)) eqn:Hq; simpl.
  - assert (normalize query ≠ "") as Hne.
    { rewrite normalize_blank. congruence. }
    split; [done|]. split; [done|]. split; [split; [done | apply searchFeatures_length]|].
    destruct (length (searchFeatures features query)) as [|n] eqn:Hlen.
    + apply nil_length_inv in Hlen. simpl. split; [|done]. intros _. split; [done|].
      apply Forall_forall. intros f Hf Hm.
      assert (id f ∈ searchFeatures features query) as Hin.
      { apply elem_of_search. split; [done|]. by exists f. }
      rewrite Hlen in Hin. by apply elem_of_nil in Hin.
    + simpl. split; [done|]. intros [_ Hall].
      destruct (searchFeatures features query) as [|i hits] eqn:Hs; [done|].
      assert (i ∈ searchFeatures features query) as Hin by (rewrite Hs; apply elem_of_cons; by left).
      apply elem_of_search in Hin as (_ & f & Hf & _ & Hm).
      rewrite Forall_forall in Hall. by destruct (Hall f Hf).
  - apply normalize_blank in Hq. split.
    + unfold searchFeatures. by rewrite Hq.
    + split; [done|]. split; [done|]. split; [done | by intros [? _]].
Qed.

End ControlBarFacts.

(** ** The feature list panel *)

Section FeatureListFacts.
Import Hierarchy FeatureList.
Implicit Types (fs : list Feature) (t : D3.Node Feature).

(** Induction on a tree of nodes, with the property known for all
    children. *)
Lemma Node_ind_children {A} (P : D3.Node A → Prop) :
  (∀ d cs, Forall P cs → P (D3.mkNode d cs)) → ∀ n, P n.
Proof.
  intros Hstep. fix IH 1. intros [d cs]. apply Hstep.
  induction cs as [|c cs IHcs]; constructor; [apply IH | apply IHcs].
Qed.

Lemma rows_of_mkNode hits d (f : Feature) ts :
  rows_of hits d (D3.mkNode f ts) =
  mkRow (id f) (d * 14) (includes hits (id f))
  :: concat (rows_of hits (S d) <$> ts).
Proof. done. Qed.

Lemma concat_fmap_ext {A B C} (g : B → C) (h1 : A → list B) (h2 : A → list C)
    (l : list A) :
  Forall (λ x, g <$> h1 x = h2 x) l →
  g <$> concat (h1 <$> l) = concat (h2 <$> l).
Proof.
  induction 1 as [|x l Hx _ IH]; [done|].
  by rewrite !fmap_cons, !concat_cons, fmap_app, Hx, IH.
Qed.

(** The ids of the entries of a tree are its labels, in the same order. *)
Lemma rows_of_ids hits d t : rid <$> rows_of hits d t = labels t.
Proof.
  revert d. induction t as [f ts IH] using Node_ind_children. intros d.
  rewrite rows_of_mkNode, labels_mkNode, fmap_cons. simpl. f_equal.
  apply concat_fmap_ext. eapply Forall_impl; [exact IH|]. by intros t Ht.
Qed.

Lemma rows_of_hit hits d t row :
  row ∈ rows_of hits d t → isSearchHit row = includes hits (rid row).
Proof.
  revert d. induction t as [f ts IH] using Node_ind_children. intros d.
  rewrite rows_of_mkNode. intros [->|Hin]%elem_of_cons; [done|].
  apply elem_of_concat in Hin as (l & Hl & Hrow).
  apply list_elem_of_fmap in Hl as (t & -> & Ht).
  rewrite Forall_forall in IH. by eapply IH.
Qed.

(** An entry is indented by 14 pixels for each step between its node and
    the root of its tree. *)
Lemma rows_of_margin hits d t row :
  row ∈ rows_of hits d t →
  ∃ p node, D3.node_at t p = Some node ∧ rid row = id (D3.data node) ∧
            marginLeft row = (d + length p) * 14.
Proof.
  revert d. induction t as [f ts IH] using Node_ind_children. intros d.
  rewrite rows_of_mkNode. intros [->|Hin]%elem_of_cons.
  - exists [], (D3.mkNode f ts). simpl. split; [done|]. split; [done|]. f_equal. lia.
  - apply elem_of_concat in Hin as (l & Hl & Hrow).
    apply list_elem_of_fmap in Hl as (t & -> & Ht).
    rewrite Forall_forall in IH.
    destruct (IH t Ht (S d) Hrow) as (p & node & Hp & Hid & Hm).
    apply list_elem_of_lookup in Ht as [i Hi].
    exists (i :: p), node. simpl. rewrite Hi. split; [done|]. split; [done|].
    rewrite Hm. f_equal. lia.
Qed.

Lemma mapM_fmap_fuse {A B C} (f : A → option B) (g : B → C) (l : list A) :
  mapM (λ x, g <$> f x) l = fmap g <$> mapM f l.
Proof.
  induction l as [|x l IH]; [done|]. simpl. rewrite IH.
  destruct (f x); simpl; [|done]. by destruct (mapM f l).
Qed.

(** Rendering a list of objects is unfolding each of them into a tree and
    listing the entries of the trees. *)
Lemma renderTree_forest (map : gmap string Obj) hits n keys d :
  renderTree (S n) map hits keys d =
  (λ ts, concat (rows_of hits d <$> ts)) <$> mapM (hierarchy (S n) map) keys.
Proof.
  revert keys d. induction n as [|n IH]; intros keys d.
  - simpl renderTree.
    assert (∀ key,
      match map !! key with
      | Some f =>
          match children f with
          | [] => Some [mkRow (id (feature f)) (d * 14) (includes hits (id (feature f)))]
          | _ :: _ => cons (mkRow (id (feature f)) (d * 14) (includes hits (id (feature f))))
                        <$> None
          end
      | None => None
      end = rows_of hits d <$> hierarchy 1 map key) as Hkey.
    { intros key. simpl. destruct (map !! key) as [o|]; [|done].
      destruct (children o); done. }
    erewrite mapM_ext; [|exact Hkey]. rewrite mapM_fmap_fuse.
    by destruct (mapM (hierarchy 1 map) keys).
  - change (renderTree (S (S n)) map hits keys d) with
      (@concat Row <$>
       mapM (λ key,
          match map !! key with
          | Some f =>
              let row := mkRow (id (feature f)) (d * 14)
                               (includes hits (id (feature f))) in
              match children f with
              | [] => Some [row]
              | kids => cons row <$> renderTree (S n) map hits kids (S d)
              end
          | None => None
          end) keys).
    assert (∀ key,
      match map !! key with
      | Some f =>
          let row := mkRow (id (feature f)) (d * 14)
                           (includes hits (id (feature f))) in
          match children f with
          | [] => Some [row]
          | kids => cons row <$> renderTree (S n) map hits kids (S d)
          end
      | None => None
      end = rows_of hits d <$> hierarchy (S (S n)) map key) as Hkey.
    { intros key. change (hierarchy (S (S n)) map key) with
        (match map !! key with
         | Some o =>
             match mapM (hierarchy (S n) map) (children o) with
             | Some kids => Some (D3.mkNode (feature o) kids)
             | None => None
             end
         | None => None
         end).
      destruct (map !! key) as [o|]; [|done].
      destruct (children o) as [|c cs] eqn:Hc; [done|].
      cbv zeta. rewrite IH.
      by destruct (mapM (hierarchy (S n) map) (c :: cs)). }
    erewrite mapM_ext; [|exact Hkey]. rewrite mapM_fmap_fuse.
    by destruct (mapM (hierarchy (S (S n)) map) keys).
Qed.

Lemma roots_elem fs k :
  k ∈ (roots fs) ↔ ∃ r, r ∈ fs ∧ Parentless r ∧ id r = k.
Proof.
  unfold roots. rewrite list_elem_of_fmap. split.
  - intros (r & -> & [Hp Hr]%list_elem_of_filter). by exists r.
  - intros (r & Hr & Hp & <-). exists r. split; [done|]. by apply list_elem_of_filter.
Qed.

Lemma roots_NoDup fs : NoDup (ids fs) → NoDup (roots fs).
Proof.
  unfold roots, ids. induction fs as [|f fs IH]; [constructor|].
  rewrite fmap_cons, NoDup_cons. intros [Hf Hnd]. rewrite filter_cons.
  destruct (decide _) as [_|_]; [|by apply IH].
  rewrite fmap_cons. apply NoDup_cons. split; [|by apply IH].
  intros (g & Hid & [_ Hg]%list_elem_of_filter)%list_elem_of_fmap.
  apply Hf, list_elem_of_fmap. eauto.
Qed.

(** With distinct ids every parentless feature unfolds into a tree. *)
Lemma forest_exists fs :
  NoDup (ids fs) →
  ∃ ts, Forall2 (λ k t, ∀ fuel, length fs ≤ fuel →
                        hierarchy fuel (objects fs) k = Some t)
                (roots fs) ts.
Proof.
  intros Hnd.
  assert (Forall (λ k, ∃ r, r ∈ fs ∧ Parentless r ∧ id r = k) (roots fs)) as Hall.
  { apply Forall_forall. intros k. apply roots_elem. }
  induction Hall as [|k ks (r & Hr & Hp & <-) _ [ts IH]]; [by exists []|].
  destruct (hierarchy_from_root _ _ Hnd Hr Hp) as [t Ht].
  exists (t :: ts). by constructor.
Qed.

Lemma forest_mapM fs ts fuel :
  Forall2 (λ k t, ∀ fuel, length fs ≤ fuel → hierarchy fuel (objects fs) k = Some t)
          (roots fs) ts →
  length fs ≤ fuel →
  mapM (hierarchy fuel (objects fs)) (roots fs) = Some ts.
Proof.
  intros Hts Hfuel. apply mapM_Some.
  eapply Forall2_impl; [exact Hts|]. intros k t Ht. by apply Ht.
Qed.

Lemma top_unique fs x r r' :
  NoDup (ids fs) →
  (∀ p, ¬ Child fs r p) → (∀ p, ¬ Child fs r' p) →
  rtc (Child fs) x r → rtc (Child fs) x r' → r = r'.
Proof.
  intros Hnd Hr Hr' Hxr. revert x Hxr.
  apply (rtc_ind_l (λ x, rtc (Child fs) x r' → r = r')).
  - intros [->|(y & Hy & _)]%rtc_inv; [done | by destruct (Hr y)].
  - intros x y Hxy Hyr IH [->|(y' & Hy' & Hrest)]%rtc_inv; [by destruct (Hr' y)|].
    rewrite (Child_functional _ _ _ _ Hnd Hy' Hxy) in Hrest. by apply IH.
Qed.

(** A node [n] levels below the root of an unfolded tree is [n] parent
    steps away from it. *)
Lemma hierarchy_depth fs fuel k t p node :
  hierarchy fuel (objects fs) k = Some t → D3.node_at t p = Some node →
  nsteps (Child fs) (length p) (id (D3.data node)) k.
Proof.
  revert fuel k t. induction p as [|i p IH]; intros fuel k t Ht; simpl.
  - intros [= <-]. destruct (hierarchy_children _ _ _ _ Ht) as [-> _]. constructor.
  - pose proof (hierarchy_labels _ _ _ _ k Ht (hierarchy_root_label _ _ _ _ Ht)) as [Hk _].
    destruct (hierarchy_unfold _ _ _ _ Ht) as (f & ts & -> & _ & _ & Hts). simpl.
    destruct (ts !! i) as [t'|] eqn:Hi; [|done].
    destruct (Forall2_lookup_r _ _ _ _ _ Hts Hi) as (c & Hc & Hct).
    intros Hnode. eapply nsteps_r; [by eapply IH|].
    apply kids_Child; [done|]. by eapply list_elem_of_lookup_2.
Qed.

Lemma panel_forest fs ts hits fuel :
  Forall2 (λ k t, ∀ fuel, length fs ≤ fuel → hierarchy fuel (objects fs) k = Some t)
          (roots fs) ts →
  length fs < fuel →
  index fs = JsObject.Normal (objects fs) →
  panel fuel fs hits = JsObject.Normal (Some (concat (rows_of hits 0 <$> ts))).
Proof.
  intros Hts Hfuel Hi. unfold panel, buildHierarchy. rewrite Hi. f_equal.
  destruct fuel as [|n]; [lia|].
  rewrite renderTree_forest, (forest_mapM _ ts) by (done || lia). done.
Qed.

(** Property X9.  With distinct ids, none of them ["__proto__"], and no
    dangling parent that names a member of [Object.prototype], the panel
    is rendered and lists exactly the features whose chain of
    parents ends at a parentless feature, each of them once.  An entry is
    marked as a hit exactly when its id is among the search hits, and is
    indented by 14 pixels per parent step up to its root. *)
Theorem panel_rows (features : list Feature) (searchHits : option (list string)) :
  NoDup (ids features) →
  Plain features →
  ∃ rows,
    (∀ fuel, length features < fuel →
       panel fuel features searchHits = JsObject.Normal (Some rows)) ∧
    NoDup (rid <$> rows) ∧
    (∀ x, x ∈ rid <$> rows ↔
          ∃ r, r ∈ features ∧ Parentless r ∧ rtc (Child features) x (id r)) ∧
    ∀ row, row ∈ rows →
      isSearchHit row = includes searchHits (rid row) ∧
      ∃ n r, marginLeft row = n * 14 ∧ r ∈ features ∧ Parentless r ∧
             nsteps (Child features) n (rid row) (id r).
Proof.
  intros Hnd Hplain. destruct (forest_exists _ Hnd) as [ts Hts].
  exists (concat (rows_of searchHits 0 <$> ts)).
  assert (∀ i k t, (roots features) !! i = Some k → ts !! i = Some t →
            hierarchy (length features) (objects features) k = Some t ∧
            ∃ r, r ∈ features ∧ Parentless r ∧ id r = k) as Hroot.
  { intros i k t Hk Ht. split.
    - destruct (Forall2_lookup_l _ _ _ _ _ Hts Hk) as (t' & Ht' & Hkt).
      rewrite Ht in Ht'. injection Ht' as <-. by apply Hkt.
    - apply roots_elem. by eapply list_elem_of_lookup_2. }
  assert (∀ i t, ts !! i = Some t → ∃ k, (roots features) !! i = Some k) as Hkey.
  { intros i t Ht. destruct (Forall2_lookup_r _ _ _ _ _ Hts Ht) as (k & Hk & _). eauto. }
  assert (rid <$> concat (rows_of searchHits 0 <$> ts) = concat (labels <$> ts)) as Hids.
  { apply concat_fmap_ext, Forall_forall. intros t _. apply rows_of_ids. }
  split; [|split; [|split]].
  - intros fuel Hfuel. apply panel_forest; [done..|]. by apply index_Plain.
  - rewrite Hids. apply NoDup_concat.
    + intros l (t & -> & Ht)%list_elem_of_fmap.
      apply list_elem_of_lookup in Ht as [i Hi]. destruct (Hkey i t Hi) as [k Hk].
      destruct (Hroot i k t Hk Hi) as (Hkt & r & Hr & Hp & <-).
      eapply (hierarchy_NoDup _ _ (id r) [id r]); [done | | done].
      constructor. by apply Parentless_top.
    + intros i j l1 l2 x Hi Hj H1 H2. rewrite list_lookup_fmap in Hi, Hj.
      destruct (ts !! i) as [t1|] eqn:Hti; [|done].
      destruct (ts !! j) as [t2|] eqn:Htj; [|done].
      injection Hi as <-. injection Hj as <-.
      destruct (Hkey i t1 Hti) as [k1 Hk1]. destruct (Hkey j t2 Htj) as [k2 Hk2].
      destruct (Hroot i k1 t1 Hk1 Hti) as (Hkt1 & r1 & Hr1 & Hp1 & <-).
      destruct (Hroot j k2 t2 Hk2 Htj) as (Hkt2 & r2 & Hr2 & Hp2 & <-).
      assert (id r1 = id r2) as Heq.
      { eapply (top_unique features x); [done | by apply Parentless_top..| |];
          by eapply hierarchy_labels_rtc. }
      rewrite <- Heq in Hk2.
      eapply NoDup_lookup; [by apply roots_NoDup | done..].
  - intros x. rewrite Hids, elem_of_concat. split.
    + intros (l & (t & -> & Ht)%list_elem_of_fmap & Hx).
      apply list_elem_of_lookup in Ht as [i Hi]. destruct (Hkey i t Hi) as [k Hk].
      destruct (Hroot i k t Hk Hi) as (Hkt & r & Hr & Hp & <-).
      exists r. split; [done|]. split; [done|]. by eapply hierarchy_labels_rtc.
    + intros (r & Hr & Hp & Hx).
      assert (id r ∈ (roots features)) as Hin by (apply roots_elem; eauto).
      apply list_elem_of_lookup in Hin as [i Hi].
      destruct (Forall2_lookup_l _ _ _ _ _ Hts Hi) as (t & Ht & Hkt).
      exists (labels t). split; [apply list_elem_of_fmap; exists t; split; [done|];
                              by eapply list_elem_of_lookup_2|].
      eapply hierarchy_labels_iff; [by apply Hkt|done].
  - intros row (l & (t & -> & Ht)%list_elem_of_fmap & Hrow)%elem_of_concat.
    split; [by eapply rows_of_hit|].
    apply list_elem_of_lookup in Ht as [i Hi]. destruct (Hkey i t Hi) as [k Hk].
    destruct (Hroot i k t Hk Hi) as (Hkt & r & Hr & Hp & <-).
    destruct (rows_of_margin _ _ _ _ Hrow) as (p & node & Hnode & Hid & Hm).
    exists (length p), r. split; [done|]. split; [done|]. split; [done|].
    rewrite Hid. by eapply hierarchy_depth.
Qed.

(** Property X10.  With distinct ids, none of them ["__proto__"], and no
    dangling parent that names a member of [Object.prototype], neither
    build throws, and the panel starts with the features of the graph, in
    the order of the
    graph's tree (a node before its subtrees, children from left to right);
    the features of the further roots follow.  It is empty exactly when
    the graph's build returns [null]. *)
Theorem panel_extends_graph (features : list Feature)
    (searchHits : option (list string)) :
  NoDup (ids features) →
  Plain features →
  match Hierarchy.buildHierarchy (length features) features with
  | ReturnsTree t =>
      ∃ rows rest,
        panel (S (length features)) features searchHits
          = JsObject.Normal (Some rows) ∧
        rid <$> rows = labels t ++ rest
  | ReturnsNull =>
      panel (S (length features)) features searchHits = JsObject.Normal (Some [])
  | Unfinished | Throws => False
  end.
Proof.
  intros Hnd Hplain. destruct (forest_exists _ Hnd) as [ts Hts].
  pose proof (index_Plain _ Hplain) as Hi.
  assert (panel (S (length features)) features searchHits =
          JsObject.Normal (Some (concat (rows_of searchHits 0 <$> ts)))) as ->.
  { apply panel_forest; [done | lia | done]. }
  rewrite (buildHierarchy_objects _ _ Hi).
  destruct (rootFeature features) as [r|] eqn:Hroot.
  - assert (∃ ks, (roots features) = id r :: ks) as [ks Hks].
    { clear -Hroot. unfold rootFeature, roots in *.
      induction features as [|f fs IH]; [done|]. simpl in Hroot. rewrite filter_cons.
      destruct (Js.truthy (parent f)) eqn:Hp; simpl in Hroot.
      - rewrite decide_False by congruence. by apply IH.
      - injection Hroot as <-. rewrite decide_True by done. rewrite fmap_cons. eauto. }
    rewrite Hks in Hts. inversion Hts as [|? t ? ts' Ht Hts']; subst.
    rewrite (Ht _ (le_n _)). eexists. exists (concat (labels <$> ts')).
    split; [done|]. rewrite fmap_cons, concat_cons, fmap_app, rows_of_ids. f_equal.
    apply concat_fmap_ext, Forall_forall. intros t' _. apply rows_of_ids.
  - assert (roots features = []) as Hks.
    { clear -Hroot. unfold rootFeature, roots in *.
      induction features as [|f fs IH]; [done|]. simpl in Hroot. rewrite filter_cons.
      destruct (Js.truthy (parent f)) eqn:Hp; simpl in Hroot; [|done].
      rewrite decide_False by congruence. by apply IH. }
    rewrite Hks in Hts. by inversion Hts.
Qed.

Lemma panel_hit fuel fs hits rows row :
  panel fuel fs hits = JsObject.Normal (Some rows) → row ∈ rows →
  isSearchHit row = includes hits (rid row).
Proof.
  unfold panel. destruct (buildHierarchy fs) as [[map roots]|]; [|done].
  destruct fuel as [|n]; [done|]. rewrite renderTree_forest.
  destruct (mapM _ _) as [ts|]; [|done]. intros [= <-].
  intros (l & (t & -> & Ht)%list_elem_of_fmap & Hrow)%elem_of_concat.
  by eapply rows_of_hit.
Qed.

(** Property X11.  A click on a feature of the panel stores the text of the feature as the
    query and, unless that text is blank, hits that include the feature:
    in the panel rendered next its entry is marked as a hit. *)
Theorem handleClick_marks_feature (model : Store.Model) (f : Feature)
    (fuel : nat) (rows : list Row) :
  f ∈ Store.features model →
  Search.trim (Search.text f) ≠ "" →
  panel fuel (Store.features model) (Some (handleClick model f).2)
    = JsObject.Normal (Some rows) →
  (handleClick model f).1 = Search.text f ∧
  id f ∈ (handleClick model f).2 ∧
  ∀ row, row ∈ rows → rid row = id f → isSearchHit row = true.
Proof.
  intros Hf Hne Hpanel.
  assert (id f ∈ (handleClick model f).2) as Hhit.
  { unfold handleClick. cbn [snd].
    change (Js.or_else (label f) (id f)) with (Search.text f).
    apply elem_of_search.
    assert (Search.normalize (Some (Search.text f)) =
            Search.toLowerCase (Search.trim (Search.text f))) as ->.
    { unfold Search.normalize. by destruct (Search.text f). }
    split; [by rewrite toLowerCase_empty|].
    exists f. split; [done|]. split; [done|]. unfold Search.Matches.
    destruct (trim_spec (Search.text f)) as (ws1 & ws2 & Ht & _).
    exists (Search.toLowerCase ws1), (Search.toLowerCase ws2).
    rewrite <- !toLowerCase_app. by rewrite <- Ht. }
  split; [done|]. split; [done|].
  intros row Hrow Hid. rewrite (panel_hit _ _ _ _ _ Hpanel Hrow), Hid.
  simpl. by apply bool_decide_eq_true.
Qed.

End FeatureListFacts.

Section FeatureListExamples.
Import Hierarchy FeatureList.

Lemma panel_rows_witness :
  ∃ rows,
    (∀ fuel, length sample < fuel →
       panel fuel sample (Some ["e"]) = JsObject.Normal (Some rows)) ∧
    NoDup (rid <$> rows) ∧
    (∀ x, x ∈ rid <$> rows ↔
          ∃ r, r ∈ sample ∧ Parentless r ∧ rtc (Child sample) x (id r)) ∧
    ∀ row, row ∈ rows →
      isSearchHit row = includes (Some ["e"]) (rid row) ∧
      ∃ n r, marginLeft row = n * 14 ∧ r ∈ sample ∧ Parentless r ∧
             nsteps (Child sample) n (rid row) (id r).
Proof.
  apply (panel_rows sample (Some ["e"])).
  - apply (bool_decide_unpack (NoDup (ids sample))). vm_compute. exact I.
  - apply plainb_Plain. vm_compute. reflexivity.
Defined.

Lemma panel_extends_graph_witness :
  match Hierarchy.buildHierarchy (length sample) sample with
  | ReturnsTree t =>
      ∃ rows rest,
        panel (S (length sample)) sample None = JsObject.Normal (Some rows) ∧
        rid <$> rows = labels t ++ rest
  | ReturnsNull => panel (S (length sample)) sample None = JsObject.Normal (Some [])
  | Unfinished | Throws => False
  end.
Proof.
  apply (panel_extends_graph sample None).
  - apply (bool_decide_unpack (NoDup (ids sample))). vm_compute. exact I.
  - apply plainb_Plain. vm_compute. reflexivity.
Defined.

Lemma handleClick_marks_feature_witness :
  ∃ rows,
    panel 8 sample
          (Some (handleClick (Store.mkModel sample None)
                   (mkFeature "e" (Some "E") "optional" (Some "a"))).2)
      = JsObject.Normal (Some rows) ∧
    ∀ row, row ∈ rows → rid row = "e" → isSearchHit row = true.
Proof.
  eexists. split; [vm_compute; reflexivity|].
  eapply (handleClick_marks_feature (Store.mkModel sample None)
            (mkFeature "e" (Some "E") "optional" (Some "a")) 8).
  - apply list_elem_of_In. simpl. auto 10.
  - discriminate.
  - vm_compute. reflexivity.
Defined.

Example panel_sample :
  ∃ rows, panel 8 sample (Some ["e"; "d"]) = JsObject.Normal (Some rows) ∧
    (λ row, (rid row, marginLeft row, isSearchHit row)) <$> rows =
    [("root", 0, false); ("a", 14, false); ("e", 28, true);
     ("b", 14, false); ("r2", 0, false); ("d", 14, true)].
Proof. eexists. split; vm_compute; reflexivity. Qed.

(** The panel's build throws like the graph's. *)
Example panel_inherited_parent fuel hits :
  panel fuel inherited_parent hits = JsObject.Throw.
Proof.
  unfold panel, buildHierarchy.
  assert (index inherited_parent = JsObject.Throw) as -> by (by vm_compute). done.
Qed.

End FeatureListExamples.

(** ** GraphView: [wrapText] *)

Section WrapTextFacts.
Import WrapText.

Variable measure : string → JsNum.num.
Variable widthLimit : JsNum.num.

Lemma splitFrom_word w s cur :
  has_space w = false →
  splitFrom (w +:+ s) cur false = splitFrom s (cur +:+ w) false.
Proof.
  revert cur. induction w as [|c w IH]; intros cur Hw.
  - rewrite append_empty_l, append_empty_r. reflexivity.
  - simpl in Hw. apply orb_false_iff in Hw as [Hc Hw].
    rewrite append_cons. simpl. rewrite Hc, IH by done.
    rewrite append_assoc, append_cons, append_empty_l. reflexivity.
Qed.

Lemma splitFrom_first w s gap :
  Word w → splitFrom (w +:+ s) "" gap = splitFrom s w false.
Proof.
  intros [Hne Hw]. destruct w as [|c w]; [discriminate|].
  simpl in Hw. apply orb_false_iff in Hw as [Hc Hw].
  rewrite append_cons. simpl. rewrite Hc, append_empty_l.
  rewrite splitFrom_word by done. reflexivity.
Qed.

Lemma join_cons w w' ws : join (w :: w' :: ws) = w +:+ " " +:+ join (w' :: ws).
Proof. reflexivity. Qed.

Lemma split_join ws gap :
  Forall Word ws → ws ≠ [] → splitFrom (join ws) "" gap = ws.
Proof.
  intros Hall. revert gap. induction Hall as [|w ws Hw Hall IH]; intros gap Hne; [done|].
  destruct ws as [|w' ws].
  - simpl. rewrite <- (append_empty_r w) at 1.
    rewrite splitFrom_first by done. reflexivity.
  - rewrite join_cons, splitFrom_first by done.
    rewrite append_cons, append_empty_l.
    change (splitFrom (String " " (join (w' :: ws))) w false)
      with (w :: splitFrom (join (w' :: ws)) "" true).
    rewrite IH by done. reflexivity.
Qed.

Lemma readable_words ws : Forall Word ws → readable ws = ws.
Proof.
  induction 1 as [|w ws [Hw _] _ IH]; [done|].
  simpl. rewrite Hw, IH. reflexivity.
Qed.

Lemma Greedy_lookup lines i line next :
  Greedy measure widthLimit lines →
  lines !! i = Some line → lines !! S i = Some next →
  ∃ word more, next = word :: more ∧
               ltb widthLimit (measure (join (line ++ [word]))) = true.
Proof.
  revert i. induction lines as [|l lines IH]; intros i Hg Hi Hn; [done|].
  destruct lines as [|l' lines]; [done|].
  destruct Hg as [Hhd Hg].
  destruct i as [|i].
  - simpl in Hi, Hn. injection Hi as <-. injection Hn as <-. exact Hhd.
  - apply (IH i); done.
Qed.

(** The loop leaves the complete lines alone, goes on filling the current
    line, and adds lines after it. *)
Lemma wrapLoop_shape words lines currentLine :
  Fits measure widthLimit currentLine →
  ∃ ext tail,
    wrapLoop measure widthLimit words lines currentLine
      = lines ++ (currentLine ++ ext) :: tail ∧
    ext ++ concat tail = readable words ∧
    Forall (Fits measure widthLimit) ((currentLine ++ ext) :: tail) ∧
    Forall (λ line, line ≠ []) tail ∧
    Greedy measure widthLimit ((currentLine ++ ext) :: tail).
Proof.
  revert lines currentLine.
  induction words as [|word rest IH]; intros lines cur Hcur.
  - exists [], []. simpl. rewrite app_nil_r. repeat split; auto.
  - simpl. destruct (Js.truthy_str word) eqn:Hw.
    + destruct (ltb widthLimit (measure (join (cur ++ [word])))) eqn:Hover.
      * destruct (IH (lines ++ [cur]) [word]) as (ext & tail & -> & Hc & Hf & Hne & Hg).
        { intros Hlen. simpl in Hlen. lia. }
        exists [], (([word] ++ ext) :: tail).
        rewrite app_nil_r, <- app_assoc. simpl.
        repeat split; auto.
        -- rewrite <- Hc. reflexivity.
        -- exists word, ext. split; [reflexivity|exact Hover].
      * destruct (IH lines (cur ++ [word])) as (ext & tail & -> & Hc & Hf & Hne & Hg).
        { intros _. exact Hover. }
        exists (word :: ext), tail.
        rewrite <- !app_assoc in *. simpl in *.
        repeat split; auto.
        rewrite <- Hc. reflexivity.
    + exists [], []. simpl. rewrite app_nil_r. repeat split; auto.
Qed.

Lemma Fits_nil : Fits measure widthLimit [].
Proof. intros Hlen. simpl in Hlen. lia. Qed.

Lemma wrapText_shape label :
  ∃ first tail,
    wrapText measure widthLimit label = first :: tail ∧
    first ++ concat tail = readable (split (Js.or_else label "")) ∧
    Forall (Fits measure widthLimit) (first :: tail) ∧
    Forall (λ line, line ≠ []) tail ∧
    Greedy measure widthLimit (first :: tail).
Proof.
  destruct (wrapLoop_shape (split (Js.or_else label "")) [] [] Fits_nil)
    as (ext & tail & Heq & H).
  exists ext, tail. split; [exact Heq|exact H].
Qed.

(** Property X12.  The words of a label that are separated by single spaces are
    laid out in reading order over the lines, none lost and none repeated,
    whatever the measured widths are. *)
Theorem wrapText_words (ws : list string) :
  Forall Word ws →
  concat (wrapText measure widthLimit (Some (join ws))) = ws.
Proof.
  intros Hall.
  destruct (wrapText_shape (Some (join ws))) as (first & tail & -> & Hc & _).
  simpl. rewrite Hc.
  destruct ws as [|w ws].
  - reflexivity.
  - assert (Js.or_else (Some (join (w :: ws))) "" = join (w :: ws)) as ->.
    { unfold Js.or_else. destruct (Js.truthy_str (join (w :: ws))) eqn:E; [done|].
      destruct (join (w :: ws)); [done|discriminate]. }
    unfold split. rewrite split_join by done.
    apply readable_words, Hall.
Qed.

(** Property X13.  Every line that holds two or more words was measured within
    the width limit, every line after the first holds a word, and a new
    line is begun only by a word that did not fit at the end of the line
    before it. *)
Theorem wrapText_lines (label : option string) (i : nat) (line : list string) :
  wrapText measure widthLimit label !! i = Some line →
  (2 ≤ length line →
   ltb widthLimit (measure (join line)) = false) ∧
  (0 < i → line ≠ []) ∧
  ∀ next, wrapText measure widthLimit label !! S i = Some next →
    ∃ word more, next = word :: more ∧
                 ltb widthLimit (measure (join (line ++ [word]))) = true.
Proof.
  intros Hi.
  destruct (wrapText_shape label) as (first & tail & Heq & _ & Hf & Hne & Hg).
  rewrite Heq in *. split; [|split].
  - rewrite Forall_lookup in Hf. exact (Hf i line Hi).
  - intros Hpos. destruct i as [|i]; [lia|]. simpl in Hi.
    rewrite Forall_lookup in Hne. exact (Hne i line Hi).
  - intros next Hn. exact (Greedy_lookup _ i line next Hg Hi Hn).
Qed.

(** Property X14.  A label that is missing, empty or begins with white space is
    rendered as a single empty line: the first piece of the split is empty
    and ends the loop, whatever follows it. *)
Theorem wrapText_blank_start (label : option string) :
  match Search.first_char (Js.or_else label "") with
  | Some c => Search.is_space c = true
  | None => True
  end →
  wrapText measure widthLimit label = [[]].
Proof.
  unfold wrapText, split.
  destruct (Js.or_else label "") as [|c s]; simpl.
  - reflexivity.
  - intros ->. reflexivity.
Qed.

End WrapTextFacts.

Section WrapTextExamples.
Import WrapText.

Example wrapText_sample :
  wrapText sevenPerChar (JsNum.ofQ 120)
           (Some "Multi factor authentication service provider")
  = [["Multi"; "factor"]; ["authentication"]; ["service"; "provider"]].
Proof. vm_compute. reflexivity. Qed.

Example wrapText_long_word :
  wrapText sevenPerChar (JsNum.ofQ 120)
           (Some "Supercalifragilisticexpialidocious thing")
  = [[]; ["Supercalifragilisticexpialidocious"]; ["thing"]].
Proof. vm_compute. reflexivity. Qed.

Lemma wrapText_words_witness :
  Forall Word ["Multi"; "factor"; "authentication"] ∧
  concat (wrapText sevenPerChar (JsNum.ofQ 120)
            (Some (join ["Multi"; "factor"; "authentication"])))
  = ["Multi"; "factor"; "authentication"].
Proof.
  assert (Forall Word ["Multi"; "factor"; "authentication"]) as H.
  { repeat constructor. }
  split; [exact H|].
  apply (wrapText_words sevenPerChar (JsNum.ofQ 120) _ H).
Defined.

Lemma wrapText_lines_witness :
  wrapText sevenPerChar (JsNum.ofQ 120)
    (Some "Multi factor authentication service provider") !! 0
  = Some ["Multi"; "factor"] ∧
  ltb (JsNum.ofQ 120) (sevenPerChar (join ["Multi"; "factor"])) = false ∧
  ∃ word more,
    ["authentication"] = word :: more ∧
    ltb (JsNum.ofQ 120) (sevenPerChar (join (["Multi"; "factor"] ++ [word]))) = true.
Proof.
  assert (wrapText sevenPerChar (JsNum.ofQ 120)
            (Some "Multi factor authentication service provider") !! 0
          = Some ["Multi"; "factor"]) as H0 by (vm_compute; reflexivity).
  assert (wrapText sevenPerChar (JsNum.ofQ 120)
            (Some "Multi factor authentication service provider") !! 1
          = Some ["authentication"]) as H1 by (vm_compute; reflexivity).
  destruct (wrapText_lines sevenPerChar (JsNum.ofQ 120) _ 0 _ H0) as (Hfit & _ & Hnext).
  split; [exact H0|]. split.
  - apply Hfit. simpl. lia.
  - exact (Hnext _ H1).
Defined.

Lemma wrapText_blank_start_witness :
  wrapText sevenPerChar (JsNum.ofQ 120) (Some " Hello world") = [[]].
Proof.
  apply (wrapText_blank_start sevenPerChar (JsNum.ofQ 120) (Some " Hello world")).
  reflexivity.
Defined.

End WrapTextExamples.

(** ** GraphView: the drawing and its highlights *)

Section DrawFacts.
Import Hierarchy Highlights Draw.

Lemma const_map_lookup {V} (v : V) (l : list D3.path) p :
  (list_to_map ((λ q, (q, v)) <$> l) : gmap D3.path V) !! p
  = if decide (p ∈ l) then Some v else None.
Proof.
  induction l as [|q l IH]; [done|].
  rewrite fmap_cons. cbn [list_to_map foldr].
  change (foldr _ _ _) with (list_to_map ((λ q, (q, v)) <$> l) : gmap D3.path V).
  destruct (decide (q = p)) as [->|Hne].
  - rewrite lookup_insert_eq. rewrite decide_True by left. done.
  - rewrite lookup_insert_ne by done. rewrite IH.
    destruct (decide (p ∈ l)) as [Hin|Hnin].
    + rewrite decide_True by (by right). done.
    + rewrite decide_False; [done|]. intros [->|?]%elem_of_cons; done.
Qed.

Lemma drawing_node {A} (rootNode : D3.Node A) p :
  nodeStroke (drawing rootNode) !! p
  = if decide (InTree rootNode p) then Some ("#fff", 2) else None.
Proof.
  unfold drawing. cbn [nodeStroke]. rewrite const_map_lookup.
  destruct (decide (p ∈ D3.descendants rootNode)) as [Hin|Hnin].
  - rewrite decide_True; [done|]. by apply descendants_elem.
  - rewrite decide_False; [done|]. intros H. by apply Hnin, descendants_elem.
Qed.

Lemma drawing_link {A} (rootNode : D3.Node A) p :
  linkStroke (drawing rootNode) !! p
  = if decide (p ≠ [] ∧ InTree rootNode p) then Some "#bbb" else None.
Proof.
  unfold drawing, links. cbn [linkStroke]. rewrite const_map_lookup.
  destruct (decide (p ≠ [] ∧ InTree rootNode p)) as [[Hne Hin]|Hn].
  - rewrite decide_True; [done|].
    apply list_elem_of_filter. split; [done|]. by apply descendants_elem.
  - rewrite decide_False; [done|].
    intros [Hne Hin]%list_elem_of_filter. apply Hn. split; [done|].
    by apply descendants_elem.
Qed.

Lemma related_elem ids rootNode p :
  InTree rootNode p → p ∈ relatedNodes ids rootNode ↔ Related ids rootNode p.
Proof.
  intros Hin. rewrite relatedNodes_elem. unfold Related.
  split; intros (m & Hm & H); exists m; (split; [done|]); tauto.
Qed.

(** The closure goes up with every node: the parent of a related node is
    related. *)
Lemma Related_parent ids rootNode q :
  Related ids rootNode q → Related ids rootNode (removelast q).
Proof.
  intros (m & Hm & [Hup|Hdown]); exists m; (split; [done|]).
  - left. unfold AncestorOrSelf in *. trans q; [|done].
    exists (match last q with Some z => [z] | None => [] end).
    destruct (last q) eqn:E.
    + destruct q as [|a q] using rev_ind; [done|].
      rewrite removelast_last. rewrite last_snoc in E. by injection E as ->.
    + apply last_None in E as ->. done.
  - unfold AncestorOrSelf in *. destruct Hdown as [ext ->].
    destruct ext as [|e ext _] using rev_ind.
    + left. rewrite app_nil_r.
      destruct m as [|a m _] using rev_ind; [done|].
      rewrite removelast_last. by exists [a].
    + right. rewrite app_assoc, removelast_last. by exists ext.
Qed.

Lemma InTree_parent {A} (rootNode : D3.Node A) q :
  InTree rootNode q → InTree rootNode (removelast q).
Proof.
  apply node_at_prefix.
  destruct q as [|a q _] using rev_ind; [done|].
  rewrite removelast_last. by exists [a].
Qed.

Lemma Matched_dec_tree ids rootNode p node :
  D3.node_at rootNode p = Some node →
  Matched ids rootNode p ↔ id (D3.data node) ∈ ids.
Proof.
  intros Hp. unfold Matched. split.
  - intros (n & Hn & Hid). by simplify_eq.
  - intros Hid. by exists node.
Qed.

Lemma applyHighlights_node ids rootNode p :
  ids ≠ [] →
  nodeStroke (applyHighlights (drawing rootNode) (Some ids) rootNode) !! p
  = if decide (InTree rootNode p)
    then Some (nodeStyle (list_to_set ids) (relatedNodes ids rootNode) rootNode p)
    else None.
Proof.
  intros Hne. destruct ids as [|i ids]; [done|].
  cbn [applyHighlights nodeStroke]. rewrite map_lookup_imap, drawing_node.
  by destruct (decide (InTree rootNode p)).
Qed.

Lemma applyHighlights_link ids rootNode p :
  ids ≠ [] →
  linkStroke (applyHighlights (drawing rootNode) (Some ids) rootNode) !! p
  = if decide (p ≠ [] ∧ InTree rootNode p)
    then Some (linkStyle (relatedNodes ids rootNode) p)
    else None.
Proof.
  intros Hne. destruct ids as [|i ids]; [done|].
  cbn [applyHighlights linkStroke]. rewrite map_lookup_imap, drawing_link.
  by destruct (decide (p ≠ [] ∧ InTree rootNode p)).
Qed.

Lemma nodeStyle_matched ids rootNode p :
  Matched ids rootNode p →
  nodeStyle (list_to_set ids) (relatedNodes ids rootNode) rootNode p = ("#e53935", 5).
Proof.
  intros (node & Hp & Hid). unfold nodeStyle. rewrite Hp.
  rewrite bool_decide_eq_true_2 by (by apply elem_of_list_to_set). done.
Qed.

Lemma nodeStyle_unmatched ids rootNode p :
  InTree rootNode p → ¬ Matched ids rootNode p →
  nodeStyle (list_to_set ids) (relatedNodes ids rootNode) rootNode p
  = if decide (p ∈ relatedNodes ids rootNode) then ("#f48fb1", 3) else ("#fff", 2).
Proof.
  intros [node Hp] Hnm. unfold nodeStyle. rewrite Hp.
  rewrite bool_decide_eq_false_2.
  - by destruct (decide (p ∈ relatedNodes ids rootNode)).
  - intros Hid%elem_of_list_to_set. apply Hnm. by exists node.
Qed.

Lemma linkStyle_related ids rootNode q :
  InTree rootNode q →
  linkStyle (relatedNodes ids rootNode) q
  = if decide (q ∈ relatedNodes ids rootNode) then "#f48fb1" else "#bbb".
Proof.
  intros Hin. unfold linkStyle.
  destruct (decide (q ∈ relatedNodes ids rootNode)) as [Hq|Hq].
  - rewrite decide_True; [done|]. split; [|done].
    apply related_elem; [by apply InTree_parent|].
    apply Related_parent. by apply related_elem.
  - rewrite decide_False; [done|]. tauto.
Qed.

Ltac no_value :=
  match goal with
  | H : ∃ _, None = Some _ |- _ => destruct H as [? H]; discriminate H
  end.

(** Property X15.  On a freshly drawn tree a non-empty highlight list restyles
    exactly the closure of the matched nodes: a circle is red with width 5
    when its id is matched, pink with width 3 when it lies above or below a
    matched node without being one, and keeps its white outline otherwise;
    a link is pink when its target is in the closure and keeps its grey
    stroke otherwise.  No circle or link is added or removed. *)
Theorem applyHighlights_restyles (rootNode : D3.Node Feature)
    (ids : list string) (p : D3.path) :
  ids ≠ [] →
  let before := drawing rootNode in
  let after := applyHighlights before (Some ids) rootNode in
  (is_Some (nodeStroke after !! p) ↔ InTree rootNode p) ∧
  (is_Some (linkStroke after !! p) ↔ p ≠ [] ∧ InTree rootNode p) ∧
  (nodeStroke after !! p = Some ("#e53935", 5) ↔ Matched ids rootNode p) ∧
  (nodeStroke after !! p = Some ("#f48fb1", 3) ↔
     Related ids rootNode p ∧ InTree rootNode p ∧ ¬ Matched ids rootNode p) ∧
  (InTree rootNode p →
     nodeStroke after !! p = nodeStroke before !! p ↔ ¬ Related ids rootNode p) ∧
  (linkStroke after !! p = Some "#f48fb1" ↔
     p ≠ [] ∧ InTree rootNode p ∧ Related ids rootNode p) ∧
  (p ≠ [] → InTree rootNode p →
     linkStroke after !! p = linkStroke before !! p ↔ ¬ Related ids rootNode p).
Proof.
  intros Hne before after. unfold after, before.
  rewrite applyHighlights_node, applyHighlights_link, drawing_node, drawing_link by done.
  destruct (decide (InTree rootNode p)) as [Hin|Hout].
  - pose proof (related_elem ids rootNode p Hin) as Hrel.
    rewrite (linkStyle_related _ _ _ Hin).
    assert (Matched ids rootNode p → Related ids rootNode p) as HMR.
    { intros Hm. exists p. split; [done|by left]. }
    assert (Matched ids rootNode p ∨ ¬ Matched ids rootNode p) as [Hm|Hm].
    { destruct Hin as [node Hp]. rewrite (Matched_dec_tree _ _ _ _ Hp).
      destruct (decide (id (D3.data node) ∈ ids)); tauto. }
    + rewrite nodeStyle_matched by done.
      repeat case_decide;
        unfold is_Some; repeat split; intros;
        try tauto; try discriminate; try done; eauto.
      all: try (exfalso; tauto).
      all: try no_value.
    + rewrite nodeStyle_unmatched by done.
      repeat case_decide;
        unfold is_Some; repeat split; intros;
        try tauto; try discriminate; try done; eauto.
      all: try (exfalso; tauto).
      all: try no_value.
  - repeat case_decide.
    all: assert (¬ Matched ids rootNode p) as Hm
      by (intros (node & Hp & _); apply Hout; by exists node).
    all: unfold is_Some; repeat split; intros;
      try tauto; try discriminate; try done; eauto.
    all: try (exfalso; tauto).
    all: try no_value.
Qed.

Lemma search_own_id (features : list Feature) f :
  f ∈ features → Search.trim (Search.text f) ≠ "" →
  id f ∈ Search.searchFeatures features (Some (Search.text f)).
Proof.
  intros Hf Hne. apply elem_of_search.
  assert (Search.normalize (Some (Search.text f)) =
          Search.toLowerCase (Search.trim (Search.text f))) as ->.
  { unfold Search.normalize. by destruct (Search.text f). }
  split; [by rewrite toLowerCase_empty|].
  exists f. split; [done|]. split; [done|]. unfold Search.Matches.
  destruct (trim_spec (Search.text f)) as (ws1 & ws2 & Ht & _).
  exists (Search.toLowerCase ws1), (Search.toLowerCase ws2).
  rewrite <- !toLowerCase_app. by rewrite <- Ht.
Qed.

Lemma hierarchy_node_feature fs fuel k t p node :
  hierarchy fuel (objects fs) k = Some t → D3.node_at t p = Some node →
  D3.data node ∈ fs.
Proof.
  intros Ht Hp.
  destruct (hierarchy_subtree _ _ _ _ _ _ Ht Hp) as (fuel' & k' & Hn).
  destruct (hierarchy_unfold _ _ _ _ Hn) as (f & ts & -> & Hf & _).
  exact Hf.
Qed.

Lemma buildHierarchy_tree fuel fs t :
  buildHierarchy fuel fs = ReturnsTree t →
  ∃ r, hierarchy fuel (objects fs) (id r) = Some t.
Proof.
  unfold buildHierarchy. destruct (index fs) as [m|] eqn:Hi; [|done].
  apply index_Normal in Hi as ->.
  destruct (rootFeature fs) as [r|]; [|done].
  destruct (hierarchy fuel (objects fs) (id r)) as [t'|] eqn:E; [|done].
  intros [= <-]. by exists r.
Qed.

(** Property X16.  Double-clicking a circle of the tree built from the model
    searches for the text of its feature; when that text is not blank the
    circle itself comes out red with width 5, every circle above or below
    it loses its white outline, and every link on the way from the root to
    it and in the subtree below it is pink. *)
Theorem dblclick_highlights (model : Store.Model) (fuel : nat)
    (rootNode : D3.Node Feature) (p : D3.path) (node : D3.Node Feature) :
  buildHierarchy fuel (Store.features model) = ReturnsTree rootNode →
  D3.node_at rootNode p = Some node →
  Search.trim (Search.text (D3.data node)) ≠ "" →
  let after :=
    applyHighlights (drawing rootNode) (Some (dblclick model node).2) rootNode in
  (dblclick model node).1 = Search.text (D3.data node) ∧
  nodeStroke after !! p = Some ("#e53935", 5) ∧
  ∀ q, InTree rootNode q → q `prefix_of` p ∨ p `prefix_of` q →
       (∃ style, nodeStroke after !! q = Some style ∧ style ≠ ("#fff", 2)) ∧
       (q ≠ [] → linkStroke after !! q = Some "#f48fb1").
Proof.
  intros Hbuild Hp Hne after.
  destruct (buildHierarchy_tree _ _ _ Hbuild) as [r Ht].
  pose proof (hierarchy_node_feature _ _ _ _ _ _ Ht Hp) as Hf.
  pose proof (search_own_id _ _ Hf Hne) as Hhit.
  set (hits := (dblclick model node).2) in *.
  assert (id (D3.data node) ∈ hits) as Hin by exact Hhit.
  assert (hits ≠ []) as Hnil.
  { intros E. rewrite E in Hin. by apply not_elem_of_nil in Hin. }
  assert (Matched hits rootNode p) as Hm by (by exists node).
  split; [done|]. split.
  - unfold after. rewrite applyHighlights_node by done.
    rewrite decide_True by (by exists node).
    by rewrite nodeStyle_matched.
  - intros q Hq Hrel.
    assert (Related hits rootNode q) as HR by (by exists p).
    assert (q ∈ relatedNodes hits rootNode) as Hr by (by apply related_elem).
    split.
    + unfold after. rewrite applyHighlights_node by done.
      rewrite decide_True by done. eexists. split; [done|].
      unfold nodeStyle. destruct Hq as [n Hn]. rewrite Hn.
      destruct (bool_decide _); [done|].
      rewrite !decide_True by done. done.
    + intros Hroot. unfold after. rewrite applyHighlights_link by done.
      rewrite (decide_True (P := q ≠ [] ∧ InTree rootNode q)) by done.
      rewrite linkStyle_related by done. by rewrite decide_True.
Qed.

End DrawFacts.

Section DrawExamples.
Import Hierarchy Highlights Draw.

Example applyHighlights_sample :
  nodeStroke (applyHighlights (drawing tree) (Some ["a2"]) tree) !! [0; 1]
    = Some ("#e53935", 5) ∧
  nodeStroke (applyHighlights (drawing tree) (Some ["a2"]) tree) !! [0]
    = Some ("#f48fb1", 3) ∧
  nodeStroke (applyHighlights (drawing tree) (Some ["a2"]) tree) !! [0; 0]
    = Some ("#fff", 2) ∧
  linkStroke (applyHighlights (drawing tree) (Some ["a2"]) tree) !! [0; 1; 0]
    = Some "#f48fb1" ∧
  linkStroke (applyHighlights (drawing tree) (Some ["a2"]) tree) !! [1]
    = Some "#bbb" ∧
  linkStroke (applyHighlights (drawing tree) (Some ["a2"]) tree) !! []
    = None.
Proof. vm_compute. repeat split. Qed.

Lemma applyHighlights_restyles_witness :
  ["a2"] ≠ [] ∧
  (nodeStroke (applyHighlights (drawing tree) (Some ["a2"]) tree) !! [0; 1]
     = Some ("#e53935", 5) ↔ Matched ["a2"] tree [0; 1]).
Proof.
  split; [discriminate|].
  apply (applyHighlights_restyles tree ["a2"] [0; 1]). discriminate.
Defined.

Lemma dblclick_highlights_witness :
  ∃ rootNode node,
    buildHierarchy 8 sample = ReturnsTree rootNode ∧
    D3.node_at rootNode [0] = Some node ∧
    Search.trim (Search.text (D3.data node)) ≠ "" ∧
    nodeStroke
      (applyHighlights (drawing rootNode)
         (Some (dblclick (Store.mkModel sample None) node).2) rootNode) !! [0]
    = Some ("#e53935", 5).
Proof.
  eexists. eexists.
  split; [vm_compute; reflexivity|].
  split; [vm_compute; reflexivity|].
  split; [vm_compute; discriminate|].
  refine (proj1 (proj2 (dblclick_highlights (Store.mkModel sample None) 8 _ [0] _ _ _ _))).
  - vm_compute. reflexivity.
  - vm_compute. reflexivity.
  - vm_compute. discriminate.
Defined.

End DrawExamples.

(** ** GraphView: the constraint overlay on a laid-out tree *)

Section OverlayMore.
Import JsNum JsObject Overlay.
Local Open Scope Qc_scope.

Lemma num_add_comm (a b : num) : add a b = add b a.
Proof. destruct a, b; simpl; try reflexivity. f_equal. ring. Qed.

Lemma num_abs_sub_comm (a b : num) : abs (sub a b) = abs (sub b a).
Proof.
  destruct a, b; simpl; try reflexivity. f_equal.
  rewrite <- (Qcabs_opp (q + - q0)). f_equal. ring.
Qed.

Lemma controlMagnitude_comm (s t : Got Placed) :
  controlMagnitude s t = controlMagnitude t s.
Proof. unfold controlMagnitude. by rewrite num_abs_sub_comm. Qed.

(** Property X17.  Exchanging the two ends of a constraint gives the same
    curve run the other way: the control points and the markers are
    reversed and the colours and dashes are unchanged, for all coordinates
    including the special values. *)
Theorem drawConstraint_swap (nodes : string → Got Placed) (c : Constraint)
    (d : Drawn) :
  drawConstraint nodes c = [d]%list →
  drawConstraint nodes (mkConstraint (b c) (a c) (kind c))
  = [mkDrawn (rev (points d)) (stroke d) (dash d) (rev (markers d)) (fill d)]%list.
Proof.
  assert (nodes (a c) = Absent ∨ nodes (a c) ≠ Absent) as [Ha|Ha]
    by (destruct (nodes (a c)); auto).
  { rewrite drawConstraint_skip by (by left). done. }
  assert (nodes (b c) = Absent ∨ nodes (b c) ≠ Absent) as [Hb|Hb]
    by (destruct (nodes (b c)); auto).
  { rewrite drawConstraint_skip by (by right). done. }
  rewrite !drawConstraint_draw by done. cbn [a b kind].
  intros [= <-]. cbn [points stroke dash markers fill rev app].
  rewrite (controlMagnitude_comm (nodes (b c))),
          (num_add_comm (number (getX (nodes (b c))))),
          (num_add_comm (number (getY (nodes (b c))))).
  reflexivity.
Qed.

(** Property X18.  On a laid-out tree without the id ["__proto__"], and for
    constraints none of whose ends names a member of [Object.prototype]
    that is no id of the tree: a constraint of the model is drawn
    when both of its ids are ids of nodes of the tree, and everything
    drawn belongs to a constraint of the model and has its markers on two
    nodes of the tree that carry the two ids. *)
Theorem drawConstraints_ends (rootNode : D3.Node Placed)
    (constraints : option (list Constraint)) :
  "__proto__" ∉ nodeIds rootNode →
  (∀ c k, c ∈ default []%list constraints → k = a c ∨ k = b c →
          k ∈ prototypeMembers → k ∈ nodeIds rootNode) →
  (∀ c, c ∈ default []%list constraints →
        (∃ p node, D3.node_at rootNode p = Some node ∧
                   id (feature (D3.data node)) = a c) →
        (∃ p node, D3.node_at rootNode p = Some node ∧
                   id (feature (D3.data node)) = b c) →
        ∃ d, d ∈ drawConstraints constraints rootNode ∧
             stroke d = colour c ∧ dash d = dashes c) ∧
  (∀ d, d ∈ drawConstraints constraints rootNode →
        ∃ c ps s pt t,
          c ∈ default []%list constraints ∧
          D3.node_at rootNode ps = Some s ∧ D3.node_at rootNode pt = Some t ∧
          id (feature (D3.data s)) = a c ∧ id (feature (D3.data t)) = b c ∧
          stroke d = colour c ∧
          markers d = [mkMarker (Some (x (D3.data s))) (Some (y (D3.data s)));
                       mkMarker (Some (x (D3.data t))) (Some (y (D3.data t)))]%list).
Proof.
  intros Hno Hends. unfold drawConstraints, overlay. split.
  - intros c Hc Ha%nodeIds_elem Hb%nodeIds_elem.
    destruct (nodeById_node _ _ Ha) as (ps & s & _ & _ & Hs).
    destruct (nodeById_node _ _ Hb) as (pt & t & _ & _ & Ht).
    eexists. split.
    + apply elem_of_concat. exists (drawConstraint (nodeById rootNode) c).
      split; [apply list_elem_of_fmap; by exists c|].
      rewrite drawConstraint_draw by congruence. left.
    + done.
  - intros d Hd. apply elem_of_concat in Hd as (l & Hl & Hdl).
    apply list_elem_of_fmap in Hl as (c & -> & Hc).
    assert (nodeById rootNode (a c) = Absent ∨ nodeById rootNode (a c) ≠ Absent)
      as [Ha|Ha] by (destruct (nodeById rootNode (a c)); auto).
    { rewrite drawConstraint_skip in Hdl by (by left). by apply not_elem_of_nil in Hdl. }
    assert (nodeById rootNode (b c) = Absent ∨ nodeById rootNode (b c) ≠ Absent)
      as [Hb|Hb] by (destruct (nodeById rootNode (b c)); auto).
    { rewrite drawConstraint_skip in Hdl by (by right). by apply not_elem_of_nil in Hdl. }
    rewrite drawConstraint_draw in Hdl by done.
    apply list_elem_of_singleton in Hdl as ->.
    assert (∀ k, k = a c ∨ k = b c → nodeById rootNode k ≠ Absent →
                 k ∈ nodeIds rootNode) as Hin.
    { intros k Hk Hne. destruct (decide (k ∈ nodeIds rootNode)) as [?|Hout]; [done|].
      rewrite nodeById_other in Hne by done.
      case_bool_decide as Hmem; [|done]. by apply (Hends c k). }
    destruct (nodeById_node _ _ (Hin (a c) (or_introl eq_refl) Ha))
      as (ps & s & Hs & Has & Es).
    destruct (nodeById_node _ _ (Hin (b c) (or_intror eq_refl) Hb))
      as (pt & t & Ht & Hbt & Et).
    exists c, ps, s, pt, t. rewrite Es, Et. done.
Qed.

Lemma drawConstraint_swap_witness :
  ∃ d, drawConstraint (nodeById stacked) (mkConstraint "top" "low" "requires")
       = [d]%list ∧
       drawConstraint (nodeById stacked) (mkConstraint "low" "top" "requires")
       = [mkDrawn (rev (points d)) (stroke d) (dash d) (rev (markers d)) (fill d)]%list.
Proof.
  eexists. split; [vm_compute; reflexivity|].
  apply (drawConstraint_swap (nodeById stacked) (mkConstraint "top" "low" "requires")).
  vm_compute. reflexivity.
Defined.

Lemma drawConstraints_ends_witness :
  Forall
    (λ d, ∃ c ps s pt t,
         c ∈ [mkConstraint "a" "b" "excludes";
              mkConstraint "a" "ghost" "requires"]%list ∧
         D3.node_at positioned ps = Some s ∧ D3.node_at positioned pt = Some t ∧
         id (feature (D3.data s)) = a c ∧ id (feature (D3.data t)) = b c ∧
         stroke d = colour c ∧
         markers d = [mkMarker (Some (x (D3.data s))) (Some (y (D3.data s)));
                      mkMarker (Some (x (D3.data t))) (Some (y (D3.data t)))]%list)
    (drawConstraints (Some [mkConstraint "a" "b" "excludes";
                            mkConstraint "a" "ghost" "requires"]%list) positioned).
Proof.
  apply Forall_forall.
  apply (drawConstraints_ends positioned
           (Some [mkConstraint "a" "b" "excludes";
                  mkConstraint "a" "ghost" "requires"]%list)).
  - apply (bool_decide_unpack (_ ∉ _)). vm_compute. exact I.
  - intros c k Hc Hk Hmem. exfalso.
    apply list_elem_of_In in Hc. simpl in Hc.
    destruct Hc as [<-|[<-|[]]]; destruct Hk as [-> | ->];
      revert Hmem; apply (bool_decide_unpack (_ ∉ _)); vm_compute; exact I.
Defined.

End OverlayMore.

(** ** GraphView: the view controls together *)

Section ViewportMore.
Import JsNum Viewport.
Local Open Scope Qc_scope.

(** Property X19.  Aligning twice is aligning once: the second click on
    "Align Center" finds the scale it left and computes the same
    translation, for all values. *)
Theorem handleAlignCenter_idempotent (state : option GraphState)
    (zoom : option Transform) (bbox : BBox) :
  handleAlignCenter state (handleAlignCenter state zoom bbox) bbox
  = handleAlignCenter state zoom bbox.
Proof.
  destruct state as [g|]; [|done].
  rewrite (handleAlignCenter_eq g zoom). cbv zeta.
  rewrite handleAlignCenter_eq.
  change (default zoomIdentity (Some ?t)) with t. cbn [k]. reflexivity.
Qed.

(** Property X20.  "Reset Zoom" followed by "Align Center" restores the initial
    fit-to-view transform, from whatever transform the user has reached and
    for whatever size the element has on the screen. *)
Theorem reset_then_align_is_fit (vw vh : num) (bbox : BBox)
    (zoom : option Transform) (rect : Rect) :
  let fit := fitToView vw vh bbox in
  let state := Some (mkGraphState vw vh fit) in
  handleAlignCenter state (handleResetZoom state zoom rect) bbox = Some fit.
Proof.
  intros fit state. unfold state.
  rewrite handleResetZoom_eq. cbv zeta.
  rewrite handleAlignCenter_eq.
  change (default zoomIdentity (Some ?t)) with t.
  cbn [k initialTransform viewWidth viewHeight].
  unfold fit. rewrite fitToView_scale.
  unfold fitToView. rewrite build_transform. reflexivity.
Qed.

(** Property X21.  Resetting twice is resetting once, for finite values and
    non-zero scales: the first reset already has the default scale and
    keeps the point under the centre of the viewport. *)
Theorem handleResetZoom_idempotent (g : GraphState) (rw rh tx ty s s0 : Qc) :
  s ≠ 0 → s0 ≠ 0 →
  k (initialTransform g) = Fin s0 →
  let rect := mkRect (Fin rw) (Fin rh) in
  let once :=
    handleResetZoom (Some g) (Some (mkTransform (Fin tx) (Fin ty) (Fin s))) rect in
  handleResetZoom (Some g) once rect = once.
Proof.
  intros Hs Hs0 Hinit rect once. unfold once, rect.
  rewrite (handleResetZoom_eq g (Some _)). cbv zeta.
  rewrite handleResetZoom_eq.
  repeat (progress change (default zoomIdentity (Some ?t)) with t).
  cbn [x y k rwidth rheight]. rewrite Hinit. unfold ofQ.
  rewrite !div_Fin by apply two_nonzero. cbn [sub add neg].
  rewrite !div_Fin by done. cbn [mul sub add neg].
  rewrite !div_Fin by done. cbn [mul sub add neg].
  f_equal. f_equal; f_equal; field; done.
Qed.

Lemma Qcmin_le_l (p q : Qc) : Qcmin p q <= p.
Proof.
  unfold Qcmin. destruct (Qclt_le_dec q p) as [H|H].
  - by apply Qclt_le_weak.
  - apply Qcle_refl.
Qed.

Lemma Qcmin_le_r (p q : Qc) : Qcmin p q <= q.
Proof.
  unfold Qcmin. destruct (Qclt_le_dec q p) as [H|H].
  - apply Qcle_refl.
  - exact H.
Qed.

Lemma Qcmin_cases (p q : Qc) : Qcmin p q = p ∨ Qcmin p q = q.
Proof. unfold Qcmin. destruct (Qclt_le_dec q p); auto. Qed.

Lemma scaled_extent (v b m : Qc) :
  0 < b → m <= v / b → b * (m * Q2Qc 0.8) <= Q2Qc 0.8 * v.
Proof.
  intros Hb Hm.
  assert (b ≠ 0) as Hne by (apply not_eq_sym; by apply Qclt_not_eq).
  replace (b * (m * Q2Qc 0.8)) with (m * (b * Q2Qc 0.8)) by ring.
  replace (Q2Qc 0.8 * v) with (v / b * (b * Q2Qc 0.8)) by (field; done).
  apply Qcmult_le_compat_r; [done|].
  apply Qclt_le_weak, Qcmult_pos; [done|apply eight_tenths_pos].
Qed.

(** Property X22.  The initial fit-to-view transform does fit: for a view and a
    bounding box of positive finite extent the scale is positive, the image
    of the box is centred in the view, it takes at most eight tenths of the
    view in each direction and exactly eight tenths in one of them. *)
Theorem fitToView_fits (vw vh ox oy bw bh : Qc) :
  0 < vw → 0 < vh → 0 < bw → 0 < bh →
  let fit := fitToView (Fin vw) (Fin vh) (mkBBox (Fin ox) (Fin oy) (Fin bw) (Fin bh)) in
  ∃ s left right top bottom : Qc,
    k fit = Fin s ∧ 0 < s ∧
    applyX fit (Fin ox) = Fin left ∧ applyX fit (Fin (ox + bw)) = Fin right ∧
    applyY fit (Fin oy) = Fin top ∧ applyY fit (Fin (oy + bh)) = Fin bottom ∧
    left + right = vw ∧ top + bottom = vh ∧
    right - left <= Q2Qc 0.8 * vw ∧ bottom - top <= Q2Qc 0.8 * vh ∧
    (right - left = Q2Qc 0.8 * vw ∨ bottom - top = Q2Qc 0.8 * vh).
Proof.
  intros Hvw Hvh Hbw Hbh fit.
  assert (bw ≠ 0) as Hbw0 by (apply not_eq_sym; by apply Qclt_not_eq).
  assert (bh ≠ 0) as Hbh0 by (apply not_eq_sym; by apply Qclt_not_eq).
  destruct (fitScale_positive vw vh bw bh (Fin ox) (Fin oy) Hvw Hvh Hbw Hbh)
    as (s & Hs & Hpos).
  pose proof (fitScale_regular vw vh bw bh (Fin ox) (Fin oy) Hbw0 Hbh0) as Hreg.
  rewrite Hs in Hreg. apply Fin_inj in Hreg.
  set (tx := (vw - bw * s) / Q2Qc 2 - ox * s).
  set (ty := (vh - bh * s) / Q2Qc 2 - oy * s).
  assert (fit = mkTransform (Fin tx) (Fin ty) (Fin s)) as Hfit.
  { unfold fit, fitToView. rewrite build_transform, Hs. unfold ofQ.
    cbn [bbx bby width height mul sub add neg]. rewrite !div_Fin by apply two_nonzero.
    cbn [sub add neg]. reflexivity. }
  exists s, (ox * s + tx), ((ox + bw) * s + tx), (oy * s + ty), ((oy + bh) * s + ty).
  rewrite Hfit. unfold applyX, applyY. cbn [x y k mul add].
  subst tx ty.
  assert (Q2Qc 2 = 1 + 1) as Htwo by (apply Qc_is_canon; reflexivity).
  assert (1 + 1 ≠ 0) as Htwo0 by (rewrite <- Htwo; apply two_nonzero).
  repeat split; try done.
  - rewrite Htwo. field. exact Htwo0.
  - rewrite Htwo. field. exact Htwo0.
  - replace ((ox + bw) * s + ((vw - bw * s) / Q2Qc 2 - ox * s) - (ox * s + ((vw - bw * s) / Q2Qc 2 - ox * s))) with (bw * s) by ring.
    rewrite Hreg. apply scaled_extent; [done|apply Qcmin_le_l].
  - replace ((oy + bh) * s + ((vh - bh * s) / Q2Qc 2 - oy * s) - (oy * s + ((vh - bh * s) / Q2Qc 2 - oy * s))) with (bh * s) by ring.
    rewrite Hreg. apply scaled_extent; [done|apply Qcmin_le_r].
  - replace ((ox + bw) * s + ((vw - bw * s) / Q2Qc 2 - ox * s) - (ox * s + ((vw - bw * s) / Q2Qc 2 - ox * s))) with (bw * s) by ring.
    replace ((oy + bh) * s + ((vh - bh * s) / Q2Qc 2 - oy * s) - (oy * s + ((vh - bh * s) / Q2Qc 2 - oy * s))) with (bh * s) by ring.
    rewrite Hreg.
    destruct (Qcmin_cases (vw / bw) (vh / bh)) as [->| ->]; [left|right]; field; done.
Qed.

End ViewportMore.

Section ViewportMoreExamples.
Import JsNum Viewport.
Local Open Scope Qc_scope.

Lemma handleResetZoom_idempotent_witness :
  handleResetZoom (Some sampleState)
    (handleResetZoom (Some sampleState) (Some panned)
       (mkRect (Fin (Q2Qc 800)) (Fin (Q2Qc 600))))
    (mkRect (Fin (Q2Qc 800)) (Fin (Q2Qc 600)))
  = handleResetZoom (Some sampleState) (Some panned)
      (mkRect (Fin (Q2Qc 800)) (Fin (Q2Qc 600))).
Proof.
  apply (handleResetZoom_idempotent sampleState (Q2Qc 800) (Q2Qc 600)
           (Q2Qc 10) (Q2Qc (-35)) (Q2Qc 2.5) (Q2Qc (8 # 3))).
  - intros H. apply (f_equal this) in H. vm_compute in H. discriminate.
  - intros H. apply (f_equal this) in H. vm_compute in H. discriminate.
  - vm_compute. reflexivity.
Defined.

Lemma fitToView_fits_witness :
  ∃ s : Qc, k sampleFit = Fin s ∧ 0 < s.
Proof.
  destruct (fitToView_fits (Q2Qc 400) (Q2Qc 300) (Q2Qc (-25)) (Q2Qc (-25))
              (Q2Qc 50) (Q2Qc 90))
    as (s & _ & _ & _ & _ & Hk & Hs & _); try reflexivity.
  exists s. split; [exact Hk|exact Hs].
Defined.

End ViewportMoreExamples.

(** ** GraphView: the size of the view *)

Section ViewSizeFacts.
Import JsNum Draw.
Local Open Scope Qc_scope.

Lemma extentStep_Fin (lo hi q : Qc) :
  lo <= hi →
  ∃ lo' hi',
    extentStep (Some (Fin lo, Fin hi)) (Fin q) = Some (Fin lo', Fin hi') ∧
    lo' <= hi' ∧ lo' <= lo ∧ hi <= hi' ∧ lo' <= q ∧ q <= hi' ∧
    (lo' = lo ∨ lo' = q) ∧ (hi' = hi ∨ hi' = q).
Proof.
  intros Hle. unfold extentStep, WrapText.ltb.
  destruct (Qclt_le_dec q lo) as [Hlo|Hlo]; destruct (Qclt_le_dec hi q) as [Hhi|Hhi].
  - exfalso. apply (Qclt_not_le _ _ Hlo). apply Qclt_le_weak.
    by apply (Qcle_lt_trans _ hi).
  - exists q, hi. repeat split; auto using Qcle_refl, Qclt_le_weak.
  - exists lo, q. repeat split; auto using Qcle_refl, Qclt_le_weak.
  - exists lo, hi. repeat split; auto using Qcle_refl.
Qed.

Lemma extent_fold (qs : list Qc) (lo hi : Qc) :
  lo <= hi →
  ∃ lo' hi',
    foldl extentStep (Some (Fin lo, Fin hi)) (Fin <$> qs) = Some (Fin lo', Fin hi') ∧
    lo' <= hi' ∧ lo' <= lo ∧ hi <= hi' ∧
    (lo' = lo ∨ lo' ∈ qs) ∧ (hi' = hi ∨ hi' ∈ qs) ∧
    ∀ q, q ∈ qs → lo' <= q ∧ q <= hi'.
Proof.
  revert lo hi. induction qs as [|q qs IH]; intros lo hi Hle.
  - exists lo, hi. split_and!; auto using Qcle_refl. by intros ? ?%not_elem_of_nil.
  - rewrite fmap_cons. cbn [foldl].
    destruct (extentStep_Fin lo hi q Hle)
      as (lo1 & hi1 & -> & Hle1 & Hlo1 & Hhi1 & Hq1 & Hq2 & Hc1 & Hc2).
    destruct (IH lo1 hi1 Hle1) as (lo' & hi' & -> & Hle' & Hlo' & Hhi' & Hd1 & Hd2 & Hall).
    exists lo', hi'. split_and!; auto.
    + by apply (Qcle_trans _ lo1).
    + by apply (Qcle_trans _ hi1).
    + destruct Hd1 as [->|?]; [|right; by right].
      destruct Hc1 as [->| ->]; [by left|right; left].
    + destruct Hd2 as [->|?]; [|right; by right].
      destruct Hc2 as [->| ->]; [by left|right; left].
    + intros q' [->|Hin]%elem_of_cons; [|by apply Hall]. split.
      * by apply (Qcle_trans _ lo1).
      * by apply (Qcle_trans _ hi1).
Qed.

(** [d3.extent] on a non-empty list of finite numbers: the least and the
    greatest of them. *)
Lemma extent_finite (qs : list Qc) :
  qs ≠ []%list →
  ∃ lo hi,
    extent (Fin <$> qs) = Some (Fin lo, Fin hi) ∧
    lo ∈ qs ∧ hi ∈ qs ∧ ∀ q, q ∈ qs → lo <= q ∧ q <= hi.
Proof.
  destruct qs as [|q qs]; [done|]. intros _.
  unfold extent. rewrite fmap_cons. cbn [foldl extentStep].
  destruct (extent_fold qs q q (Qcle_refl q))
    as (lo & hi & -> & _ & Hlo & Hhi & Hc1 & Hc2 & Hall).
  exists lo, hi. split_and!; [done| | |].
  - destruct Hc1 as [->|?]; [left|by right].
  - destruct Hc2 as [->|?]; [left|by right].
  - intros q' [->|Hin]%elem_of_cons; [done|by apply Hall].
Qed.

Lemma nodes_elem {A} (rootNode : D3.Node A) (n : A) :
  n ∈ nodes rootNode ↔ ∃ p node, D3.node_at rootNode p = Some node ∧ D3.data node = n.
Proof.
  unfold nodes. rewrite list_elem_of_omap. split.
  - intros (p & Hp & Hn). destruct (D3.node_at rootNode p) as [node|] eqn:E; [|done].
    injection Hn as <-. by exists p, node.
  - intros (p & node & Hp & <-). exists p. split.
    + apply descendants_elem. by exists node.
    + by rewrite Hp.
Qed.

Lemma finite_values {A} (f : A → num) (l : list A) :
  (∀ n, n ∈ l → ∃ q, f n = Fin q) →
  ∃ qs, f <$> l = Fin <$> qs ∧ length qs = length l ∧
        ∀ q, q ∈ qs ↔ ∃ n, n ∈ l ∧ f n = Fin q.
Proof.
  induction l as [|n l IH]; intros Hfin.
  - exists []%list. split_and!; try done. intros q. split.
    + by intros ?%not_elem_of_nil.
    + by intros (? & ?%not_elem_of_nil & _).
  - destruct (Hfin n) as [q Hq]; [left|].
    destruct IH as (qs & Heq & Hlen & Hall); [intros; apply Hfin; by right|].
    exists (q :: qs)%list. rewrite !fmap_cons, Heq, Hq. split_and!; [done| |].
    { simpl. by rewrite Hlen. }
    intros q'. split.
    + intros [->|Hin]%elem_of_cons.
      * exists n. split; [left|done].
      * apply Hall in Hin as (m & Hm & Hmq). exists m. split; [by right|done].
    + intros (m & [->|Hm]%elem_of_cons & Hmq).
      * rewrite Hq in Hmq. apply Fin_inj in Hmq as ->. left.
      * right. apply Hall. by exists m.
Qed.

Lemma span_finite {A} (f : A → num) (rootNode : D3.Node A) :
  (∀ p node, D3.node_at rootNode p = Some node → ∃ q, f (D3.data node) = Fin q) →
  ∃ lo hi : Qc,
    span (extent (f <$> nodes rootNode)) = Fin (hi - lo) ∧ lo <= hi ∧
    (∃ n, n ∈ nodes rootNode ∧ f n = Fin lo) ∧
    (∃ n, n ∈ nodes rootNode ∧ f n = Fin hi) ∧
    ∀ n q, n ∈ nodes rootNode → f n = Fin q → lo <= q ∧ q <= hi.
Proof.
  intros Hfin.
  destruct (finite_values f (nodes rootNode)) as (qs & Heq & Hlen & Hqs).
  { intros n (p & node & Hp & <-)%nodes_elem. by apply (Hfin p node). }
  assert (qs ≠ []%list) as Hne.
  { assert (D3.data rootNode ∈ nodes rootNode) as Hroot.
    { apply nodes_elem. by exists []%list, rootNode. }
    intros ->. destruct (nodes rootNode); [by apply not_elem_of_nil in Hroot|done]. }
  destruct (extent_finite qs Hne) as (lo & hi & Hext & Hlo & Hhi & Hall).
  exists lo, hi. rewrite Heq, Hext. cbn [span sub add neg].
  split; [done|]. split; [by apply (Hall hi)|].
  split; [by apply Hqs|]. split; [by apply Hqs|].
  intros n q Hn Hq. apply Hall, Hqs. by exists n.
Qed.

Lemma margin_bound (lo hi a b m : Qc) :
  lo <= b → a <= hi → a - b + m <= hi - lo + m.
Proof.
  intros Hb Ha. apply Qcplus_le_compat; [|apply Qcle_refl].
  apply Qcplus_le_compat; [done|]. by apply Qcopp_le_compat.
Qed.

Lemma margin_least (lo hi m : Qc) : lo <= hi → m <= hi - lo + m.
Proof.
  intros Hle. replace m with (lo - lo + m) at 1 by ring.
  by apply margin_bound; [apply Qcle_refl|].
Qed.

(** Property X23.  After a layout with finite coordinates the view is finite
    and never smaller than its margins, 400 wide and 300 high; the distance
    between any two nodes plus the margins fits in it, and it is exactly
    the greatest such distance plus the margins. *)
Theorem viewSize_bounds (rootNode : D3.Node Overlay.Placed) :
  (∀ p node, D3.node_at rootNode p = Some node →
     ∃ qx qy, Overlay.x (D3.data node) = Fin qx ∧
              Overlay.y (D3.data node) = Fin qy) →
  ∃ w h : Qc,
    viewWidth rootNode = Fin w ∧ viewHeight rootNode = Fin h ∧
    Q2Qc 400 <= w ∧ Q2Qc 300 <= h ∧
    (∀ n n' a b, n ∈ nodes rootNode → n' ∈ nodes rootNode →
       Overlay.x n = Fin a → Overlay.x n' = Fin b → a - b + Q2Qc 400 <= w) ∧
    (∀ n n' a b, n ∈ nodes rootNode → n' ∈ nodes rootNode →
       Overlay.y n = Fin a → Overlay.y n' = Fin b → a - b + Q2Qc 300 <= h) ∧
    (∃ n n' a b, n ∈ nodes rootNode ∧ n' ∈ nodes rootNode ∧
       Overlay.x n = Fin a ∧ Overlay.x n' = Fin b ∧ a - b + Q2Qc 400 = w) ∧
    (∃ n n' a b, n ∈ nodes rootNode ∧ n' ∈ nodes rootNode ∧
       Overlay.y n = Fin a ∧ Overlay.y n' = Fin b ∧ a - b + Q2Qc 300 = h).
Proof.
  intros Hfin.
  destruct (span_finite Overlay.x rootNode) as (xlo & xhi & Hx & Hxle & Hxlo & Hxhi & Hxall).
  { intros p node Hp. destruct (Hfin p node Hp) as (qx & _ & Hqx & _). by exists qx. }
  destruct (span_finite Overlay.y rootNode) as (ylo & yhi & Hy & Hyle & Hylo & Hyhi & Hyall).
  { intros p node Hp. destruct (Hfin p node Hp) as (_ & qy & _ & Hqy). by exists qy. }
  assert (Q2Qc 200 + Q2Qc 200 = Q2Qc 400) as H400 by (apply Qc_is_canon; reflexivity).
  assert (Q2Qc 100 + Q2Qc 200 = Q2Qc 300) as H300 by (apply Qc_is_canon; reflexivity).
  exists (xhi - xlo + Q2Qc 400), (yhi - ylo + Q2Qc 300).
  unfold viewWidth, viewHeight. rewrite Hx, Hy. unfold ofQ. cbn [add].
  rewrite <- H400, <- H300.
  split; [f_equal; ring|]. split; [f_equal; ring|].
  split; [by apply margin_least|]. split; [by apply margin_least|].
  split; [|split; [|split]].
  - intros n n' a b Hn Hn' Ha Hb. apply margin_bound.
    + by apply (Hxall n' b).
    + by apply (Hxall n a).
  - intros n n' a b Hn Hn' Ha Hb. apply margin_bound.
    + by apply (Hyall n' b).
    + by apply (Hyall n a).
  - destruct Hxlo as (n' & Hn' & Hb). destruct Hxhi as (n & Hn & Ha).
    by exists n, n', xhi, xlo.
  - destruct Hylo as (n' & Hn' & Hb). destruct Hyhi as (n & Hn & Ha).
    by exists n, n', yhi, ylo.
Qed.

End ViewSizeFacts.

Section ViewSizeExamples.
Import JsNum Draw.
Local Open Scope Qc_scope.

Example viewSize_positioned :
  viewWidth Overlay.positioned = Fin (Q2Qc 540) ∧
  viewHeight Overlay.positioned = Fin (Q2Qc 500).
Proof. split; vm_compute; f_equal; apply Qc_is_canon; reflexivity. Qed.

Lemma viewSize_bounds_witness :
  ∃ w h : Qc,
    viewWidth Overlay.positioned = Fin w ∧ viewHeight Overlay.positioned = Fin h ∧
    Q2Qc 400 <= w ∧ Q2Qc 300 <= h.
Proof.
  destruct (viewSize_bounds Overlay.positioned) as (w & h & Hw & Hh & Hlw & Hlh & _).
  - intros p node Hp.
    assert (p ∈ D3.descendants Overlay.positioned) as Hin
      by (apply descendants_elem; by exists node).
    vm_compute in Hin.
    repeat (apply elem_of_cons in Hin as [->|Hin];
            [injection Hp as <-; eexists; eexists; split; reflexivity|]).
    by apply not_elem_of_nil in Hin.
  - by exists w, h.
Defined.

End ViewSizeExamples.
